(** * multi_index_lru: LRU container and TTL wrapper over boost::multi_index

    Shallow embedding of [include/multi_index_lru/container.hpp] and
    [include/multi_index_lru/expirable_container.hpp].

    The two classes are thin layers over [boost::multi_index_container]
    with a [sequenced<>] index prepended (index 0, the recency list) to the
    user's indices.  The embedding has three layers:

    - [MultiIndex]: the operations of boost::multi_index the two classes
      call, on a node-based store;
    - [Container]: the class [multi_index_lru::Container];
    - [ExpirableContainer]: the class [multi_index_lru::ExpirableContainer].

    Sizes ([std::size_t]) are [nat]: they are only compared, never
    computed with.  Clock readings and durations are [Z], standing for
    the signed 64-bit counts of [std::chrono]; the one sum the program
    computes with them, [last_accessed + ttl_], is taken with its 64-bit
    wrap-around ([Ttl.deadline]). *)

From Stdlib Require Import String.
From Stdlib Require Import List ZArith Lia Bool PeanoNat.
From Stdlib Require Import Permutation Sorted.
Import ListNotations.

Set Implicit Arguments.

(* ================================================================== *)
(** * Part I. The model                                                 *)
(* ================================================================== *)

(** ** boost::multi_index_container, as the two classes use it *)

Module MultiIndex.

(** A node of the container.  All indices of a multi_index_container
    share the nodes; [id] stands for the node's address, which is what an
    iterator of any index holds, and what [project<0>] carries from one
    index to another.  Nodes are numbered in order of insertion. *)
Record node (Value : Type) : Type := Node {
  id : nat;
  element : Value
}.

(** One entry of the [indexed_by<...>] list: [ordered_unique] /
    [hashed_unique] ([unique = true]) or [ordered_non_unique]
    ([unique = false]), with its key extractor.  [Key] collects the key
    types of the declared indices (a sum type when they differ); keys are
    compared for equality, which is all the two classes ask of an index. *)
Record index_spec (Value Key : Type) : Type := Index {
  unique : bool;
  key_of : Value -> Key
}.

(** The container: the sequenced index (front = head of the list) over
    the nodes, and the next free node number. *)
Record multi_index_container (Value : Type) : Type := Mic {
  nodes : list (node Value);
  next_id : nat
}.

(** An iterator is a node handle; [None] is [end()]. *)
Definition iterator : Type := option nat.

Section Operations.

Variables Value Key : Type.
Variable key_eq_dec : forall a b : Key, {a = b} + {a <> b}.

Abbreviation node := (node Value).
Abbreviation index_spec := (index_spec Value Key).
Abbreviation mic := (multi_index_container Value).

Definition empty_container : mic := {| nodes := []; next_id := 0 |}.

(** [container_.size()] *)
Definition size (m : mic) : nat := length (nodes m).

(** [container_.empty()] *)
Definition empty (m : mic) : bool :=
  match nodes m with [] => true | _ :: _ => false end.

(** [container_.clear()] *)
Definition clear (m : mic) : mic := {| nodes := []; next_id := next_id m |}.

(** [*it] *)
Fixpoint deref (it : nat) (s : list node) : option node :=
  match s with
  | [] => None
  | n :: r => if id n =? it then Some n else deref it r
  end.

(** Unlinking the node an iterator points to. *)
Fixpoint unlink (it : nat) (s : list node) : list node :=
  match s with
  | [] => []
  | n :: r => if id n =? it then r else n :: unlink it r
  end.

(** Writing through an iterator to a [mutable] member of the element. *)
Fixpoint modify (it : nat) (f : Value -> Value) (s : list node) : list node :=
  match s with
  | [] => []
  | n :: r =>
      if id n =? it then {| id := id n; element := f (element n) |} :: r
      else n :: modify it f r
  end.

(** Does the element of node [n] have key [k] under index [ix]? *)
Definition key_matches (ix : index_spec) (k : Key) (n : node) : bool :=
  if key_eq_dec (key_of ix (element n)) k then true else false.

(** Elements with equal keys are kept by an ordered index in order of
    insertion (a new element is linked at the upper bound of its key);
    neither [relocate] in the sequenced index nor a write to a mutable
    member moves an element within another index.  The order decides
    which of several elements with one key [find] returns and in which
    order a range is walked; with a unique index there is nothing to
    order. *)
Fixpoint insert_by_id (n : node) (l : list node) : list node :=
  match l with
  | [] => [n]
  | m :: r => if id n <=? id m then n :: l else m :: insert_by_id n r
  end.

Definition by_arrival (l : list node) : list node :=
  fold_right insert_by_id [] l.

(** Nodes in order of arrival. *)
Definition arrival_order : list node -> Prop :=
  StronglySorted (fun a b => id a <= id b).

(** The node [x] is none of the nodes of [range]. *)
Definition outside (range : list node) (x : node) : bool :=
  negb (existsb (fun r => id x =? id r) range).

(** [index.equal_range(key)]: the nodes of the range, first to last. *)
Definition index_equal_range (ix : index_spec) (k : Key) (m : mic) : list node :=
  by_arrival (filter (key_matches ix k) (nodes m)).

(** [index.find(key)]: the first node of the key's range, or [end()]. *)
Definition index_find (ix : index_spec) (k : Key) (m : mic) : option node :=
  hd_error (index_equal_range ix k m).

(** [index.erase(key)]: removes every element with that key, returns how
    many there were. *)
Definition index_erase_key (ix : index_spec) (k : Key) (m : mic) : nat * mic :=
  (length (filter (key_matches ix k) (nodes m)),
   {| nodes := filter (fun n => negb (key_matches ix k n)) (nodes m);
      next_id := next_id m |}).

(** [index.erase(it)] *)
Definition index_erase (it : nat) (m : mic) : mic :=
  {| nodes := unlink it (nodes m); next_id := next_id m |}.

(** [it->member = ...] for a mutable member *)
Definition assign (it : nat) (f : Value -> Value) (m : mic) : mic :=
  {| nodes := modify it f (nodes m); next_id := next_id m |}.

(** [seq_index.relocate(seq_index.begin(), it)] *)
Definition relocate_front (it : nat) (m : mic) : mic :=
  match deref it (nodes m) with
  | Some n => {| nodes := n :: unlink it (nodes m); next_id := next_id m |}
  | None => m
  end.

(** [seq_index.pop_back()] *)
Definition pop_back (m : mic) : mic :=
  {| nodes := removelast (nodes m); next_id := next_id m |}.

(** [seq_index.rbegin()] *)
Definition rbegin (m : mic) : option node :=
  match nodes m with
  | [] => None
  | n :: r => Some (last r n)
  end.

(** The element that bans the insertion of [v] in index [ix]: a unique
    index refuses a second element with an equal key. *)
Definition banned_by (ix : index_spec) (v : Value) (s : list node) : option node :=
  if unique ix then find (key_matches ix (key_of ix v)) s else None.

(** The indices are asked in the order of their declaration; the first
    one that refuses decides which element is reported. *)
Fixpoint first_ban (ixs : list index_spec) (v : Value) (s : list node) : option node :=
  match ixs with
  | [] => None
  | ix :: r =>
      match banned_by ix v s with
      | Some n => Some n
      | None => first_ban r v s
      end
  end.

(** [seq_index.emplace_front(v)]: [(p.first, p.second)] and the container
    afterwards.  When the insertion is banned the container is left as it
    was and [p.first] points to a banning element. *)
Definition emplace_front (indices : list index_spec) (v : Value) (m : mic)
  : nat * bool * mic :=
  match first_ban indices v (nodes m) with
  | Some n => (id n, false, m)
  | None =>
      (next_id m, true,
       {| nodes := {| id := next_id m; element := v |} :: nodes m;
          next_id := S (next_id m) |})
  end.

(** No two of the nodes have one key under a unique index. *)
Definition keys_unique (indices : list index_spec) (s : list node) : Prop :=
  forall ix a b,
    In ix indices -> unique ix = true -> In a s -> In b s ->
    key_of ix (element a) = key_of ix (element b) -> a = b.

(** Node handles are distinct and below the next free number. *)
Definition wf (m : mic) : Prop :=
  NoDup (map (@id Value) (nodes m)) /\
  Forall (fun n => id n < next_id m) (nodes m).

End Operations.

End MultiIndex.

(** ** multi_index_lru::Container (container.hpp) *)

Module Lru.
Import MultiIndex.

(** The data members of the class. *)
Record Container (Value : Type) : Type := MkContainer {
  container_ : multi_index_container Value;
  max_size_ : nat
}.

Section Operations.

Variables Value Key : Type.
Variable key_eq_dec : forall a b : Key, {a = b} + {a <> b}.
(** [IndexSpecifierList], in the order of declaration. *)
Variable indices : list (index_spec Value Key).

Abbreviation Container := (Container Value).
Abbreviation index_spec := (index_spec Value Key).

(** A member function works on [container_] and leaves [max_size_]. *)
Definition with_container (c : Container) (m : multi_index_container Value)
  : Container :=
  {| container_ := m; max_size_ := max_size_ c |}.

(** [explicit Container(size_type max_size)] *)
Definition new (max_size : nat) : Container :=
  {| container_ := empty_container Value; max_size_ := max_size |}.

(** [size()], [empty()], [capacity()] *)
Definition size (c : Container) : nat := MultiIndex.size (container_ c).
Definition empty (c : Container) : bool := MultiIndex.empty (container_ c).
Definition capacity (c : Container) : nat := max_size_ c.

(** [begin()] .. [end()]: the elements, most recently used first. *)
Definition recency (c : Container) : list Value :=
  map (@element Value) (nodes (container_ c)).

(** [bool emplace(Args&&... args)] *)
Definition emplace (v : Value) (c : Container) : bool * Container :=
  let '(first, second, m) := emplace_front key_eq_dec indices v (container_ c) in
  if negb second then
    (second, with_container c (relocate_front first m))
  else if max_size_ c <? MultiIndex.size m then
    (second, with_container c (pop_back m))
  else
    (second, with_container c m).

(** [bool insert(const Value&)], [bool insert(Value&&)] *)
Definition insert (v : Value) (c : Container) : bool * Container :=
  emplace v c.

(** [auto find<Tag>(const auto& key)] *)
Definition find (ix : index_spec) (k : Key) (c : Container)
  : iterator * Container :=
  match index_find key_eq_dec ix k (container_ c) with
  | Some n =>
      (Some (id n), with_container c (relocate_front (id n) (container_ c)))
  | None => (None, c)
  end.

(** [bool contains<Tag>(const auto& key)] *)
Definition contains (ix : index_spec) (k : Key) (c : Container)
  : bool * Container :=
  let '(it, c') := find ix k c in
  (match it with Some _ => true | None => false end, c').

(** [bool erase<Tag>(const auto& key)] *)
Definition erase (ix : index_spec) (k : Key) (c : Container)
  : bool * Container :=
  let '(count, m) := index_erase_key key_eq_dec ix k (container_ c) in
  (0 <? count, with_container c m).

(** The loop of [set_capacity]; every turn removes an element, so
    [size()] turns are enough. *)
Fixpoint set_capacity_loop (fuel : nat) (c : Container) : Container :=
  match fuel with
  | 0 => c
  | S fuel' =>
      if max_size_ c <? MultiIndex.size (container_ c) then
        set_capacity_loop fuel' (with_container c (pop_back (container_ c)))
      else c
  end.

(** [void set_capacity(size_type new_capacity)] *)
Definition set_capacity (new_capacity : nat) (c : Container) : Container :=
  let c1 := {| container_ := container_ c; max_size_ := new_capacity |} in
  set_capacity_loop (MultiIndex.size (container_ c1)) c1.

(** [void clear()] *)
Definition clear (c : Container) : Container :=
  with_container c (MultiIndex.clear (container_ c)).

(** [get_container()] *)
Definition get_container (c : Container) : multi_index_container Value :=
  container_ c.

(** Modelled from the spec: [Container::get_sequenced] and
    [Container::get_index<Tag>], which expirable_container.hpp calls, are
    not among the members in container.hpp.  The wrapper "only accesses
    [the envelope] through the Core's indices", the Recency List being one
    of them: the two are taken as the accessors of index 0 and of the
    tagged index of [container_]. *)
Definition get_sequenced (c : Container) : multi_index_container Value :=
  container_ c.

Definition get_index (c : Container) : multi_index_container Value :=
  container_ c.

(** Modelled from the spec: [Container::find_no_update<Tag>], called by
    the wrapper and absent from container.hpp: "same lookup, but never
    checks TTL and never refreshes timestamp or recency". *)
Definition find_no_update (ix : index_spec) (k : Key) (c : Container)
  : iterator * Container :=
  (option_map (@id Value) (index_find key_eq_dec ix k (container_ c)), c).

(** The handles of the stored nodes are distinct. *)
Definition wf (c : Container) : Prop := MultiIndex.wf (container_ c).

(** The stored nodes, most recently used first. *)
Definition items (c : Container) : list (node Value) := nodes (container_ c).

(** [v] has, under a unique index, the key of a stored element. *)
Definition collides (v : Value) (c : Container) : Prop :=
  exists ix n,
    In ix indices /\ unique ix = true /\ In n (items c) /\
    key_of ix (element n) = key_of ix v.

(** The public operations on a cache, for runs of calls. *)
Inductive op : Type :=
| Emplace (v : Value)
| Insert (v : Value)
| Find (ix : index_spec) (k : Key)
| Contains (ix : index_spec) (k : Key)
| Erase (ix : index_spec) (k : Key)
| SetCapacity (n : nat)
| Clear.

Definition step (o : op) (c : Container) : Container :=
  match o with
  | Emplace v => snd (emplace v c)
  | Insert v => snd (insert v c)
  | Find ix k => snd (find ix k c)
  | Contains ix k => snd (contains ix k c)
  | Erase ix k => snd (erase ix k c)
  | SetCapacity n => set_capacity n c
  | Clear => clear c
  end.

Definition run (ops : list op) (c : Container) : Container :=
  fold_left (fun c o => step o c) ops c.

End Operations.

Arguments Emplace {Value Key} v.
Arguments Insert {Value Key} v.
Arguments Find {Value Key} ix k.
Arguments Contains {Value Key} ix k.
Arguments Erase {Value Key} ix k.
Arguments SetCapacity {Value Key} n.
Arguments Clear {Value Key}.

End Lru.

(** ** multi_index_lru::ExpirableContainer (expirable_container.hpp) *)

Module Ttl.
Import MultiIndex.

(** Modelled from the spec: [detail::TimestampedValue<Value>], the stored
    item type of the wrapper, is declared outside the two headers:
    "Envelope (TTL mode only) - { value: Item, last_accessed: Timestamp }".
    [last_accessed] is a reading of [std::chrono::steady_clock], in ticks
    of that clock. *)
Record TimestampedValue (Value : Type) : Type := CacheItem {
  value : Value;
  last_accessed : Z
}.

(** The data members of the class; [ttl_] counts milliseconds
    ([duration_type = std::chrono::milliseconds]). *)
Record ExpirableContainer (Value : Type) : Type := MkExpirable {
  container_ : Lru.Container (TimestampedValue Value);
  ttl_ : Z
}.

(** What a call that starts with an [assert] does: it returns, or the
    assertion fails and the program is aborted with the message. *)
Inductive outcome (A : Type) : Type :=
| Returned (a : A)
| Aborted (message : string).

Arguments Aborted {A} message.

(** [assert(cond && msg)] of <cassert>: when the translation unit is
    compiled with [NDEBUG] defined the macro expands to [((void)0)] and
    the condition is not evaluated. *)
Definition assert {A : Type} (NDEBUG : bool) (cond : bool) (message : string)
  (continue : A) : outcome A :=
  if NDEBUG then Returned continue
  else if cond then Returned continue
  else Aborted message.

(** Ticks of [steady_clock] in one millisecond: [steady_clock::period] is
    [std::nano] in libstdc++, libc++ and the MSVC library. *)
Definition ticks_per_ms : Z := 1000000.

(** The counts of [steady_clock::time_point] and of
    [std::chrono::milliseconds] are signed 64-bit integers. *)
Definition int64_min : Z := - 2 ^ 63.
Definition int64_max : Z := 2 ^ 63 - 1.

(** The 64-bit two's-complement value of an arithmetic result.  Signed
    overflow is undefined in C++; on the targets the library is built for
    the machine addition and multiplication wrap around, which is what
    this computes. *)
Definition int64 (z : Z) : Z := ((z - int64_min) mod 2 ^ 64 + int64_min)%Z.

(** [it->last_accessed + ttl_]: [operator+] of <chrono> converts [ttl_]
    to the period of the time point - its count times [ticks_per_ms] -
    and adds the two counts, both in the 64-bit representation. *)
Definition deadline {Value : Type} (ttl : Z) (w : TimestampedValue Value)
  : Z :=
  int64 (last_accessed w + int64 (ttl * ticks_per_ms)).

(** [now > it->last_accessed + ttl_] *)
Definition expired {Value : Type} (now ttl : Z) (w : TimestampedValue Value)
  : bool :=
  (deadline ttl w <? now)%Z.

(** A count that a signed 64-bit integer holds. *)
Definition representable (z : Z) : Prop := (int64_min <= z <= int64_max)%Z.

(** A timestamp [t] to which a TTL of [ttl] milliseconds is added without
    overflow: neither the conversion of the TTL to ticks nor the sum
    leaves the 64-bit range. *)
Definition no_overflow (ttl t : Z) : Prop :=
  representable (ttl * ticks_per_ms) /\ representable (t + ttl * ticks_per_ms).

(** [it->last_accessed = now] *)
Definition set_last_accessed {Value : Type} (now : Z) (w : TimestampedValue Value)
  : TimestampedValue Value :=
  {| value := value w; last_accessed := now |}.

Section Operations.

Variables Value Key : Type.
Variable key_eq_dec : forall a b : Key, {a = b} + {a <> b}.

(** The key extractors of the wrapper's indices are applied to the stored
    [TimestampedValue]; they read its payload (as [wrapped.value.id] does
    in the tests), never the mutable [last_accessed]. *)
Definition through_wrapper (ix : index_spec Value Key)
  : index_spec (TimestampedValue Value) Key :=
  {| unique := unique ix; key_of := fun w => key_of ix (value w) |}.

(** [IndexSpecifierList], in the order of declaration. *)
Variable indices : list (index_spec Value Key).

Abbreviation CacheItem := (TimestampedValue Value).
Abbreviation ExpirableContainer := (ExpirableContainer Value).
Abbreviation index_spec := (index_spec Value Key).

Definition with_container (c : ExpirableContainer)
  (m : multi_index_container CacheItem) : ExpirableContainer :=
  {| container_ := Lru.with_container (container_ c) m; ttl_ := ttl_ c |}.

(** [explicit ExpirableContainer(size_type max_size, duration_type ttl)] *)
Definition new (NDEBUG : bool) (max_size : nat) (ttl : Z)
  : outcome ExpirableContainer :=
  assert NDEBUG (0 <? ttl)%Z "TTL must be positive"
    {| container_ := Lru.new _ max_size; ttl_ := ttl |}.

(** [size()], [empty()], [capacity()], [ttl()] *)
Definition size (c : ExpirableContainer) : nat := Lru.size (container_ c).
Definition empty (c : ExpirableContainer) : bool := Lru.empty (container_ c).
Definition capacity (c : ExpirableContainer) : nat := Lru.capacity (container_ c).
Definition ttl (c : ExpirableContainer) : Z := ttl_ c.

(** The stored envelopes, most recently used first. *)
Definition items (c : ExpirableContainer) : list (node CacheItem) :=
  nodes (Lru.container_ (container_ c)).

(** [auto emplace(Args&&... args)].  [now] is the reading of the clock
    during the call: the constructor of the envelope stamps the new item
    with it, and the banned branch stamps the existing one. *)
Definition emplace (v : Value) (now : Z) (c : ExpirableContainer)
  : (nat * bool) * ExpirableContainer :=
  let '(first, second, m) :=
    emplace_front key_eq_dec (map through_wrapper indices)
      {| value := v; last_accessed := now |}
      (Lru.get_sequenced (container_ c)) in
  if negb second then
    ((first, second),
     with_container c
       (relocate_front first (assign first (set_last_accessed now) m)))
  else if Lru.capacity (container_ c) <? MultiIndex.size m then
    ((first, second), with_container c (pop_back m))
  else
    ((first, second), with_container c m).

(** [bool insert(const Value&)], [bool insert(Value&&)] *)
Definition insert (v : Value) (now : Z) (c : ExpirableContainer)
  : bool * ExpirableContainer :=
  let '(r, c') := emplace v now c in (snd r, c').

(** [auto find<Tag>(const auto& key)] *)
Definition find (ix : index_spec) (k : Key) (now : Z) (c : ExpirableContainer)
  : iterator * ExpirableContainer :=
  let index := Lru.get_index (container_ c) in
  match index_find key_eq_dec (through_wrapper ix) k index with
  | Some n =>
      if expired now (ttl_ c) (element n) then
        (None, with_container c (index_erase (id n) index))
      else
        (Some (id n),
         with_container c
           (relocate_front (id n)
              (assign (id n) (set_last_accessed now) index)))
  | None => (None, c)
  end.

(** [auto find_no_update<Tag>(const auto& key)] *)
Definition find_no_update (ix : index_spec) (k : Key) (c : ExpirableContainer)
  : iterator * ExpirableContainer :=
  let '(it, core) :=
    Lru.find_no_update key_eq_dec (through_wrapper ix) k (container_ c) in
  (it, {| container_ := core; ttl_ := ttl_ c |}).

(** The [while (it != range.second)] loop of [equal_range]: [its] are the
    iterators from [it] up to [range.second]. *)
Fixpoint equal_range_loop (now ttl : Z) (its : list nat)
  (index : multi_index_container CacheItem) (changed : bool)
  : multi_index_container CacheItem * bool :=
  match its with
  | [] => (index, changed)
  | it :: rest =>
      match deref it (nodes index) with
      | Some n =>
          if expired now ttl (element n) then
            equal_range_loop now ttl rest (index_erase it index) true
          else
            equal_range_loop now ttl rest
              (relocate_front it (assign it (set_last_accessed now) index))
              changed
      | None => (index, changed)
      end
  end.

(** [auto equal_range<Tag>(const auto& key)]; the result is the sequence
    of iterators from [range.first] up to [range.second]. *)
Definition equal_range (ix : index_spec) (k : Key) (now : Z)
  (c : ExpirableContainer) : list nat * ExpirableContainer :=
  let index := Lru.get_index (container_ c) in
  let range := map (@id CacheItem)
                 (index_equal_range key_eq_dec (through_wrapper ix) k index) in
  let '(index', changed) := equal_range_loop now (ttl_ c) range index false in
  let range' :=
    if changed then
      map (@id CacheItem)
        (index_equal_range key_eq_dec (through_wrapper ix) k index')
    else range in
  (range', with_container c index').

(** [bool contains<Tag>(const auto& key)] *)
Definition contains (ix : index_spec) (k : Key) (now : Z)
  (c : ExpirableContainer) : bool * ExpirableContainer :=
  let '(it, c') := find ix k now c in
  (match it with Some _ => true | None => false end, c').

(** [bool erase<Tag>(const auto& key)] *)
Definition erase (ix : index_spec) (k : Key) (c : ExpirableContainer)
  : bool * ExpirableContainer :=
  let '(r, core) := Lru.erase key_eq_dec (through_wrapper ix) k (container_ c) in
  (r, {| container_ := core; ttl_ := ttl_ c |}).

(** [void set_capacity(size_type new_capacity)] *)
Definition set_capacity (new_capacity : nat) (c : ExpirableContainer)
  : ExpirableContainer :=
  {| container_ := Lru.set_capacity new_capacity (container_ c);
     ttl_ := ttl_ c |}.

(** [void clear()] *)
Definition clear (c : ExpirableContainer) : ExpirableContainer :=
  {| container_ := Lru.clear (container_ c); ttl_ := ttl_ c |}.

(** The loop of [cleanup_expired]; every turn that does not leave the
    loop removes an element, so [size()] turns are enough. *)
Fixpoint cleanup_loop (fuel : nat) (now ttl : Z)
  (seq_index : multi_index_container CacheItem)
  : multi_index_container CacheItem :=
  match fuel with
  | 0 => seq_index
  | S fuel' =>
      if MultiIndex.empty seq_index then seq_index
      else
        match rbegin seq_index with
        | Some n =>
            if expired now ttl (element n) then
              cleanup_loop fuel' now ttl (pop_back seq_index)
            else seq_index
        | None => seq_index
        end
  end.

(** [void cleanup_expired()] *)
Definition cleanup_expired (now : Z) (c : ExpirableContainer)
  : ExpirableContainer :=
  let seq_index := Lru.get_sequenced (container_ c) in
  with_container c
    (cleanup_loop (MultiIndex.size seq_index) now (ttl_ c) seq_index).

(** [void set_ttl(duration_type new_ttl)] *)
Definition set_ttl (NDEBUG : bool) (new_ttl : Z) (c : ExpirableContainer)
  : outcome ExpirableContainer :=
  assert NDEBUG (0 <? new_ttl)%Z "TTL must be positive"
    {| container_ := container_ c; ttl_ := new_ttl |}.

(** The handles of the stored nodes are distinct. *)
Definition wf (c : ExpirableContainer) : Prop := Lru.wf (container_ c).

(** A node whose envelope has been stamped with [now]. *)
Definition refreshed (now : Z) (n : node CacheItem) : node CacheItem :=
  {| id := id n; element := set_last_accessed now (element n) |}.

(** A node whose envelope is within its time to live at [now]. *)
Definition live (now ttl : Z) (n : node CacheItem) : bool :=
  negb (expired now ttl (element n)).

(** The public operations that work on a constructed cache, each with the
    reading of the clock it makes (if it makes one). *)
Inductive op : Type :=
| Emplace (v : Value) (now : Z)
| Insert (v : Value) (now : Z)
| Find (ix : index_spec) (k : Key) (now : Z)
| FindNoUpdate (ix : index_spec) (k : Key)
| EqualRange (ix : index_spec) (k : Key) (now : Z)
| Contains (ix : index_spec) (k : Key) (now : Z)
| Erase (ix : index_spec) (k : Key)
| SetCapacity (n : nat)
| Clear
| CleanupExpired (now : Z).

Definition step (o : op) (c : ExpirableContainer) : ExpirableContainer :=
  match o with
  | Emplace v now => snd (emplace v now c)
  | Insert v now => snd (insert v now c)
  | Find ix k now => snd (find ix k now c)
  | FindNoUpdate ix k => snd (find_no_update ix k c)
  | EqualRange ix k now => snd (equal_range ix k now c)
  | Contains ix k now => snd (contains ix k now c)
  | Erase ix k => snd (erase ix k c)
  | SetCapacity n => set_capacity n c
  | Clear => clear c
  | CleanupExpired now => cleanup_expired now c
  end.

Definition run (ops : list op) (c : ExpirableContainer) : ExpirableContainer :=
  fold_left (fun c o => step o c) ops c.

(** The reading of the clock an operation makes. *)
Definition clock_of (o : op) : option Z :=
  match o with
  | Emplace _ now | Insert _ now | Find _ _ now | EqualRange _ _ now
  | Contains _ _ now | CleanupExpired now => Some now
  | FindNoUpdate _ _ | Erase _ _ | SetCapacity _ | Clear => None
  end.

(** The wrapper as its constructor leaves it when it returns. *)
Definition constructed (max_size : nat) (ttl : Z) : ExpirableContainer :=
  {| container_ := Lru.new _ max_size; ttl_ := ttl |}.

(** A sequence of calls on a clock that does not run backwards: every
    reading is at or after the one before it, [t] being the last reading
    before the sequence. *)
Fixpoint clock_monotone (t : Z) (ops : list op) : Prop :=
  match ops with
  | [] => True
  | o :: rest =>
      match clock_of o with
      | Some now => (t <= now)%Z /\ clock_monotone now rest
      | None => clock_monotone t rest
      end
  end.

(** The last reading of the clock in a sequence of calls. *)
Fixpoint last_reading (t : Z) (ops : list op) : Z :=
  match ops with
  | [] => t
  | o :: rest =>
      match clock_of o with
      | Some now => last_reading now rest
      | None => last_reading t rest
      end
  end.

(** The recency list runs from the latest [last_accessed] to the
    earliest. *)
Definition newest_first (s : list (node CacheItem)) : Prop :=
  StronglySorted
    (fun a b => (last_accessed (element b) <= last_accessed (element a))%Z) s.

(** No stored [last_accessed] is after [t]. *)
Definition stamped_by (t : Z) (s : list (node CacheItem)) : Prop :=
  forall n, In n s -> (last_accessed (element n) <= t)%Z.

(** The recency list is in the order of the timestamps, none of which
    is after [t]. *)
Definition in_order (t : Z) (c : ExpirableContainer) : Prop :=
  newest_first (items c) /\ stamped_by t (items c).

(** The calls the spec names as caller-visible accesses. *)
Definition is_access (o : op) : bool :=
  match o with
  | Find _ _ _ | Contains _ _ _ | EqualRange _ _ _ => true
  | _ => false
  end.

(** The calls that insert. *)
Definition is_insertion (o : op) : bool :=
  match o with
  | Emplace _ _ | Insert _ _ => true
  | _ => false
  end.

End Operations.

Arguments Emplace {Value Key} v now.
Arguments Insert {Value Key} v now.
Arguments Find {Value Key} ix k now.
Arguments FindNoUpdate {Value Key} ix k.
Arguments EqualRange {Value Key} ix k now.
Arguments Contains {Value Key} ix k now.
Arguments Erase {Value Key} ix k.
Arguments SetCapacity {Value Key} n.
Arguments Clear {Value Key}.
Arguments CleanupExpired {Value Key} now.

End Ttl.

(** ** Entries built from serialized data (zerialize_entry.hpp,
       zerialize_cache.hpp) *)

Module Zerialize.
Import MultiIndex.

(** The values the field extractors produce, one constructor for each
    type [field<T>] accepts.  [Double] stands for [double]; the integer
    types are carried as [Z], the conversions being the deserializer's. *)
Inductive key_value (Double : Type) : Type :=
| Int64 (z : Z)
| Int32 (z : Z)
| UInt64 (z : Z)
| UInt32 (z : Z)
| Str (s : string)
| Dbl (d : Double)
| Bool (b : bool).

Arguments Int64 {Double} z.
Arguments Int32 {Double} z.
Arguments UInt64 {Double} z.
Arguments UInt32 {Double} z.
Arguments Str {Double} s.
Arguments Dbl {Double} d.
Arguments Bool {Double} b.

(** What the code asks of a deserializer: the concept
    [ZerializeDeserializer] ([D(data)], [d["field"]], [d.isMap()]) and the
    conversions that [field<T>::operator()] calls. *)
Class Deserializer (Double D : Type) : Type := {
  parse : list Init.Byte.byte -> D;
  at_key : D -> string -> D;
  isMap : D -> bool;
  asInt64 : D -> Z;
  asInt32 : D -> Z;
  asUInt64 : D -> Z;
  asUInt32 : D -> Z;
  asString : D -> string;
  asDouble : D -> Double;
  asBool : D -> bool
}.

(** [struct ZerializeEntry<Keys>]: the tuple of extracted keys, in the
    order of the tuple, and the raw bytes. *)
Record ZerializeEntry (Double : Type) : Type := Entry {
  keys : list (key_value Double);
  data : list Init.Byte.byte
}.

(** The type of a [field<T>]. *)
Inductive field_type : Type :=
| TInt64 | TInt32 | TUInt64 | TUInt32 | TString | TDouble | TBool.

(** [struct field<T> { std::string name; }] *)
Record field : Type := Field {
  type_of : field_type;
  name : string
}.

(** The type of a [nested_field<T>]: the three its [operator()] accepts. *)
Inductive nested_type : Type :=
| NInt64 | NString | NDouble.

(** [struct nested_field<T> { std::vector<std::string> path; }] *)
Record nested_field : Type := NestedField {
  nested_type_of : nested_type;
  path : list string
}.

(** The [field<T>] with the type and the name of a [nested_field<T>] of
    one name. *)
Definition field_of (t : nested_type) (field_name : string) : field :=
  {| type_of := match t with
                | NInt64 => TInt64
                | NString => TString
                | NDouble => TDouble
                end;
     name := field_name |}.

Section Operations.

Variables Double D : Type.
Context {reader_api : Deserializer Double D}.

Abbreviation key_value := (key_value Double).
Abbreviation ZerializeEntry := (ZerializeEntry Double).

(** [static constexpr std::size_t key_count] *)
Definition key_count (e : ZerializeEntry) : nat := length (keys e).

(** [Deserializer deserialize() const] *)
Definition deserialize (e : ZerializeEntry) : D := parse (data e).

(** [std::span<const uint8_t> raw_data() const] *)
Definition raw_data (e : ZerializeEntry) : list Init.Byte.byte := data e.

(** [struct key<N, Entry>]: [std::get<N>(entry.keys)].  An [N] beyond the
    tuple does not compile; here it yields [None]. *)
Definition key (N : nat) (e : ZerializeEntry) : option key_value :=
  nth_error (keys e) N.

(** [T field<T>::operator()(const Deserializer& reader) const] *)
Definition extract (f : field) (reader : D) : key_value :=
  match type_of f with
  | TInt64 => Int64 (asInt64 (at_key reader (name f)))
  | TInt32 => Int32 (asInt32 (at_key reader (name f)))
  | TUInt64 => UInt64 (asUInt64 (at_key reader (name f)))
  | TUInt32 => UInt32 (asUInt32 (at_key reader (name f)))
  | TString => Str (asString (at_key reader (name f)))
  | TDouble => Dbl (asDouble (at_key reader (name f)))
  | TBool => Bool (asBool (at_key reader (name f)))
  end.

(** [make_field<T>], [int64_field], [string_field] *)
Definition make_field (t : field_type) (field_name : string) : field :=
  {| type_of := t; name := field_name |}.
Definition int64_field (field_name : string) : field :=
  make_field TInt64 field_name.
Definition string_field (field_name : string) : field :=
  make_field TString field_name.

(** [T nested_field<T>::operator()(const Deserializer& reader) const]:
    the loop [current = current[name]] over the path, then the
    conversion. *)
Definition extract_nested (f : nested_field) (reader : D) : key_value :=
  let current := fold_left at_key (path f) reader in
  match nested_type_of f with
  | NInt64 => Int64 (asInt64 current)
  | NString => Str (asString current)
  | NDouble => Dbl (asDouble current)
  end.

(** [class EntryBuilder<Entry, Extractors...>]: the tuple of extractors,
    each a function of the reader. *)
Record EntryBuilder : Type := MkBuilder {
  extractors_ : list (D -> key_value)
}.

(** [make_entry_builder<Entry>(extractors...)] *)
Definition make_entry_builder (extractors : list (D -> key_value))
  : EntryBuilder :=
  {| extractors_ := extractors |}.

(** [Entry build_impl(reader, data, index_sequence)]: every extractor is
    applied to the reader, in the order of the tuple. *)
Definition build_impl (b : EntryBuilder) (reader : D)
  (bytes : list Init.Byte.byte) : ZerializeEntry :=
  {| keys := map (fun extractor => extractor reader) (extractors_ b);
     data := bytes |}.

(** [Entry build<Deserializer>(std::span<const uint8_t> data) const] *)
Definition build (b : EntryBuilder) (bytes : list Init.Byte.byte)
  : ZerializeEntry :=
  let reader := parse bytes in
  build_impl b reader bytes.

(** [Entry build(const Deserializer& reader, std::span<const uint8_t> data)
    const] *)
Definition build_from (b : EntryBuilder) (reader : D)
  (bytes : list Init.Byte.byte) : ZerializeEntry :=
  build_impl b reader bytes.

(** An index of a cache of entries keyed by [key<N, Entry>]. *)
Definition key_index (is_unique : bool) (N : nat)
  : index_spec ZerializeEntry (option key_value) :=
  {| unique := is_unique; key_of := key N |}.

End Operations.

Arguments key_index {Double} is_unique N.

End Zerialize.

(** ** The caches of the test suites *)

Module Fixtures.
Import MultiIndex.

(** [struct User { int id; std::string email; std::string name; }] of
    container_test.cpp and expirable_test.cpp. *)
Record User : Type := MkUser {
  uid : Z;
  email : string;
  name : string
}.

(** Keys of the declared indices: [int] or [std::string]. *)
Inductive key : Type :=
| KInt (z : Z)
| KStr (s : string).

Definition key_eq_dec (a b : key) : {a = b} + {a <> b}.
Proof.
  decide equality; [apply Z.eq_dec | apply string_dec].
Defined.

Definition IdTag : index_spec User key :=
  {| unique := true; key_of := fun u => KInt (uid u) |}.
Definition EmailTag : index_spec User key :=
  {| unique := true; key_of := fun u => KStr (email u) |}.
Definition NameTag : index_spec User key :=
  {| unique := false; key_of := fun u => KStr (name u) |}.

(** [UserCache] of container_test.cpp. *)
Definition UserCache : list (index_spec User key) :=
  [IdTag; EmailTag; NameTag].

(** [MultiNameCache] of expirable_test.cpp. *)
Definition MultiNameCache : list (index_spec User key) :=
  [IdTag; NameTag].

(** [EasierUserCache] of expirable_test.cpp. *)
Definition EasierUserCache : list (index_spec User key) := [IdTag].

Definition alice : User := MkUser 1 "alice@test.com" "Alice".
Definition bob : User := MkUser 2 "bob@test.com" "Bob".
Definition charlie : User := MkUser 3 "charlie@test.com" "Charlie".
Definition david : User := MkUser 4 "david@test.com" "David".
Definition eve : User := MkUser 5 "eve@test.com" "Eve".
Definition john1 : User := MkUser 1 "john1@test.com" "John".
Definition john2 : User := MkUser 2 "john2@test.com" "John".

(** Milliseconds on the clock. *)
Definition ms (n : Z) : Z := (n * Ttl.ticks_per_ms)%Z.

(** A second payload with the [id] of [alice]. *)
Definition alicia : User := MkUser 1 "alicia@test.com" "Alicia".

(** [UserCache cache(3)] after the first [emplace]. *)
Definition one_user : Lru.Container User :=
  snd (Lru.emplace key_eq_dec UserCache alice (Lru.new User 3)).

(** [LRUEviction] of container_test.cpp: three users at capacity 3 ... *)
Definition three_users : Lru.Container User :=
  Lru.run key_eq_dec UserCache
    [Lru.Emplace alice; Lru.Emplace bob; Lru.Emplace charlie]
    (Lru.new User 3).

(** ... [find<IdTag>(1)] then [find<IdTag>(3)] ... *)
Definition after_accesses : Lru.Container User :=
  snd (Lru.find key_eq_dec IdTag (KInt 3)
         (snd (Lru.find key_eq_dec IdTag (KInt 1) three_users))).

(** ... and a fourth user. *)
Definition after_david : Lru.Container User :=
  snd (Lru.emplace key_eq_dec UserCache david after_accesses).

(** [SetCapacity] of container_test.cpp: five users at capacity 5 ... *)
Definition five_users : Lru.Container User :=
  Lru.run key_eq_dec UserCache
    [Lru.Emplace alice; Lru.Emplace bob; Lru.Emplace charlie;
     Lru.Emplace david; Lru.Emplace eve]
    (Lru.new User 5).

(** ... then [set_capacity(2)]. *)
Definition shrunk : Lru.Container User := Lru.set_capacity 2 five_users.

(** The wrapper as its constructor leaves it. *)
Definition fresh_cache (max_size : nat) (ttl : Z) : Ttl.ExpirableContainer User :=
  {| Ttl.container_ := Lru.new _ max_size; Ttl.ttl_ := ttl |}.

(** [FindNoUpdateDoesNotRefresh] of expirable_test.cpp:
    [EasierUserCache cache(100, 80ms)] with one user inserted at time 0. *)
Definition alice_cached : Ttl.ExpirableContainer User :=
  snd (Ttl.insert key_eq_dec EasierUserCache alice (ms 0) (fresh_cache 100 80)).

(** [EqualRangeRemovesExpired] of expirable_test.cpp:
    [MultiNameCache cache(10, 50ms)] with two users of one name. *)
Definition two_johns : Ttl.ExpirableContainer User :=
  snd (Ttl.insert key_eq_dec MultiNameCache john2 (ms 0)
         (snd (Ttl.insert key_eq_dec MultiNameCache john1 (ms 0)
                 (fresh_cache 10 50)))).

(** [std::chrono::milliseconds::max()] *)
Definition milliseconds_max : Z := Ttl.int64_max.

(** [EasierUserCache cache(100, std::chrono::milliseconds::max())] with
    one user inserted at time 0. *)
Definition alice_forever : Ttl.ExpirableContainer User :=
  snd (Ttl.insert key_eq_dec EasierUserCache alice (ms 0)
         (fresh_cache 100 milliseconds_max)).

(** [MultiNameCache cache(10, std::chrono::milliseconds::max())] with two
    users of one name inserted at time 0. *)
Definition two_johns_forever : Ttl.ExpirableContainer User :=
  snd (Ttl.insert key_eq_dec MultiNameCache john2 (ms 0)
         (snd (Ttl.insert key_eq_dec MultiNameCache john1 (ms 0)
                 (fresh_cache 10 milliseconds_max)))).

(** [UserCache cache(3)] after two insertions, and a payload with the
    [id] of the first user and the [email] of the second. *)
Definition two_users : Lru.Container User :=
  Lru.run key_eq_dec UserCache [Lru.Emplace alice; Lru.Emplace bob]
    (Lru.new User 3).
Definition alice_or_bob : User := MkUser 1 "bob@test.com" "Bobby".

(** A deserializer for the examples, in the manner of the tests'
    [MockDeserializer]: it keeps the bytes and the key asked for last; the
    field "id" is the number of bytes, the field "name" is "Alice". *)
Definition mock_reader : Type := (list Init.Byte.byte * string)%type.

#[global] Instance MockDeserializer : Zerialize.Deserializer Z mock_reader := {|
  Zerialize.parse := fun bytes => (bytes, EmptyString);
  Zerialize.at_key := fun r field_name => (fst r, field_name);
  Zerialize.isMap := fun r => if string_dec (snd r) "" then true else false;
  Zerialize.asInt64 :=
    fun r => if string_dec (snd r) "id" then Z.of_nat (length (fst r)) else 0%Z;
  Zerialize.asInt32 := fun r => 0%Z;
  Zerialize.asUInt64 := fun r => 0%Z;
  Zerialize.asUInt32 := fun r => 0%Z;
  Zerialize.asString :=
    fun r => if string_dec (snd r) "name" then "Alice"%string
             else EmptyString;
  Zerialize.asDouble := fun r => 0%Z;
  Zerialize.asBool := fun r => false
|}.

(** [make_entry_builder<Entry>(int64_field("id"), string_field("name"))] *)
Definition id_name_builder : Zerialize.EntryBuilder Z mock_reader :=
  Zerialize.make_entry_builder
    [Zerialize.extract (Zerialize.int64_field "id");
     Zerialize.extract (Zerialize.string_field "name")].

Definition three_bytes : list Init.Byte.byte :=
  [Init.Byte.x01; Init.Byte.x02; Init.Byte.x03].

Definition entry_key_eq_dec (a b : option (Zerialize.key_value Z))
  : {a = b} + {a <> b}.
Proof.
  decide equality. decide equality;
    try apply Z.eq_dec; try apply string_dec; try apply Bool.bool_dec.
Defined.

(** A cache of entries with one index, unique, on [key<0, Entry>]. *)
Definition EntryCache
  : list (index_spec (Zerialize.ZerializeEntry Z)
            (option (Zerialize.key_value Z))) :=
  [Zerialize.key_index true 0].

End Fixtures.

(* ================================================================== *)
(** * Part II. Properties                                               *)
(* ================================================================== *)

Unset Implicit Arguments.

(** ** Nodes, iterators and the order of an index *)

Module MultiIndexFacts.
Import MultiIndex.

Section Facts.

Variables Value Key : Type.
Variable key_eq_dec : forall a b : Key, {a = b} + {a <> b}.

Abbreviation node := (node Value).
Abbreviation ids := (map (@id Value)).

Implicit Types (s l : list node) (n : node) (it : nat).
Implicit Types (m : multi_index_container Value).

Lemma deref_Some it s n : deref it s = Some n -> In n s /\ id n = it.
Proof.
  induction s as [|a r IH]; simpl; [discriminate|].
  destruct (Nat.eqb_spec (id a) it) as [E|E].
  - intros [= <-]. auto.
  - intros H. destruct (IH H). auto.
Qed.

Lemma deref_None it s : deref it s = None -> forall n, In n s -> id n <> it.
Proof.
  induction s as [|a r IH]; simpl; [easy|].
  destruct (Nat.eqb_spec (id a) it) as [E|E]; [discriminate|].
  intros H n [<-|Hin]; auto.
Qed.

Lemma deref_In s n : NoDup (ids s) -> In n s -> deref (id n) s = Some n.
Proof.
  induction s as [|a r IH]; simpl; intros Hnd Hin; [easy|].
  inversion Hnd as [|x xs Hnotin Hnd']; subst.
  destruct Hin as [->|Hin].
  - now rewrite Nat.eqb_refl.
  - destruct (Nat.eqb_spec (id a) (id n)) as [E|E]; [|auto].
    exfalso. apply Hnotin. rewrite E. now apply in_map.
Qed.

Lemma same_id_same_node s a b :
  NoDup (ids s) -> In a s -> In b s -> id a = id b -> a = b.
Proof.
  intros Hnd Ha Hb E.
  pose proof (deref_In _ _ Hnd Ha) as H1.
  pose proof (deref_In _ _ Hnd Hb) as H2.
  rewrite E in H1. congruence.
Qed.

Lemma unlink_absent it s : (forall n, In n s -> id n <> it) -> unlink it s = s.
Proof.
  induction s as [|a r IH]; simpl; intros H; [reflexivity|].
  destruct (Nat.eqb_spec (id a) it) as [E|E].
  - exfalso. apply (H a); auto.
  - f_equal. apply IH. intros n Hn. apply H. now right.
Qed.

Lemma unlink_length it s n :
  deref it s = Some n -> S (length (unlink it s)) = length s.
Proof.
  induction s as [|a r IH]; simpl; [discriminate|].
  destruct (Nat.eqb_spec (id a) it) as [E|E]; [reflexivity|].
  intros H. simpl. f_equal. now apply IH.
Qed.

Lemma unlink_filter it s :
  NoDup (ids s) -> unlink it s = filter (fun n => negb (id n =? it)) s.
Proof.
  induction s as [|a r IH]; simpl; intros Hnd; [reflexivity|].
  inversion Hnd as [|x xs Hnotin Hnd']; subst.
  destruct (Nat.eqb_spec (id a) it) as [E|E]; simpl.
  - rewrite <- IH by assumption. symmetry. apply unlink_absent.
    intros n Hn Hid. apply Hnotin. rewrite E, <- Hid. now apply in_map.
  - f_equal. now apply IH.
Qed.

Lemma In_unlink it s n :
  NoDup (ids s) -> (In n (unlink it s) <-> In n s /\ id n <> it).
Proof.
  intros Hnd. rewrite unlink_filter by assumption. rewrite filter_In.
  rewrite negb_true_iff, Nat.eqb_neq. tauto.
Qed.

Lemma modify_ids it f s : ids (modify it f s) = ids s.
Proof.
  induction s as [|a r IH]; simpl; [reflexivity|].
  destruct (id a =? it); simpl; congruence.
Qed.

Lemma modify_length it f s : length (modify it f s) = length s.
Proof.
  rewrite <- (length_map (@id Value)), modify_ids. apply length_map.
Qed.

Lemma deref_modify it f s :
  deref it (modify it f s) =
  option_map (fun n => {| id := id n; element := f (element n) |}) (deref it s).
Proof.
  induction s as [|a r IH]; simpl; [reflexivity|].
  destruct (Nat.eqb_spec (id a) it) as [E|E]; simpl.
  - apply Nat.eqb_eq in E. now rewrite E.
  - apply Nat.eqb_neq in E. now rewrite E.
Qed.

Lemma unlink_modify it f s : unlink it (modify it f s) = unlink it s.
Proof.
  induction s as [|a r IH]; simpl; [reflexivity|].
  destruct (Nat.eqb_spec (id a) it) as [E|E]; simpl.
  - apply Nat.eqb_eq in E. now rewrite E.
  - apply Nat.eqb_neq in E. rewrite E. now f_equal.
Qed.

Lemma unlink_length_le it s : length (unlink it s) <= length s.
Proof.
  induction s as [|a r IH]; simpl; [lia|].
  destruct (id a =? it); simpl; lia.
Qed.

(** Moving a node to the front after writing through its iterator. *)
Lemma relocate_assign it f (m : multi_index_container Value) n :
  deref it (nodes m) = Some n ->
  nodes (relocate_front it (assign it f m)) =
  {| id := id n; element := f (element n) |} :: unlink it (nodes m).
Proof.
  intros H. unfold relocate_front, assign. simpl.
  rewrite deref_modify, H. simpl. now rewrite unlink_modify.
Qed.

Lemma relocate_nodes it (m : multi_index_container Value) n :
  deref it (nodes m) = Some n ->
  nodes (relocate_front it m) = n :: unlink it (nodes m).
Proof. intros H. unfold relocate_front. now rewrite H. Qed.

Lemma relocate_size it (m : multi_index_container Value) :
  size (relocate_front it m) = size m.
Proof.
  unfold relocate_front, size.
  destruct (deref it (nodes m)) eqn:E; [|reflexivity].
  simpl. now apply unlink_length with (n := n).
Qed.

Lemma relocate_next_id it (m : multi_index_container Value) :
  next_id (relocate_front it m) = next_id m.
Proof.
  unfold relocate_front. now destruct (deref it (nodes m)).
Qed.

Lemma relocate_assign_eq it f (m : multi_index_container Value) n :
  deref it (nodes m) = Some n ->
  relocate_front it (assign it f m) =
  {| nodes := {| id := id n; element := f (element n) |} :: unlink it (nodes m);
     next_id := next_id m |}.
Proof.
  intros H. unfold relocate_front, assign. simpl.
  rewrite deref_modify, H. simpl. now rewrite unlink_modify.
Qed.

Lemma snoc_cases (A : Type) (xs : list A) :
  xs = [] \/ exists ys y, xs = ys ++ [y].
Proof.
  destruct xs as [|a r] using rev_ind; [now left|].
  right. now exists r, a.
Qed.

Lemma rbegin_snoc s n next :
  rbegin {| nodes := s ++ [n]; next_id := next |} = Some n.
Proof.
  unfold rbegin. cbn [nodes].
  destruct s as [|a r]; [reflexivity|].
  simpl. f_equal. apply last_last.
Qed.

Lemma rbegin_In (m : multi_index_container Value) n :
  rbegin m = Some n -> In n (nodes m).
Proof.
  destruct m as [s next]. cbn [nodes].
  destruct (snoc_cases _ s) as [->|[xs [x ->]]]; [discriminate|].
  rewrite rbegin_snoc. intros [= <-]. apply in_or_app. right. now left.
Qed.

Lemma empty_snoc s n next :
  empty {| nodes := s ++ [n]; next_id := next |} = false.
Proof. unfold empty. cbn [nodes]. now destruct s. Qed.

Lemma In_firstn (A : Type) (i : nat) (xs : list A) (x : A) :
  In x (firstn i xs) -> In x xs.
Proof.
  intros H. rewrite <- (firstn_skipn i xs). apply in_or_app. now left.
Qed.

(** *** Lists of nodes that keep distinct handles *)

Lemma NoDup_ids_filter (p : node -> bool) s :
  NoDup (ids s) -> NoDup (ids (filter p s)).
Proof.
  induction s as [|a r IH]; simpl; intros Hnd; [constructor|].
  inversion Hnd as [|x xs Hnotin Hnd']; subst.
  destruct (p a); simpl; [|auto].
  constructor; [|auto].
  intros Hin. apply Hnotin. apply in_map_iff in Hin.
  destruct Hin as [b [Hb Hin]]. apply filter_In in Hin.
  rewrite <- Hb. apply in_map. tauto.
Qed.

Lemma In_removelast (A : Type) (x : A) (l : list A) :
  In x (removelast l) -> In x l.
Proof.
  induction l as [|a r IH]; simpl; [easy|].
  destruct r as [|b r']; [easy|].
  intros [<-|H]; [now left|right; now apply IH].
Qed.

Lemma NoDup_removelast (A : Type) (l : list A) :
  NoDup l -> NoDup (removelast l).
Proof.
  induction l as [|a r IH]; simpl; intros Hnd; [constructor|].
  inversion Hnd as [|x xs Hnotin Hnd']; subst.
  destruct r as [|b r']; [constructor|].
  constructor; [|auto].
  intros Hin. apply Hnotin. now apply In_removelast.
Qed.

Lemma removelast_map (A B : Type) (f : A -> B) (l : list A) :
  removelast (map f l) = map f (removelast l).
Proof.
  induction l as [|a r IH]; simpl; [reflexivity|].
  destruct r as [|b r']; [reflexivity|].
  simpl in *. now rewrite IH.
Qed.

(** *** The order of an index among equal keys *)

Lemma insert_by_id_perm n l : Permutation (insert_by_id n l) (n :: l).
Proof.
  induction l as [|a r IH]; simpl; [reflexivity|].
  destruct (id n <=? id a); [reflexivity|].
  rewrite IH. apply perm_swap.
Qed.

Lemma by_arrival_perm l : Permutation (by_arrival l) l.
Proof.
  induction l as [|a r IH]; simpl; [reflexivity|].
  rewrite insert_by_id_perm. now constructor.
Qed.

Lemma insert_by_id_sorted n l :
  arrival_order l -> arrival_order (insert_by_id n l).
Proof.
  unfold arrival_order.
  induction l as [|a r IH]; simpl; intros Hs.
  - repeat constructor.
  - inversion Hs as [|x xs Hr Ha]; subst.
    destruct (Nat.leb_spec (id n) (id a)) as [L|L].
    + constructor; [assumption|]. constructor; [assumption|].
      rewrite Forall_forall in *. intros x Hx. specialize (Ha x Hx). lia.
    + constructor; [now apply IH|].
      rewrite Forall_forall in *. intros x Hx.
      apply (Permutation_in _ (insert_by_id_perm n r)) in Hx.
      destruct Hx as [<-|Hx]; [lia|auto].
Qed.

Lemma by_arrival_sorted l : arrival_order (by_arrival l).
Proof.
  induction l as [|a r IH]; simpl; [constructor|].
  now apply insert_by_id_sorted.
Qed.

(** An index has one order: two arrangements of the same nodes in order
    of arrival are the same list. *)
Lemma arrival_order_unique l1 l2 :
  NoDup (ids l1) -> Permutation l1 l2 ->
  arrival_order l1 -> arrival_order l2 -> l1 = l2.
Proof.
  unfold arrival_order. revert l2.
  induction l1 as [|a r1 IH]; intros l2 Hnd Hp H1 H2.
  - apply Permutation_nil in Hp. now subst.
  - destruct l2 as [|b r2].
    + symmetry in Hp. apply Permutation_nil in Hp. discriminate.
    + assert (a = b) as ->.
      { inversion H1 as [|x xs _ Ha]; subst.
        inversion H2 as [|y ys _ Hb]; subst.
        rewrite Forall_forall in Ha, Hb.
        assert (In a (b :: r2)) as Hab
          by (apply (Permutation_in _ Hp); now left).
        assert (In b (a :: r1)) as Hba
          by (apply (Permutation_in _ (Permutation_sym Hp)); now left).
        destruct Hab as [E|Hab]; [now subst|].
        destruct Hba as [E|Hba]; [now subst|].
        apply (same_id_same_node (a :: r1)); auto.
        - now left.
        - now right.
        - specialize (Ha b Hba). specialize (Hb a Hab). lia. }
      f_equal. apply IH.
      * simpl in Hnd. now inversion Hnd.
      * now apply Permutation_cons_inv in Hp.
      * now inversion H1.
      * now inversion H2.
Qed.

Lemma by_arrival_of_perm l1 l2 :
  NoDup (ids l1) -> Permutation l1 l2 -> arrival_order l1 ->
  by_arrival l2 = l1.
Proof.
  intros Hnd Hp Hs. symmetry. apply arrival_order_unique; auto.
  - rewrite Hp. symmetry. apply by_arrival_perm.
  - apply by_arrival_sorted.
Qed.

(** *** Lookups *)

Lemma key_matches_true (ix : index_spec Value Key) k n :
  key_matches key_eq_dec ix k n = true <-> key_of ix (element n) = k.
Proof.
  unfold key_matches. destruct (key_eq_dec (key_of ix (element n)) k).
  - tauto.
  - split; [discriminate|contradiction].
Qed.

Lemma key_matches_false (ix : index_spec Value Key) k n :
  key_matches key_eq_dec ix k n = false <-> key_of ix (element n) <> k.
Proof.
  rewrite <- key_matches_true. destruct (key_matches key_eq_dec ix k n).
  - split; [discriminate|congruence].
  - split; [discriminate|reflexivity].
Qed.

Lemma In_equal_range (ix : index_spec Value Key) k m n :
  In n (index_equal_range key_eq_dec ix k m) <->
  In n (nodes m) /\ key_of ix (element n) = k.
Proof.
  unfold index_equal_range. rewrite <- key_matches_true, <- filter_In.
  split; apply Permutation_in.
  - apply by_arrival_perm.
  - symmetry. apply by_arrival_perm.
Qed.

Lemma equal_range_NoDup (ix : index_spec Value Key) k m :
  NoDup (ids (nodes m)) ->
  NoDup (ids (index_equal_range key_eq_dec ix k m)).
Proof.
  intros Hnd. unfold index_equal_range.
  eapply Permutation_NoDup.
  - apply Permutation_map. symmetry. apply by_arrival_perm.
  - now apply NoDup_ids_filter.
Qed.

Lemma index_find_Some (ix : index_spec Value Key) k m n :
  index_find key_eq_dec ix k m = Some n ->
  In n (nodes m) /\ key_of ix (element n) = k.
Proof.
  unfold index_find. intros H. apply In_equal_range.
  destruct (index_equal_range key_eq_dec ix k m); [discriminate|].
  injection H as ->. now left.
Qed.

Lemma index_find_None (ix : index_spec Value Key) k m :
  index_find key_eq_dec ix k m = None <->
  (forall n, In n (nodes m) -> key_of ix (element n) <> k).
Proof.
  unfold index_find. split.
  - intros H n Hin Hk.
    assert (In n (index_equal_range key_eq_dec ix k m)) as Hr
      by (apply In_equal_range; auto).
    destruct (index_equal_range key_eq_dec ix k m); [easy|discriminate].
  - intros H.
    destruct (index_equal_range key_eq_dec ix k m) as [|a r] eqn:E;
      [reflexivity|].
    assert (In a (index_equal_range key_eq_dec ix k m)) as Hr
      by (rewrite E; now left).
    apply In_equal_range in Hr. destruct Hr as [Hin Hk].
    now destruct (H a Hin).
Qed.

Lemma filter_all (A : Type) (p : A -> bool) (l : list A) :
  (forall x, In x l -> p x = true) -> filter p l = l.
Proof.
  intros H. rewrite <- (filter_true l) at 2. now apply filter_ext_in.
Qed.

Lemma filter_none (A : Type) (p : A -> bool) (l : list A) :
  (forall x, In x l -> p x = false) -> filter p l = [].
Proof.
  intros H. rewrite <- (filter_false l). now apply filter_ext_in.
Qed.

Lemma arrival_order_filter (p : node -> bool) l :
  arrival_order l -> arrival_order (filter p l).
Proof.
  unfold arrival_order.
  induction 1 as [|a r Hs IH Ha]; simpl; [constructor|].
  destruct (p a); [|assumption].
  constructor; [assumption|].
  rewrite Forall_forall in *. intros x Hx. apply filter_In in Hx.
  apply Ha. tauto.
Qed.

Lemma equal_range_sorted (ix : index_spec Value Key) k m :
  arrival_order (index_equal_range key_eq_dec ix k m).
Proof. apply by_arrival_sorted. Qed.

Lemma outside_equal_range (ix : index_spec Value Key) k m x :
  wf m -> In x (nodes m) ->
  outside (index_equal_range key_eq_dec ix k m) x =
  negb (key_matches key_eq_dec ix k x).
Proof.
  intros Hwf Hx.
  destruct (key_matches key_eq_dec ix k x) eqn:E; simpl.
  - unfold outside. apply negb_false_iff. apply existsb_exists.
    exists x. split; [|apply Nat.eqb_refl].
    apply In_equal_range. split; [assumption|].
    now apply key_matches_true in E.
  - unfold outside. apply negb_true_iff.
    destruct (existsb (fun r => id x =? id r)
                (index_equal_range key_eq_dec ix k m)) eqn:F; [|reflexivity].
    apply existsb_exists in F. destruct F as [r [Hr Hid]].
    apply Nat.eqb_eq in Hid. apply In_equal_range in Hr.
    destruct Hr as [Hr Hk].
    assert (x = r) as -> by (apply (same_id_same_node (nodes m)); auto; apply Hwf).
    apply key_matches_true in Hk. congruence.
Qed.

(** *** Well-formed containers *)

Lemma wf_empty : wf (empty_container Value).
Proof. split; simpl; constructor. Qed.

Lemma wf_clear m : wf m -> wf (clear m).
Proof. intros _. split; simpl; constructor. Qed.

Lemma wf_deref m n : wf m -> In n (nodes m) -> deref (id n) (nodes m) = Some n.
Proof. intros [Hnd _] Hin. now apply deref_In. Qed.

Lemma wf_filter (p : node -> bool) m :
  wf m -> wf {| nodes := filter p (nodes m); next_id := next_id m |}.
Proof.
  intros [Hnd Hlt]. split; simpl.
  - now apply NoDup_ids_filter.
  - rewrite Forall_forall in *. intros x Hx. apply filter_In in Hx.
    apply Hlt. tauto.
Qed.

Lemma wf_index_erase it m : wf m -> wf (index_erase it m).
Proof.
  intros Hwf. unfold index_erase.
  rewrite unlink_filter by apply Hwf. now apply wf_filter.
Qed.

Lemma wf_pop_back m : wf m -> wf (pop_back m).
Proof.
  intros [Hnd Hlt]. split; simpl.
  - rewrite <- removelast_map. now apply NoDup_removelast.
  - rewrite Forall_forall in *. intros x Hx. apply Hlt.
    now apply In_removelast.
Qed.

Lemma wf_assign it f m : wf m -> wf (assign it f m).
Proof.
  intros [Hnd Hlt]. split; simpl.
  - now rewrite modify_ids.
  - rewrite Forall_forall in *. intros x Hx.
    assert (In (id x) (ids (modify it f (nodes m)))) as Hid
      by now apply in_map.
    rewrite modify_ids in Hid. apply in_map_iff in Hid.
    destruct Hid as [y [Hy Hin]]. rewrite <- Hy. now apply Hlt.
Qed.

Lemma wf_relocate_front it m : wf m -> wf (relocate_front it m).
Proof.
  intros Hwf. unfold relocate_front.
  destruct (deref it (nodes m)) as [n|] eqn:E; [|assumption].
  destruct (deref_Some _ _ _ E) as [Hin Hid].
  destruct Hwf as [Hnd Hlt]. split; simpl.
  - constructor.
    + intros H. apply in_map_iff in H. destruct H as [x [Hx Hxin]].
      apply In_unlink in Hxin; [|assumption]. lia.
    + rewrite unlink_filter by assumption. now apply NoDup_ids_filter.
  - rewrite Forall_forall in *. intros x [<-|Hx]; [auto|].
    apply In_unlink in Hx; [|assumption]. apply Hlt. tauto.
Qed.

Lemma first_ban_Some (ixs : list (index_spec Value Key)) v s n :
  first_ban key_eq_dec ixs v s = Some n ->
  exists ix, In ix ixs /\ unique ix = true /\ In n s /\
             key_of ix (element n) = key_of ix v.
Proof.
  induction ixs as [|ix r IH]; simpl; [discriminate|].
  unfold banned_by at 1.
  destruct (unique ix) eqn:U.
  - destruct (find (key_matches key_eq_dec ix (key_of ix v)) s) as [b|] eqn:F.
    + intros [= <-]. apply find_some in F. destruct F as [Hin Hk].
      apply key_matches_true in Hk. exists ix. auto.
    + intros H. destruct (IH H) as [ix' [H1 H2]]. exists ix'. auto.
  - intros H. destruct (IH H) as [ix' [H1 H2]]. exists ix'. auto.
Qed.

Lemma first_ban_None (ixs : list (index_spec Value Key)) v s :
  first_ban key_eq_dec ixs v s = None ->
  forall ix n, In ix ixs -> unique ix = true -> In n s ->
               key_of ix (element n) <> key_of ix v.
Proof.
  induction ixs as [|ix r IH]; simpl; [easy|].
  unfold banned_by at 1.
  destruct (unique ix) eqn:U.
  - destruct (find (key_matches key_eq_dec ix (key_of ix v)) s) as [b|] eqn:F;
      [discriminate|].
    intros H ix' n [<-|Hin] Hu Hn.
    + apply key_matches_false. now apply (find_none _ _ F).
    + now apply IH.
  - intros H ix' n [<-|Hin] Hu Hn; [congruence|now apply IH].
Qed.

Lemma find_first (p : node -> bool) s n :
  find p s = Some n ->
  exists front back,
    s = front ++ n :: back /\ forall x, In x front -> p x = false.
Proof.
  induction s as [|a r IH]; [discriminate|].
  cbn [find]. destruct (p a) eqn:E.
  - intros [= <-]. exists [], r. split; [reflexivity|]. intros x [].
  - intros H. destruct (IH H) as [front [back [-> Hf]]].
    exists (a :: front), back. split; [reflexivity|].
    intros x [<-|Hx]; [exact E|now apply Hf].
Qed.

Lemma first_ban_first (ixs : list (index_spec Value Key)) v s n :
  first_ban key_eq_dec ixs v s = Some n ->
  exists pre ix post,
    ixs = pre ++ ix :: post /\ unique ix = true /\
    banned_by key_eq_dec ix v s = Some n /\
    (forall ix', In ix' pre -> banned_by key_eq_dec ix' v s = None).
Proof.
  induction ixs as [|ix r IH]; cbn [first_ban]; [discriminate|].
  destruct (banned_by key_eq_dec ix v s) as [b|] eqn:B.
  - intros [= <-]. exists [], ix, r. split; [reflexivity|].
    split; [|split; [exact B|intros ix' []]].
    unfold banned_by in B. destruct (unique ix); [reflexivity|discriminate].
  - intros H. destruct (IH H) as [pre [ix0 [post [-> [Hu [Hb Hpre]]]]]].
    exists (ix :: pre), ix0, post. split; [reflexivity|].
    split; [exact Hu|]. split; [exact Hb|].
    intros ix' [<-|Hin]; [exact B|now apply Hpre].
Qed.

Lemma banned_by_None ix v s :
  banned_by key_eq_dec ix v s = None -> unique ix = true ->
  forall n, In n s -> key_of ix (element n) <> key_of ix v.
Proof.
  unfold banned_by. intros H Hu. rewrite Hu in H.
  intros n Hn. apply key_matches_false. exact (find_none _ _ H n Hn).
Qed.

Lemma banned_by_Some ix v s n :
  banned_by key_eq_dec ix v s = Some n ->
  exists front back,
    s = front ++ n :: back /\
    key_of ix (element n) = key_of ix v /\
    forall x, In x front -> key_of ix (element x) <> key_of ix v.
Proof.
  unfold banned_by. destruct (unique ix); [|discriminate].
  intros H. pose proof (find_some _ _ H) as [_ Hk].
  apply key_matches_true in Hk.
  destruct (find_first _ _ _ H) as [front [back [-> Hf]]].
  exists front, back. split; [reflexivity|]. split; [exact Hk|].
  intros x Hx. apply key_matches_false. now apply Hf.
Qed.

Lemma wf_emplace_front (ixs : list (index_spec Value Key)) v m :
  wf m -> wf (snd (emplace_front key_eq_dec ixs v m)).
Proof.
  intros Hwf. unfold emplace_front.
  destruct (first_ban key_eq_dec ixs v (nodes m)); simpl; [assumption|].
  destruct Hwf as [Hnd Hlt]. split; simpl.
  - constructor; [|assumption].
    intros H. apply in_map_iff in H. destruct H as [x [Hx Hin]].
    rewrite Forall_forall in Hlt. specialize (Hlt x Hin). lia.
  - constructor; [simpl; lia|].
    rewrite Forall_forall in *. intros x Hx. specialize (Hlt x Hx). lia.
Qed.

End Facts.

End MultiIndexFacts.

(** ** The LRU container *)

Module LruFacts.
Import MultiIndex MultiIndexFacts.

Section Facts.

Variables Value Key : Type.
Variable key_eq_dec : forall a b : Key, {a = b} + {a <> b}.
Variable indices : list (index_spec Value Key).

Abbreviation Container := (Lru.Container Value).
Abbreviation emplace := (Lru.emplace key_eq_dec indices).
Abbreviation find := (Lru.find key_eq_dec).
Abbreviation erase := (Lru.erase key_eq_dec).
Abbreviation step := (Lru.step key_eq_dec indices).
Abbreviation run := (Lru.run key_eq_dec indices).

Implicit Types (c : Container) (v : Value) (k : Key).
Implicit Types (ix : index_spec Value Key) (n : node Value).

Lemma emplace_banned c v n :
  first_ban key_eq_dec indices v (Lru.items c) = Some n ->
  emplace v c =
  (false, Lru.with_container c (relocate_front (id n) (Lru.container_ c))).
Proof.
  intros H. unfold Lru.emplace, emplace_front, Lru.items in *.
  now rewrite H.
Qed.

Lemma emplace_fresh c v :
  first_ban key_eq_dec indices v (Lru.items c) = None ->
  fst (emplace v c) = true /\
  Lru.items (snd (emplace v c)) =
    (if Lru.max_size_ c <? S (Lru.size c)
     then removelast ({| id := next_id (Lru.container_ c); element := v |}
                        :: Lru.items c)
     else {| id := next_id (Lru.container_ c); element := v |} :: Lru.items c) /\
  Lru.max_size_ (snd (emplace v c)) = Lru.max_size_ c.
Proof.
  intros H. unfold Lru.emplace, emplace_front, Lru.items in *.
  rewrite H. cbn [negb]. unfold MultiIndex.size, Lru.size, MultiIndex.size.
  cbn [nodes length].
  destruct (Lru.max_size_ c <? S (length (nodes (Lru.container_ c))));
    now repeat split.
Qed.

Lemma emplace_fst c v :
  fst (emplace v c) = true <->
  first_ban key_eq_dec indices v (Lru.items c) = None.
Proof.
  destruct (first_ban key_eq_dec indices v (Lru.items c)) as [n|] eqn:E.
  - rewrite (emplace_banned _ _ _ E). simpl. split; discriminate.
  - split; [reflexivity|]. intros _. now apply emplace_fresh.
Qed.

Lemma fresh_not_banned c v :
  ~ Lru.collides indices v c ->
  first_ban key_eq_dec indices v (Lru.items c) = None.
Proof.
  intros Hfresh.
  destruct (first_ban key_eq_dec indices v (Lru.items c)) as [n|] eqn:E;
    [|reflexivity].
  exfalso. apply Hfresh.
  destruct (first_ban_Some _ _ _ _ _ _ _ E) as [ix H]. now exists ix, n.
Qed.

Lemma collides_banned c v :
  Lru.collides indices v c <->
  exists n, first_ban key_eq_dec indices v (Lru.items c) = Some n.
Proof.
  split.
  - intros [ix [n [Hix [Hu [Hin Hk]]]]].
    destruct (first_ban key_eq_dec indices v (Lru.items c)) as [b|] eqn:E;
      [now exists b|].
    exfalso. exact (first_ban_None _ _ _ _ _ _ E ix n Hix Hu Hin Hk).
  - intros [n H]. apply first_ban_Some in H.
    destruct H as [ix H]. exists ix, n. exact H.
Qed.

Lemma removelast_length (A : Type) (l : list A) :
  length (removelast l) = pred (length l).
Proof.
  rewrite removelast_firstn_len, length_firstn. lia.
Qed.

(** *** The loop of [set_capacity] *)

Lemma set_capacity_loop_spec fuel c :
  length (Lru.items c) <= fuel + Lru.max_size_ c ->
  Lru.items (Lru.set_capacity_loop fuel c) =
    firstn (Lru.max_size_ c) (Lru.items c) /\
  Lru.max_size_ (Lru.set_capacity_loop fuel c) = Lru.max_size_ c /\
  next_id (Lru.container_ (Lru.set_capacity_loop fuel c)) =
    next_id (Lru.container_ c).
Proof.
  revert c. induction fuel as [|fuel IH]; intros c Hlen; simpl.
  - repeat split. symmetry. apply firstn_all2. lia.
  - unfold MultiIndex.size. fold (Lru.items c).
    destruct (Nat.ltb_spec (Lru.max_size_ c) (length (Lru.items c))) as [L|L].
    + specialize (IH (Lru.with_container c (pop_back (Lru.container_ c)))).
      unfold Lru.items in *. simpl in IH.
      rewrite removelast_length in IH.
      destruct IH as [H1 [H2 H3]]; [lia|].
      rewrite H1, H2, H3. repeat split.
      rewrite removelast_firstn_len, firstn_firstn. f_equal. lia.
    + repeat split. symmetry. now apply firstn_all2.
Qed.

Lemma set_capacity_spec c new_capacity :
  Lru.items (Lru.set_capacity new_capacity c) =
    firstn new_capacity (Lru.items c) /\
  Lru.capacity (Lru.set_capacity new_capacity c) = new_capacity /\
  Lru.size (Lru.set_capacity new_capacity c) <= new_capacity.
Proof.
  unfold Lru.set_capacity, Lru.capacity. cbv zeta.
  set (c1 := {| Lru.container_ := Lru.container_ c;
                Lru.max_size_ := new_capacity |}).
  destruct (set_capacity_loop_spec (MultiIndex.size (Lru.container_ c1)) c1)
    as [H1 [H2 _]].
  - unfold MultiIndex.size, Lru.items. lia.
  - split; [exact H1|]. split; [exact H2|].
    unfold Lru.size, Lru.items, MultiIndex.size in *.
    rewrite H1, length_firstn. simpl. lia.
Qed.

(** *** Every operation keeps the bound and the handles distinct *)

Lemma find_items c ix k :
  Lru.wf c ->
  match index_find key_eq_dec ix k (Lru.container_ c) with
  | Some n =>
      fst (find ix k c) = Some (id n) /\
      Lru.items (snd (find ix k c)) = n :: unlink (id n) (Lru.items c) /\
      In n (Lru.items c) /\ key_of ix (element n) = k
  | None =>
      find ix k c = (None, c) /\
      forall n, In n (Lru.items c) -> key_of ix (element n) <> k
  end.
Proof.
  intros Hwf. unfold Lru.find.
  destruct (index_find key_eq_dec ix k (Lru.container_ c)) as [n|] eqn:E.
  - destruct (index_find_Some _ _ _ _ _ _ _ E) as [Hin Hk].
    simpl. repeat split; auto.
    unfold Lru.items. simpl. apply relocate_nodes.
    now apply wf_deref.
  - split; [reflexivity|]. exact (proj1 (index_find_None _ _ _ _ _ _) E).
Qed.

Lemma find_size c ix k : Lru.size (snd (find ix k c)) = Lru.size c.
Proof.
  unfold Lru.find.
  destruct (index_find key_eq_dec ix k (Lru.container_ c)); [|reflexivity].
  simpl. unfold Lru.size. simpl. apply relocate_size.
Qed.

Lemma find_capacity c ix k :
  Lru.max_size_ (snd (find ix k c)) = Lru.max_size_ c.
Proof.
  unfold Lru.find.
  now destruct (index_find key_eq_dec ix k (Lru.container_ c)).
Qed.

Lemma contains_snd c ix k :
  snd (Lru.contains key_eq_dec ix k c) = snd (find ix k c).
Proof.
  unfold Lru.contains. now destruct (find ix k c).
Qed.

Lemma emplace_size_le c v :
  Lru.size c <= Lru.max_size_ c ->
  Lru.size (snd (emplace v c)) <= Lru.max_size_ (snd (emplace v c)).
Proof.
  intros Hle.
  destruct (first_ban key_eq_dec indices v (Lru.items c)) as [n|] eqn:E.
  - rewrite (emplace_banned _ _ _ E). simpl.
    unfold Lru.size in *. simpl. now rewrite relocate_size.
  - destruct (emplace_fresh _ _ E) as [_ [H1 H2]].
    unfold Lru.size, MultiIndex.size in *. fold (Lru.items (snd (emplace v c))).
    fold (Lru.items c) in *.
    rewrite H1, H2.
    destruct (Nat.ltb_spec (Lru.max_size_ c) (S (length (Lru.items c)))).
    + rewrite removelast_length. simpl. lia.
    + simpl. lia.
Qed.

Lemma step_size_le (o : Lru.op Value Key) c :
  Lru.size c <= Lru.capacity c ->
  Lru.size (step o c) <= Lru.capacity (step o c).
Proof.
  unfold Lru.capacity. intros Hle.
  destruct o as [v|v|ix k|ix k|ix k|n|]; simpl.
  - now apply emplace_size_le.
  - now apply emplace_size_le.
  - now rewrite find_size, find_capacity.
  - now rewrite contains_snd, find_size, find_capacity.
  - unfold Lru.erase, Lru.size, MultiIndex.size in *. simpl.
    pose proof (filter_length_le
      (fun n => negb (key_matches key_eq_dec ix k n))
      (nodes (Lru.container_ c))). lia.
  - destruct (set_capacity_spec c n) as [_ [H2 H3]].
    unfold Lru.capacity in H2. now rewrite H2.
  - unfold Lru.size, MultiIndex.size. simpl. lia.
Qed.

Lemma run_size_le (ops : list (Lru.op Value Key)) c :
  Lru.size c <= Lru.capacity c ->
  Lru.size (run ops c) <= Lru.capacity (run ops c).
Proof.
  revert c. induction ops as [|o ops IH]; intros c Hle; simpl; [assumption|].
  apply IH. now apply step_size_le.
Qed.

Lemma wf_new max_size : Lru.wf (Lru.new Value max_size).
Proof. apply wf_empty. Qed.

Lemma wf_emplace c v : Lru.wf c -> Lru.wf (snd (emplace v c)).
Proof.
  unfold Lru.wf. intros Hwf.
  pose proof (wf_emplace_front _ _ key_eq_dec indices v _ Hwf) as H.
  unfold Lru.emplace.
  destruct (emplace_front key_eq_dec indices v (Lru.container_ c))
    as [[first second] m].
  simpl in H. destruct second; simpl.
  - destruct (Lru.max_size_ c <? MultiIndex.size m); simpl;
      [now apply wf_pop_back|assumption].
  - now apply wf_relocate_front.
Qed.

Lemma wf_find c ix k : Lru.wf c -> Lru.wf (snd (find ix k c)).
Proof.
  unfold Lru.wf, Lru.find. intros Hwf.
  destruct (index_find key_eq_dec ix k (Lru.container_ c)); [|assumption].
  simpl. now apply wf_relocate_front.
Qed.

Lemma wf_set_capacity_loop fuel c :
  Lru.wf c -> Lru.wf (Lru.set_capacity_loop fuel c).
Proof.
  revert c. induction fuel as [|fuel IH]; intros c Hwf; simpl; [assumption|].
  destruct (Lru.max_size_ c <? MultiIndex.size (Lru.container_ c));
    [|assumption].
  apply IH. unfold Lru.wf in *. simpl. now apply wf_pop_back.
Qed.

Lemma wf_step (o : Lru.op Value Key) c : Lru.wf c -> Lru.wf (step o c).
Proof.
  intros Hwf. destruct o as [v|v|ix k|ix k|ix k|n|]; simpl.
  - now apply wf_emplace.
  - now apply wf_emplace.
  - now apply wf_find.
  - rewrite contains_snd. now apply wf_find.
  - unfold Lru.wf in *. simpl. now apply wf_filter.
  - unfold Lru.set_capacity. now apply wf_set_capacity_loop.
  - unfold Lru.wf in *. simpl. now apply wf_clear.
Qed.

Lemma wf_run (ops : list (Lru.op Value Key)) c :
  Lru.wf c -> Lru.wf (run ops c).
Proof.
  revert c. induction ops as [|o ops IH]; intros c Hwf; simpl; [assumption|].
  apply IH. now apply wf_step.
Qed.

(** *** [erase] *)

Lemma erase_spec c ix k :
  (forall n, In n (Lru.items (snd (erase ix k c))) <->
             In n (Lru.items c) /\ key_of ix (element n) <> k) /\
  (forall ix' k' n,
     In n (index_equal_range key_eq_dec ix' k'
             (Lru.container_ (snd (erase ix k c)))) ->
     key_of ix (element n) <> k) /\
  (fst (erase ix k c) = true <->
   exists n, In n (Lru.items c) /\ key_of ix (element n) = k) /\
  Lru.size (snd (erase ix k c))
    + length (filter (key_matches key_eq_dec ix k) (Lru.items c))
    = Lru.size c.
Proof.
  assert (forall n, In n (Lru.items (snd (erase ix k c))) <->
                    In n (Lru.items c) /\ key_of ix (element n) <> k) as Hin.
  { intros n. unfold Lru.erase, Lru.items. cbn.
    rewrite filter_In, negb_true_iff. now rewrite key_matches_false. }
  split; [exact Hin|]. split; [|split].
  - intros ix' k' n H. apply In_equal_range in H. destruct H as [H _].
    now apply Hin in H.
  - unfold Lru.erase, index_erase_key, Lru.items. cbn [fst snd].
    rewrite Nat.ltb_lt. split.
    + intros H.
      destruct (filter (key_matches key_eq_dec ix k)
                  (nodes (Lru.container_ c))) as [|n r] eqn:E;
        [simpl in H; lia|].
      assert (In n (filter (key_matches key_eq_dec ix k)
                      (nodes (Lru.container_ c)))) as Hn
        by (rewrite E; now left).
      apply filter_In in Hn. exists n.
      now rewrite <- (key_matches_true _ _ key_eq_dec).
    + intros [n [Hn Hk]].
      assert (In n (filter (key_matches key_eq_dec ix k)
                      (nodes (Lru.container_ c)))) as Hf
        by (apply filter_In; now rewrite key_matches_true).
      destruct (filter (key_matches key_eq_dec ix k)
                  (nodes (Lru.container_ c))); [easy|simpl; lia].
  - unfold Lru.erase, Lru.size, Lru.items, MultiIndex.size. cbn.
    rewrite Nat.add_comm. apply filter_length.
Qed.

End Facts.

End LruFacts.

(** ** The TTL wrapper *)

Module TtlFacts.
Import MultiIndex MultiIndexFacts.

Section Facts.

Variables Value Key : Type.
Variable key_eq_dec : forall a b : Key, {a = b} + {a <> b}.
Variable indices : list (index_spec Value Key).

Abbreviation CacheItem := (Ttl.TimestampedValue Value).
Abbreviation ExpirableContainer := (Ttl.ExpirableContainer Value).
Abbreviation through := (Ttl.through_wrapper (Value := Value) (Key := Key)).
Abbreviation ids := (map (@id CacheItem)).

Implicit Types (c : ExpirableContainer) (v : Value) (k : Key) (now : Z).
Implicit Types (ix : index_spec Value Key) (n : node CacheItem).
Implicit Types (m : multi_index_container CacheItem).

(** *** The deadline *)

Lemma int64_representable (z : Z) : Ttl.representable z -> Ttl.int64 z = z.
Proof.
  unfold Ttl.representable, Ttl.int64, Ttl.int64_min, Ttl.int64_max.
  intros H. rewrite Z.mod_small; lia.
Qed.

Lemma int64_is_representable (z : Z) : Ttl.representable (Ttl.int64 z).
Proof.
  unfold Ttl.representable, Ttl.int64, Ttl.int64_min, Ttl.int64_max.
  pose proof (Z.mod_pos_bound (z - - 2 ^ 63) (2 ^ 64) eq_refl). lia.
Qed.

Lemma deadline_in_range (ttl : Z) (w : CacheItem) :
  Ttl.no_overflow ttl (Ttl.last_accessed w) ->
  Ttl.deadline ttl w = (Ttl.last_accessed w + ttl * Ttl.ticks_per_ms)%Z.
Proof.
  intros [H1 H2]. unfold Ttl.deadline.
  rewrite (int64_representable _ H1). apply int64_representable, H2.
Qed.

Lemma expired_in_range now (ttl : Z) (w : CacheItem) :
  Ttl.no_overflow ttl (Ttl.last_accessed w) ->
  Ttl.expired now ttl w
  = (Ttl.last_accessed w + ttl * Ttl.ticks_per_ms <? now)%Z.
Proof.
  intros H. unfold Ttl.expired. now rewrite deadline_in_range.
Qed.

Lemma expired_true_in_range now (ttl : Z) (w : CacheItem) :
  Ttl.no_overflow ttl (Ttl.last_accessed w) ->
  Ttl.expired now ttl w = true <->
  (now > Ttl.last_accessed w + ttl * Ttl.ticks_per_ms)%Z.
Proof.
  intros H. rewrite (expired_in_range _ _ _ H), Z.ltb_lt. lia.
Qed.

Lemma expired_false_in_range now (ttl : Z) (w : CacheItem) :
  Ttl.no_overflow ttl (Ttl.last_accessed w) ->
  Ttl.expired now ttl w = false <->
  (now <= Ttl.last_accessed w + ttl * Ttl.ticks_per_ms)%Z.
Proof.
  intros H. rewrite (expired_in_range _ _ _ H), Z.ltb_ge. lia.
Qed.

Lemma refreshed_stamped now n :
  Ttl.refreshed now n
  = {| id := id n;
       element := {| Ttl.value := Ttl.value (element n);
                     Ttl.last_accessed := now |} |}.
Proof. reflexivity. Qed.

Lemma refreshed_key ix k now n :
  key_matches key_eq_dec (through ix) k (Ttl.refreshed now n) =
  key_matches key_eq_dec (through ix) k n.
Proof. reflexivity. Qed.

Lemma ids_refreshed now (l : list (node CacheItem)) :
  ids (map (Ttl.refreshed now) l) = ids l.
Proof. rewrite map_map. now apply map_ext. Qed.

(** *** [find] *)

Lemma find_found_expired c ix k now n :
  index_find key_eq_dec (through ix) k (Lru.container_ (Ttl.container_ c))
    = Some n ->
  Ttl.expired now (Ttl.ttl_ c) (element n) = true ->
  Ttl.find key_eq_dec ix k now c =
  (None, Ttl.with_container c
           (index_erase (id n) (Lru.container_ (Ttl.container_ c)))).
Proof.
  intros H E. unfold Ttl.find, Lru.get_index. now rewrite H, E.
Qed.

Lemma find_found_live c ix k now n :
  index_find key_eq_dec (through ix) k (Lru.container_ (Ttl.container_ c))
    = Some n ->
  Ttl.expired now (Ttl.ttl_ c) (element n) = false ->
  Ttl.find key_eq_dec ix k now c =
  (Some (id n),
   Ttl.with_container c
     (relocate_front (id n)
        (assign (id n) (Ttl.set_last_accessed now)
           (Lru.container_ (Ttl.container_ c))))).
Proof.
  intros H E. unfold Ttl.find, Lru.get_index. now rewrite H, E.
Qed.

Lemma find_missing c ix k now :
  index_find key_eq_dec (through ix) k (Lru.container_ (Ttl.container_ c))
    = None ->
  Ttl.find key_eq_dec ix k now c = (None, c).
Proof.
  intros H. unfold Ttl.find, Lru.get_index. now rewrite H.
Qed.

(** *** The loop of [equal_range] *)

Lemma filter_outside_nil (l : list (node CacheItem)) :
  filter (outside []) l = l.
Proof. induction l as [|x r IH]; simpl; congruence. Qed.

Lemma filter_outside_cons a (range l : list (node CacheItem)) :
  filter (outside (a :: range)) l =
  filter (outside range) (filter (fun x => negb (id x =? id a)) l).
Proof.
  induction l as [|x r IH]; simpl; [reflexivity|].
  unfold outside at 1. simpl existsb.
  destruct (id x =? id a); simpl.
  - exact IH.
  - fold (outside range x). destruct (outside range x); simpl; congruence.
Qed.

Lemma outside_true (range : list (node CacheItem)) x :
  ~ In (id x) (ids range) -> outside range x = true.
Proof.
  intros H. unfold outside. apply negb_true_iff.
  destruct (existsb (fun r => id x =? id r) range) eqn:E; [|reflexivity].
  apply existsb_exists in E. destruct E as [r [Hr Hid]].
  apply Nat.eqb_eq in Hid. exfalso. apply H. rewrite Hid. now apply in_map.
Qed.

Lemma equal_range_loop_spec now ttl (range : list (node CacheItem)) :
  forall m changed,
    wf m -> NoDup (ids range) ->
    (forall n, In n range -> In n (nodes m)) ->
    Ttl.equal_range_loop now ttl (ids range) m changed =
    ({| nodes :=
          rev (map (Ttl.refreshed now) (filter (Ttl.live now ttl) range))
          ++ filter (outside range) (nodes m);
        next_id := next_id m |},
     changed || existsb (fun n => Ttl.expired now ttl (element n)) range).
Proof.
  induction range as [|a rest IH]; intros m changed Hwf Hnd Hin.
  - simpl. rewrite orb_false_r, filter_outside_nil. now destruct m.
  - cbn [map Ttl.equal_range_loop].
    rewrite (wf_deref _ m a Hwf (Hin a (or_introl eq_refl))).
    simpl in Hnd. inversion Hnd as [|x xs Hnotin Hnd']; subst.
    assert (forall n, In n rest -> In n (unlink (id a) (nodes m))) as Hrest.
    { intros n Hn. apply In_unlink; [apply Hwf|]. split.
      - apply Hin. now right.
      - intros E. apply Hnotin. rewrite <- E. now apply in_map. }
    cbn [filter existsb]. unfold Ttl.live at 1.
    destruct (Ttl.expired now ttl (element a)) eqn:E; cbn [negb].
    + rewrite IH; auto using wf_index_erase.
      cbn [index_erase nodes next_id].
      rewrite filter_outside_cons, <- unlink_filter by apply Hwf.
      now rewrite !orb_true_r.
    + rewrite IH; auto using wf_relocate_front, wf_assign.
      * rewrite relocate_next_id. cbn [assign next_id orb].
        rewrite (relocate_assign _ _ _ _ a)
          by (apply wf_deref; [exact Hwf|apply Hin; now left]).
        cbn [filter]. rewrite outside_true by exact Hnotin.
        cbn [map rev]. rewrite <- app_assoc. cbn [app].
        now rewrite filter_outside_cons, <- unlink_filter by apply Hwf.
      * intros n Hn.
        rewrite (relocate_assign _ _ _ _ a)
          by (apply wf_deref; [exact Hwf|apply Hin; now left]).
        right. now apply Hrest.
Qed.

(** *** [equal_range] *)

Lemma arrival_order_refreshed now (l : list (node CacheItem)) :
  arrival_order l -> arrival_order (map (Ttl.refreshed now) l).
Proof.
  unfold arrival_order.
  induction 1 as [|a r Hs IH Ha]; simpl; constructor; [assumption|].
  rewrite Forall_forall in *. intros x Hx. apply in_map_iff in Hx.
  destruct Hx as [y [<- Hy]]. simpl. now apply Ha.
Qed.

Lemma none_expired_all_live now ttl (l : list (node CacheItem)) :
  existsb (fun n => Ttl.expired now ttl (element n)) l = false ->
  filter (Ttl.live now ttl) l = l.
Proof.
  intros H. apply filter_all. intros x Hx. unfold Ttl.live.
  destruct (Ttl.expired now ttl (element x)) eqn:E; [|reflexivity].
  assert (existsb (fun n => Ttl.expired now ttl (element n)) l = true)
    by (apply existsb_exists; now exists x).
  congruence.
Qed.

(** The range of the key after the loop: the survivors, in the order of
    the index. *)
Lemma range_after_loop ix k (range rest : list (node CacheItem)) now ttl next :
  NoDup (ids range) -> arrival_order range ->
  (forall n, In n range ->
     key_matches key_eq_dec (through ix) k n = true) ->
  index_equal_range key_eq_dec (through ix) k
    {| nodes :=
         rev (map (Ttl.refreshed now) (filter (Ttl.live now ttl) range))
         ++ filter (fun n => negb (key_matches key_eq_dec (through ix) k n))
              rest;
       next_id := next |} =
  map (Ttl.refreshed now) (filter (Ttl.live now ttl) range).
Proof.
  intros Hnd Hs Hk. unfold index_equal_range. cbn [nodes].
  rewrite filter_app, (filter_none _ _ (filter _ rest)), app_nil_r.
  - rewrite filter_all.
    + apply by_arrival_of_perm.
      * rewrite ids_refreshed. now apply NoDup_ids_filter.
      * apply Permutation_rev.
      * apply arrival_order_refreshed. now apply arrival_order_filter.
    + intros x Hx. apply in_rev, in_map_iff in Hx.
      destruct Hx as [y [<- Hy]]. rewrite refreshed_key.
      apply Hk. apply filter_In in Hy. tauto.
  - intros x Hx. apply filter_In in Hx. now apply negb_true_iff.
Qed.

Lemma equal_range_result c ix k now :
  Ttl.wf c ->
  Ttl.equal_range key_eq_dec ix k now c =
  (ids (filter (Ttl.live now (Ttl.ttl_ c))
          (index_equal_range key_eq_dec (through ix) k
             (Lru.container_ (Ttl.container_ c)))),
   Ttl.with_container c
     {| nodes :=
          rev (map (Ttl.refreshed now)
                 (filter (Ttl.live now (Ttl.ttl_ c))
                    (index_equal_range key_eq_dec (through ix) k
                       (Lru.container_ (Ttl.container_ c)))))
          ++ filter
               (fun n => negb (key_matches key_eq_dec (through ix) k n))
               (Ttl.items c);
        next_id := next_id (Lru.container_ (Ttl.container_ c)) |}).
Proof.
  intros Hwf. unfold Ttl.equal_range, Lru.get_index, Ttl.items.
  set (m := Lru.container_ (Ttl.container_ c)).
  set (range0 := index_equal_range key_eq_dec (through ix) k m).
  assert (forall n, In n range0 ->
            key_matches key_eq_dec (through ix) k n = true) as Hk.
  { intros n Hn. apply In_equal_range in Hn. now apply key_matches_true. }
  rewrite equal_range_loop_spec.
  - rewrite (filter_ext_in (outside range0)
               (fun n => negb (key_matches key_eq_dec (through ix) k n)))
      by (intros x Hx; now apply outside_equal_range).
    cbn [orb].
    destruct (existsb (fun n => Ttl.expired now (Ttl.ttl_ c) (element n))
                range0) eqn:E.
    + rewrite range_after_loop; auto.
      * now rewrite ids_refreshed.
      * apply equal_range_NoDup, Hwf.
      * apply equal_range_sorted.
    + now rewrite (none_expired_all_live _ _ _ E).
  - exact Hwf.
  - apply equal_range_NoDup, Hwf.
  - intros n Hn. apply In_equal_range in Hn. tauto.
Qed.

Lemma wf_equal_range_loop now ttl (its : list nat) :
  forall m changed,
    wf m -> wf (fst (Ttl.equal_range_loop now ttl its m changed)).
Proof.
  induction its as [|it rest IH]; intros m changed Hwf; simpl; [assumption|].
  destruct (deref it (nodes m)) as [n|]; [|assumption].
  destruct (Ttl.expired now ttl (element n)); apply IH.
  - now apply wf_index_erase.
  - now apply wf_relocate_front, wf_assign.
Qed.

(** *** [cleanup_expired] *)

Lemma cleanup_loop_spec fuel now ttl :
  forall m,
    length (nodes m) <= fuel ->
    exists dropped,
      nodes m = nodes (Ttl.cleanup_loop fuel now ttl m) ++ dropped /\
      forallb (fun n => Ttl.expired now ttl (element n)) dropped = true /\
      match rbegin (Ttl.cleanup_loop fuel now ttl m) with
      | Some n => Ttl.expired now ttl (element n) = false
      | None => True
      end /\
      next_id (Ttl.cleanup_loop fuel now ttl m) = next_id m.
Proof.
  induction fuel as [|fuel IH]; intros [s next] Hlen; cbn [nodes] in Hlen.
  - destruct s; [|simpl in Hlen; lia].
    exists []. simpl. auto.
  - destruct (snoc_cases _ s) as [->|[s' [x ->]]].
    + exists []. simpl. auto.
    + cbn [Ttl.cleanup_loop]. rewrite empty_snoc, rbegin_snoc.
      destruct (Ttl.expired now ttl (element x)) eqn:E.
      * unfold pop_back. cbn [nodes next_id]. rewrite removelast_last.
        rewrite length_app in Hlen. simpl in Hlen.
        destruct (IH {| nodes := s'; next_id := next |}) as [d [H1 [H2 [H3 H4]]]];
          [simpl; lia|].
        exists (d ++ [x]). cbn [nodes] in H1.
        repeat split; auto.
        -- rewrite app_assoc, <- H1. reflexivity.
        -- rewrite forallb_app, H2. simpl. now rewrite E.
      * exists []. rewrite rbegin_snoc, app_nil_r. auto.
Qed.

Lemma wf_cleanup_loop fuel now ttl :
  forall m, wf m -> wf (Ttl.cleanup_loop fuel now ttl m).
Proof.
  induction fuel as [|fuel IH]; intros m Hwf; simpl; [assumption|].
  destruct (empty m); [assumption|].
  destruct (rbegin m) as [n|]; [|assumption].
  destruct (Ttl.expired now ttl (element n)); [|assumption].
  now apply IH, wf_pop_back.
Qed.

(** *** [emplace] *)

Lemma ttl_emplace_banned c v now b :
  Ttl.wf c ->
  first_ban key_eq_dec (map through indices)
    {| Ttl.value := v; Ttl.last_accessed := now |} (Ttl.items c) = Some b ->
  Ttl.emplace key_eq_dec indices v now c =
  ((id b, false),
   Ttl.with_container c
     {| nodes := Ttl.refreshed now b :: unlink (id b) (Ttl.items c);
        next_id := next_id (Lru.container_ (Ttl.container_ c)) |}).
Proof.
  intros Hwf H. unfold Ttl.emplace, emplace_front, Lru.get_sequenced.
  unfold Ttl.items in H. rewrite H. cbn [negb].
  rewrite (relocate_assign_eq _ _ _ _ b); [reflexivity|].
  apply wf_deref; [exact Hwf|].
  apply first_ban_Some in H. destruct H as [ix H]. tauto.
Qed.

Lemma ttl_emplace_fresh c v now :
  first_ban key_eq_dec (map through indices)
    {| Ttl.value := v; Ttl.last_accessed := now |} (Ttl.items c) = None ->
  fst (Ttl.emplace key_eq_dec indices v now c) =
    (next_id (Lru.container_ (Ttl.container_ c)), true) /\
  Ttl.items (snd (Ttl.emplace key_eq_dec indices v now c)) =
    (if Ttl.capacity c <? S (Ttl.size c)
     then removelast
            ({| id := next_id (Lru.container_ (Ttl.container_ c));
                element := {| Ttl.value := v; Ttl.last_accessed := now |} |}
               :: Ttl.items c)
     else {| id := next_id (Lru.container_ (Ttl.container_ c));
             element := {| Ttl.value := v; Ttl.last_accessed := now |} |}
            :: Ttl.items c).
Proof.
  intros H. unfold Ttl.emplace, emplace_front, Lru.get_sequenced.
  unfold Ttl.items in *. rewrite H. cbn [negb].
  unfold Ttl.capacity, Ttl.size, Lru.size, MultiIndex.size. cbn [nodes length].
  destruct (Lru.capacity (Ttl.container_ c)
            <? S (length (nodes (Lru.container_ (Ttl.container_ c)))));
    now split.
Qed.

Lemma insert_snd c v now :
  snd (Ttl.insert key_eq_dec indices v now c) =
  snd (Ttl.emplace key_eq_dec indices v now c).
Proof.
  unfold Ttl.insert. now destruct (Ttl.emplace key_eq_dec indices v now c).
Qed.

Lemma ttl_contains_snd c ix k now :
  snd (Ttl.contains key_eq_dec ix k now c) =
  snd (Ttl.find key_eq_dec ix k now c).
Proof.
  unfold Ttl.contains. now destruct (Ttl.find key_eq_dec ix k now c).
Qed.

(** *** What a call leaves of the stored nodes *)

Lemma emplace_items c v now n' :
  Ttl.wf c ->
  In n' (Ttl.items (snd (Ttl.emplace key_eq_dec indices v now c))) ->
  In n' (Ttl.items c) \/
  (exists n, In n (Ttl.items c) /\ n' = Ttl.refreshed now n) \/
  (id n' = next_id (Lru.container_ (Ttl.container_ c)) /\
   Ttl.last_accessed (element n') = now).
Proof.
  intros Hwf Hin.
  destruct (first_ban key_eq_dec (map through indices)
              {| Ttl.value := v; Ttl.last_accessed := now |} (Ttl.items c))
    as [b|] eqn:E.
  - rewrite (ttl_emplace_banned _ _ _ _ Hwf E) in Hin.
    apply first_ban_Some in E. destruct E as [ix [_ [_ [Hb _]]]].
    destruct Hin as [<-|Hin].
    + right. left. now exists b.
    + left. apply In_unlink in Hin; [tauto|apply Hwf].
  - destruct (ttl_emplace_fresh _ _ _ E) as [_ H]. rewrite H in Hin.
    assert (In n' ({| id := next_id (Lru.container_ (Ttl.container_ c));
                      element := {| Ttl.value := v; Ttl.last_accessed := now |} |}
                     :: Ttl.items c)) as Hin'.
    { destruct (Ttl.capacity c <? S (Ttl.size c));
        [now apply In_removelast|assumption]. }
    destruct Hin' as [<-|Hin']; [right; right; now split|now left].
Qed.

Lemma ttl_find_items c ix k now n' :
  Ttl.wf c ->
  In n' (Ttl.items (snd (Ttl.find key_eq_dec ix k now c))) ->
  In n' (Ttl.items c) \/
  (exists n, In n (Ttl.items c) /\ n' = Ttl.refreshed now n).
Proof.
  intros Hwf Hin.
  destruct (index_find key_eq_dec (through ix) k
              (Lru.container_ (Ttl.container_ c))) as [n|] eqn:F.
  - destruct (index_find_Some _ _ _ _ _ _ _ F) as [Hn _].
    destruct (Ttl.expired now (Ttl.ttl_ c) (element n)) eqn:E.
    + rewrite (find_found_expired _ _ _ _ _ F E) in Hin.
      left. apply In_unlink in Hin; [tauto|apply Hwf].
    + rewrite (find_found_live _ _ _ _ _ F E) in Hin.
      unfold Ttl.items in Hin. cbn [snd] in Hin.
      unfold Ttl.with_container, Lru.with_container in Hin.
      cbn [Ttl.container_ Lru.container_] in Hin.
      rewrite (relocate_assign_eq _ _ _ _ n) in Hin
        by (now apply wf_deref).
      destruct Hin as [<-|Hin].
      * right. now exists n.
      * left. apply In_unlink in Hin; [tauto|apply Hwf].
  - rewrite (find_missing _ _ _ now F) in Hin. now left.
Qed.

Lemma equal_range_items c ix k now n' :
  Ttl.wf c ->
  In n' (Ttl.items (snd (Ttl.equal_range key_eq_dec ix k now c))) ->
  In n' (Ttl.items c) \/
  (exists n, In n (Ttl.items c) /\ n' = Ttl.refreshed now n).
Proof.
  intros Hwf Hin. rewrite (equal_range_result _ _ _ _ Hwf) in Hin.
  unfold Ttl.items in Hin at 1. cbn in Hin.
  apply in_app_or in Hin. destruct Hin as [Hin|Hin].
  - right. apply in_rev, in_map_iff in Hin.
    destruct Hin as [n [<- Hn]]. exists n. split; [|reflexivity].
    apply filter_In in Hn. destruct Hn as [Hn _].
    apply In_equal_range in Hn. tauto.
  - left. apply filter_In in Hin. tauto.
Qed.

Lemma cleanup_expired_items c now :
  exists dropped,
    Ttl.items c = Ttl.items (Ttl.cleanup_expired now c) ++ dropped /\
    forallb (fun n => Ttl.expired now (Ttl.ttl_ c) (element n)) dropped = true /\
    match rbegin (Lru.container_ (Ttl.container_ (Ttl.cleanup_expired now c))) with
    | Some n => Ttl.expired now (Ttl.ttl_ c) (element n) = false
    | None => True
    end.
Proof.
  unfold Ttl.cleanup_expired, Lru.get_sequenced.
  destruct (cleanup_loop_spec
              (MultiIndex.size (Lru.container_ (Ttl.container_ c)))
              now (Ttl.ttl_ c) (Lru.container_ (Ttl.container_ c)))
    as [d [H1 [H2 [H3 _]]]]; [reflexivity|].
  exists d. auto.
Qed.

Lemma cleanup_live_tail c now n :
  rbegin (Lru.container_ (Ttl.container_ c)) = Some n ->
  Ttl.expired now (Ttl.ttl_ c) (element n) = false ->
  Ttl.items (Ttl.cleanup_expired now c) = Ttl.items c.
Proof.
  intros Hr E. unfold Ttl.cleanup_expired, Lru.get_sequenced, Ttl.items.
  cbn. unfold MultiIndex.size.
  destruct (nodes (Lru.container_ (Ttl.container_ c))) as [|a r] eqn:Hn.
  - unfold rbegin in Hr. now rewrite Hn in Hr.
  - cbn [length Ttl.cleanup_loop]. unfold empty. rewrite Hn, Hr, E.
    exact Hn.
Qed.

Lemma step_items (o : Ttl.op Value Key) c n' :
  Ttl.wf c ->
  In n' (Ttl.items (Ttl.step key_eq_dec indices o c)) ->
  In n' (Ttl.items c) \/
  exists now,
    Ttl.clock_of o = Some now /\
    ((Ttl.is_access o || Ttl.is_insertion o = true /\
      exists n, In n (Ttl.items c) /\ n' = Ttl.refreshed now n) \/
     (Ttl.is_insertion o = true /\
      id n' = next_id (Lru.container_ (Ttl.container_ c)) /\
      Ttl.last_accessed (element n') = now)).
Proof.
  intros Hwf Hin.
  destruct o as [v now|v now|ix k now|ix k|ix k now|ix k now|ix k|cap| |now];
    cbn [Ttl.step] in Hin.
  - destruct (emplace_items _ _ _ _ Hwf Hin) as [H|[H|H]];
      [now left|right; exists now..]; simpl; auto.
  - rewrite insert_snd in Hin.
    destruct (emplace_items _ _ _ _ Hwf Hin) as [H|[H|H]];
      [now left|right; exists now..]; simpl; auto.
  - destruct (ttl_find_items _ _ _ _ _ Hwf Hin) as [H|H];
      [now left|right; exists now]; simpl; auto.
  - now left.
  - destruct (equal_range_items _ _ _ _ _ Hwf Hin) as [H|H];
      [now left|right; exists now]; simpl; auto.
  - rewrite ttl_contains_snd in Hin.
    destruct (ttl_find_items _ _ _ _ _ Hwf Hin) as [H|H];
      [now left|right; exists now]; simpl; auto.
  - left. unfold Ttl.items, Ttl.erase, Lru.erase in *. cbn in Hin.
    apply filter_In in Hin. tauto.
  - left. unfold Ttl.items, Ttl.set_capacity in *. cbn in Hin.
    destruct (LruFacts.set_capacity_spec _ (Ttl.container_ c) cap) as [H _].
    unfold Lru.items in H. rewrite H in Hin.
    now apply In_firstn in Hin.
  - destruct Hin.
  - left. destruct (cleanup_expired_items c now) as [d [H _]].
    rewrite H. apply in_or_app. now left.
Qed.

Lemma ttl_wf_step (o : Ttl.op Value Key) c :
  Ttl.wf c -> Ttl.wf (Ttl.step key_eq_dec indices o c).
Proof.
  assert (forall v now c, Ttl.wf c ->
            Ttl.wf (snd (Ttl.emplace key_eq_dec indices v now c))) as He.
  { clear c. intros v now c Hwf. unfold Ttl.wf, Lru.wf in *.
    pose proof (wf_emplace_front _ _ key_eq_dec (map through indices)
                  {| Ttl.value := v; Ttl.last_accessed := now |} _ Hwf) as H.
    unfold Ttl.emplace, Lru.get_sequenced.
    destruct (emplace_front key_eq_dec (map through indices)
                {| Ttl.value := v; Ttl.last_accessed := now |}
                (Lru.container_ (Ttl.container_ c))) as [[first second] m].
    simpl in H. destruct second; cbn [negb].
    - destruct (Lru.capacity (Ttl.container_ c) <? MultiIndex.size m); simpl;
        [now apply wf_pop_back|assumption].
    - simpl. now apply wf_relocate_front, wf_assign. }
  assert (forall ix k now c, Ttl.wf c ->
            Ttl.wf (snd (Ttl.find key_eq_dec ix k now c))) as Hf.
  { clear c. intros ix k now c Hwf. unfold Ttl.wf, Lru.wf in *.
    unfold Ttl.find, Lru.get_index.
    destruct (index_find key_eq_dec (through ix) k
                (Lru.container_ (Ttl.container_ c))) as [n|]; [|assumption].
    destruct (Ttl.expired now (Ttl.ttl_ c) (element n)); simpl.
    - now apply wf_index_erase.
    - now apply wf_relocate_front, wf_assign. }
  intros Hwf.
  destruct o as [v now|v now|ix k now|ix k|ix k now|ix k now|ix k|cap| |now];
    cbn [Ttl.step].
  - now apply He.
  - rewrite insert_snd. now apply He.
  - now apply Hf.
  - exact Hwf.
  - unfold Ttl.wf, Lru.wf in *. unfold Ttl.equal_range, Lru.get_index.
    pose proof (wf_equal_range_loop now (Ttl.ttl_ c)
      (ids (index_equal_range key_eq_dec (through ix) k
              (Lru.container_ (Ttl.container_ c))))
      _ false Hwf) as H.
    destruct (Ttl.equal_range_loop now (Ttl.ttl_ c)
      (ids (index_equal_range key_eq_dec (through ix) k
              (Lru.container_ (Ttl.container_ c))))
      (Lru.container_ (Ttl.container_ c)) false) as [m' ch].
    exact H.
  - rewrite ttl_contains_snd. now apply Hf.
  - unfold Ttl.wf, Lru.wf in *. simpl. now apply wf_filter.
  - unfold Ttl.wf in *. simpl. unfold Lru.set_capacity.
    now apply LruFacts.wf_set_capacity_loop.
  - unfold Ttl.wf, Lru.wf in *. simpl. now apply wf_clear.
  - unfold Ttl.wf, Lru.wf in *. simpl. now apply wf_cleanup_loop.
Qed.

(** *** The capacity bound *)

Lemma equal_range_loop_size now ttl (its : list nat) :
  forall m changed,
    MultiIndex.size (fst (Ttl.equal_range_loop now ttl its m changed))
    <= MultiIndex.size m /\
    next_id (fst (Ttl.equal_range_loop now ttl its m changed)) = next_id m.
Proof.
  induction its as [|it rest IH]; intros m changed; simpl; [auto|].
  destruct (deref it (nodes m)) as [n|]; [|auto].
  destruct (Ttl.expired now ttl (element n)).
  - destruct (IH (index_erase it m) true) as [H1 H2].
    split; [|exact H2].
    unfold MultiIndex.size in *. simpl in H1.
    pose proof (unlink_length_le _ it (nodes m)). lia.
  - destruct (IH (relocate_front it (assign it (Ttl.set_last_accessed now) m))
                changed) as [H1 H2].
    rewrite relocate_size in H1. rewrite relocate_next_id in H2.
    unfold MultiIndex.size in *. simpl in H1. rewrite modify_length in H1.
    now split.
Qed.

Lemma ttl_emplace_size_le c v now :
  Ttl.size c <= Ttl.capacity c ->
  Ttl.size (snd (Ttl.emplace key_eq_dec indices v now c))
  <= Ttl.capacity (snd (Ttl.emplace key_eq_dec indices v now c)).
Proof.
  unfold Ttl.size, Ttl.capacity, Lru.size, Lru.capacity. intros Hle.
  unfold Ttl.emplace, emplace_front, Lru.get_sequenced.
  destruct (first_ban key_eq_dec (map through indices)
              {| Ttl.value := v; Ttl.last_accessed := now |}
              (nodes (Lru.container_ (Ttl.container_ c)))); cbn [negb].
  - cbn. rewrite relocate_size. unfold MultiIndex.size in *. cbn.
    now rewrite modify_length.
  - unfold MultiIndex.size in *. cbn [nodes length].
    destruct (Nat.ltb_spec (Lru.capacity (Ttl.container_ c))
                (S (length (nodes (Lru.container_ (Ttl.container_ c))))))
      as [L|L];
      cbn [snd Ttl.with_container Lru.with_container Ttl.container_
             Lru.container_ Lru.max_size_ pop_back nodes].
    + rewrite LruFacts.removelast_length. simpl. lia.
    + unfold Lru.capacity in L. simpl. lia.
Qed.

Lemma ttl_find_size_le c ix k now :
  Ttl.size (snd (Ttl.find key_eq_dec ix k now c)) <= Ttl.size c /\
  Ttl.capacity (snd (Ttl.find key_eq_dec ix k now c)) = Ttl.capacity c.
Proof.
  unfold Ttl.size, Ttl.capacity, Lru.size, Lru.capacity.
  unfold Ttl.find, Lru.get_index.
  destruct (index_find key_eq_dec (through ix) k
              (Lru.container_ (Ttl.container_ c))) as [n|]; [|auto].
  destruct (Ttl.expired now (Ttl.ttl_ c) (element n)); cbn.
  - split; [|reflexivity]. unfold MultiIndex.size. cbn.
    apply unlink_length_le.
  - rewrite relocate_size. unfold MultiIndex.size. cbn.
    now rewrite modify_length.
Qed.

Lemma ttl_step_size_le (o : Ttl.op Value Key) c :
  Ttl.size c <= Ttl.capacity c ->
  Ttl.size (Ttl.step key_eq_dec indices o c)
  <= Ttl.capacity (Ttl.step key_eq_dec indices o c).
Proof.
  intros Hle.
  destruct o as [v now|v now|ix k now|ix k|ix k now|ix k now|ix k|cap| |now];
    cbn [Ttl.step].
  - now apply ttl_emplace_size_le.
  - rewrite insert_snd. now apply ttl_emplace_size_le.
  - destruct (ttl_find_size_le c ix k now) as [H1 H2]. lia.
  - exact Hle.
  - unfold Ttl.equal_range, Lru.get_index.
    pose proof (equal_range_loop_size now (Ttl.ttl_ c)
      (ids (index_equal_range key_eq_dec (through ix) k
              (Lru.container_ (Ttl.container_ c))))
      (Lru.container_ (Ttl.container_ c)) false) as [H _].
    destruct (Ttl.equal_range_loop now (Ttl.ttl_ c)
      (ids (index_equal_range key_eq_dec (through ix) k
              (Lru.container_ (Ttl.container_ c))))
      (Lru.container_ (Ttl.container_ c)) false) as [m' ch].
    unfold Ttl.size, Ttl.capacity, Lru.size, Lru.capacity in *. cbn in *. lia.
  - rewrite ttl_contains_snd.
    destruct (ttl_find_size_le c ix k now) as [H1 H2]. lia.
  - pose proof (LruFacts.step_size_le _ _ key_eq_dec nil
                  (Lru.Erase (through ix) k) (Ttl.container_ c) Hle) as H.
    unfold Ttl.erase. cbn [Lru.step] in H.
    destruct (Lru.erase key_eq_dec (through ix) k (Ttl.container_ c)).
    exact H.
  - unfold Ttl.size, Ttl.capacity, Ttl.set_capacity. cbn.
    destruct (LruFacts.set_capacity_spec _ (Ttl.container_ c) cap)
      as [_ [H2 H3]].
    now rewrite H2.
  - unfold Ttl.size, Ttl.capacity, Lru.size, Lru.capacity, MultiIndex.size.
    cbn. lia.
  - destruct (cleanup_expired_items c now) as [d [H _]].
    unfold Ttl.size, Ttl.capacity, Lru.size, Lru.capacity, MultiIndex.size
      in *.
    unfold Ttl.items in H.
    assert (length (nodes (Lru.container_ (Ttl.container_ c)))
            = length (nodes (Lru.container_
                               (Ttl.container_ (Ttl.cleanup_expired now c))))
              + length d) as Hlen
      by (rewrite H at 1; apply length_app).
    assert (Lru.max_size_ (Ttl.container_ (Ttl.cleanup_expired now c))
            = Lru.max_size_ (Ttl.container_ c)) as Hcap by reflexivity.
    rewrite Hcap. lia.
Qed.

Lemma ttl_run_size_le (ops : list (Ttl.op Value Key)) c :
  Ttl.size c <= Ttl.capacity c ->
  Ttl.size (Ttl.run key_eq_dec indices ops c)
  <= Ttl.capacity (Ttl.run key_eq_dec indices ops c).
Proof.
  revert c. induction ops as [|o ops IH]; intros c Hle; simpl; [assumption|].
  apply IH. now apply ttl_step_size_le.
Qed.

Lemma ttl_wf_run (ops : list (Ttl.op Value Key)) c :
  Ttl.wf c -> Ttl.wf (Ttl.run key_eq_dec indices ops c).
Proof.
  revert c. induction ops as [|o ops IH]; intros c Hwf; simpl; [assumption|].
  apply IH. now apply ttl_wf_step.
Qed.

End Facts.

End TtlFacts.

(* ================================================================== *)
(** * Part III. The properties of the specification                     *)
(* ================================================================== *)

Module Specification.
Import MultiIndex MultiIndexFacts Fixtures.

Section Core.

Variables Value Key : Type.
Variable key_eq_dec : forall a b : Key, {a = b} + {a <> b}.
Variable indices : list (index_spec Value Key).

Abbreviation emplace := (Lru.emplace key_eq_dec indices).
Abbreviation find := (Lru.find key_eq_dec).
Abbreviation erase := (Lru.erase key_eq_dec).
Abbreviation run := (Lru.run key_eq_dec indices).

(** C1, amended.  When the item given to [emplace] has, under a unique
    index, the key of a stored item, [emplace] returns [false] (nothing was
    inserted), [size()] is unchanged, and the stored item that banned the
    insertion - the match under the first declared unique index that has
    one - is moved to the head of the recency list.  The stored items are
    the same nodes as before: the banning item keeps the fields it had,
    the payload handed to [emplace] is dropped. *)
Theorem emplace_existing_item (c : Lru.Container Value) (v : Value) :
  Lru.wf c -> Lru.collides indices v c ->
  fst (emplace v c) = false /\
  Lru.size (snd (emplace v c)) = Lru.size c /\
  exists ix n,
    In ix indices /\ unique ix = true /\ In n (Lru.items c) /\
    key_of ix (element n) = key_of ix v /\
    Lru.items (snd (emplace v c)) = n :: unlink (id n) (Lru.items c) /\
    (forall n', In n' (Lru.items (snd (emplace v c))) <-> In n' (Lru.items c)) /\
    (exists pre post,
       indices = pre ++ ix :: post /\
       forall ix' n',
         In ix' pre -> unique ix' = true -> In n' (Lru.items c) ->
         key_of ix' (element n') <> key_of ix' v) /\
    (exists front back,
       Lru.items c = front ++ n :: back /\
       forall n', In n' front -> key_of ix (element n') <> key_of ix v) /\
    (keys_unique indices (Lru.items c) ->
     forall n', In n' (Lru.items c) ->
                key_of ix (element n') = key_of ix v -> n' = n).
Proof.
  intros Hwf Hcol.
  apply (LruFacts.collides_banned _ _ key_eq_dec) in Hcol.
  destruct Hcol as [n Hban].
  rewrite (LruFacts.emplace_banned _ _ _ _ _ _ _ Hban).
  destruct (first_ban_first _ _ key_eq_dec _ _ _ _ Hban)
    as [pre [ix [post [Hsplit [Hu [Hb Hpre]]]]]].
  destruct (banned_by_Some _ _ key_eq_dec _ _ _ _ Hb)
    as [front [back [Hitems [Hk Hfront]]]].
  assert (In ix indices) as Hix
    by (rewrite Hsplit; apply in_or_app; right; now left).
  assert (In n (Lru.items c)) as Hin
    by (rewrite Hitems; apply in_or_app; right; now left).
  assert (deref (id n) (Lru.items c) = Some n) as Hd
    by (now apply wf_deref).
  cbn [fst snd]. split; [reflexivity|]. split.
  - unfold Lru.size. cbn. apply relocate_size.
  - exists ix, n.
    split; [exact Hix|]. split; [exact Hu|]. split; [exact Hin|].
    split; [exact Hk|].
    assert (Lru.items (Lru.with_container c
                         (relocate_front (id n) (Lru.container_ c)))
            = n :: unlink (id n) (Lru.items c)) as Hafter
      by (unfold Lru.items; cbn; now apply relocate_nodes).
    split; [exact Hafter|].
    split; [|split; [|split]];
      [ | exists pre, post; split; [exact Hsplit|];
          intros ix' n' Hix' Hu' Hn';
          exact (banned_by_None _ _ key_eq_dec _ _ _ (Hpre ix' Hix') Hu' n' Hn')
        | exists front, back; split; [exact Hitems|exact Hfront]
        | intros Huniq n' Hn' Hk'; apply (Huniq ix); auto; congruence ].
    intros n'. split.
    + unfold Lru.items. cbn. rewrite (relocate_nodes _ _ _ _ Hd).
      intros [<-|H]; [assumption|].
      apply In_unlink in H; [tauto|apply Hwf].
    + unfold Lru.items. cbn. rewrite (relocate_nodes _ _ _ _ Hd).
      intros H. destruct (Nat.eq_dec (id n') (id n)) as [E|E].
      * left. symmetry.
        apply (same_id_same_node _ (Lru.items c)); auto. apply Hwf.
      * right. apply In_unlink; [apply Hwf|]. now split.
Qed.

(** C3.  A cache constructed with capacity at least 1 satisfies
    [size() <= capacity()] after every sequence of public operations.  In
    every cache, reached in this way or not, [emplace] of an item that
    collides with no stored item under a unique index inserts it: when the
    cache is full (and its capacity is at least 1) the call returns
    [true], the new item is linked at the head and exactly one item, the
    tail of the recency list, is gone, so that the size is the same; when
    the cache is not full nothing is evicted and the size grows by one,
    not beyond the capacity.  [set_capacity] keeps the most recently used
    items up to the new capacity, removing from the tail, so that
    [size() <= capacity()] when it returns. *)
Theorem capacity_is_never_exceeded (cap : nat) (ops : list (Lru.op Value Key)) :
  1 <= cap ->
  let c := run ops (Lru.new Value cap) in
  Lru.size c <= Lru.capacity c /\
  (forall (full : Lru.Container Value) v,
     ~ Lru.collides indices v full ->
     1 <= Lru.capacity full -> Lru.size full = Lru.capacity full ->
     fst (emplace v full) = true /\
     Lru.items (snd (emplace v full)) =
       removelast ({| id := next_id (Lru.container_ full); element := v |}
                     :: Lru.items full) /\
     (exists front tail,
        Lru.items full = front ++ [tail] /\
        rbegin (Lru.container_ full) = Some tail /\
        Lru.items (snd (emplace v full))
          = {| id := next_id (Lru.container_ full); element := v |}
            :: front) /\
     Lru.size (snd (emplace v full)) = Lru.size full /\
     Lru.size (snd (emplace v full)) <= Lru.capacity (snd (emplace v full))) /\
  (forall (roomy : Lru.Container Value) v,
     ~ Lru.collides indices v roomy -> Lru.size roomy < Lru.capacity roomy ->
     fst (emplace v roomy) = true /\
     Lru.items (snd (emplace v roomy))
       = {| id := next_id (Lru.container_ roomy); element := v |}
         :: Lru.items roomy /\
     Lru.size (snd (emplace v roomy)) = S (Lru.size roomy) /\
     Lru.size (snd (emplace v roomy)) <= Lru.capacity (snd (emplace v roomy))) /\
  (forall new_capacity,
     Lru.items (Lru.set_capacity new_capacity c) =
       firstn new_capacity (Lru.items c) /\
     Lru.capacity (Lru.set_capacity new_capacity c) = new_capacity /\
     Lru.size (Lru.set_capacity new_capacity c)
       <= Lru.capacity (Lru.set_capacity new_capacity c)) /\
  (forall (NDEBUG : bool) (ttl : Z) (e : Ttl.ExpirableContainer Value)
          (calls : list (Ttl.op Value Key)),
     Ttl.new Value NDEBUG cap ttl = Ttl.Returned e ->
     Ttl.size (Ttl.run key_eq_dec indices calls e)
       <= Ttl.capacity (Ttl.run key_eq_dec indices calls e)).
Proof.
  intros Hcap c.
  assert (Lru.size c <= Lru.capacity c) as Hle.
  { apply LruFacts.run_size_le. cbn. lia. }
  split; [exact Hle|]. split; [|split].
  - clear c Hle. intros c v Hfresh Hpos Hfull.
    apply (LruFacts.fresh_not_banned _ _ key_eq_dec) in Hfresh.
    destruct (LruFacts.emplace_fresh _ _ _ _ _ _ Hfresh) as [H0 [H1 H2]].
    unfold Lru.capacity in *.
    destruct (Nat.ltb_spec (Lru.max_size_ c) (S (Lru.size c))) as [L|L];
      [|lia].
    split; [exact H0|]. split; [exact H1|].
    assert (Lru.size (snd (emplace v c)) = Lru.size c) as Hsz.
    { unfold Lru.size, MultiIndex.size.
      fold (Lru.items (snd (emplace v c))). rewrite H1.
      now rewrite LruFacts.removelast_length. }
    split; [|split; [exact Hsz|rewrite Hsz, H2; lia]].
    destruct (snoc_cases _ (Lru.items c)) as [E|[front [tail E]]].
    + exfalso. unfold Lru.size, MultiIndex.size in Hfull.
      fold (Lru.items c) in Hfull. rewrite E in Hfull.
      cbn [length] in Hfull. lia.
    + exists front, tail. split; [exact E|]. split.
      * destruct (Lru.container_ c) as [s next] eqn:Ec.
        unfold Lru.items in E. rewrite Ec in E. cbn [nodes] in E.
        rewrite E. apply rbegin_snoc.
      * rewrite H1, E.
        change ({| id := next_id (Lru.container_ c); element := v |}
                  :: front ++ [tail])
          with (({| id := next_id (Lru.container_ c); element := v |}
                   :: front) ++ [tail]).
        apply removelast_last.
  - clear c Hle. intros c v Hfresh Hroom.
    apply (LruFacts.fresh_not_banned _ _ key_eq_dec) in Hfresh.
    destruct (LruFacts.emplace_fresh _ _ _ _ _ _ Hfresh) as [H0 [H1 H2]].
    unfold Lru.capacity in *.
    destruct (Nat.ltb_spec (Lru.max_size_ c) (S (Lru.size c))) as [L|L];
      [lia|].
    split; [exact H0|]. split; [exact H1|].
    assert (Lru.size (snd (emplace v c)) = S (Lru.size c)) as Hsz.
    { unfold Lru.size, MultiIndex.size.
      fold (Lru.items (snd (emplace v c))). now rewrite H1. }
    split; [exact Hsz|]. rewrite Hsz, H2. exact Hroom.
  - split.
    + intros new_capacity.
      destruct (LruFacts.set_capacity_spec _ c new_capacity) as [H1 [H2 H3]].
      repeat split; auto. now rewrite H2.
    + intros NDEBUG ttl e calls Hnew.
      apply TtlFacts.ttl_run_size_le.
      unfold Ttl.new, Ttl.assert in Hnew.
      destruct NDEBUG; [|destruct (0 <? ttl)%Z; [|discriminate]];
        injection Hnew as <-; cbn; lia.
Qed.

(** C10.  [erase<Tag>(key)], of the container and of the TTL wrapper
    alike, removes every stored item whose key under the index is [key] -
    in particular all of them when the index is non-unique - and nothing
    else; the removed items are reachable through no index and are not in
    the recency list afterwards; the result is [true] exactly when at
    least one item was removed. *)
Theorem erase_removes_every_match
  (c : Lru.Container Value) (e : Ttl.ExpirableContainer Value)
  (ix : index_spec Value Key) (k : Key) :
  ((forall n, In n (Lru.items (snd (erase ix k c))) <->
              In n (Lru.items c) /\ key_of ix (element n) <> k) /\
   (forall ix' k' n,
      In n (index_equal_range key_eq_dec ix' k'
              (Lru.container_ (snd (erase ix k c)))) ->
      key_of ix (element n) <> k) /\
   (fst (erase ix k c) = true <->
    exists n, In n (Lru.items c) /\ key_of ix (element n) = k) /\
   Lru.size (snd (erase ix k c))
     + length (filter (key_matches key_eq_dec ix k) (Lru.items c))
     = Lru.size c) /\
  ((forall n, In n (Ttl.items (snd (Ttl.erase key_eq_dec ix k e))) <->
              In n (Ttl.items e) /\ key_of ix (Ttl.value (element n)) <> k) /\
   (forall ix' k' n,
      In n (index_equal_range key_eq_dec (Ttl.through_wrapper ix') k'
              (Lru.container_
                 (Ttl.container_ (snd (Ttl.erase key_eq_dec ix k e))))) ->
      key_of ix (Ttl.value (element n)) <> k) /\
   (fst (Ttl.erase key_eq_dec ix k e) = true <->
    exists n, In n (Ttl.items e) /\ key_of ix (Ttl.value (element n)) = k) /\
   Ttl.size (snd (Ttl.erase key_eq_dec ix k e))
     + length (filter (key_matches key_eq_dec (Ttl.through_wrapper ix) k)
                 (Ttl.items e))
     = Ttl.size e).
Proof.
  split.
  - apply LruFacts.erase_spec.
  - pose proof (LruFacts.erase_spec _ _ key_eq_dec (Ttl.container_ e)
                  (Ttl.through_wrapper ix) k) as H.
    unfold Ttl.erase, Ttl.items, Ttl.size.
    destruct (Lru.erase key_eq_dec (Ttl.through_wrapper ix) k
                (Ttl.container_ e)) as [r core].
    destruct H as [H1 [H2 [H3 H4]]].
    split; [exact H1|]. split; [intros ix' k' n; apply H2|].
    split; [exact H3|exact H4].
Qed.

(** X22.  [find] of the TTL wrapper, where the deadline does not
    overflow.  If no stored item has the key, the result is [end()] and
    nothing changes.  Otherwise the index finds an item with the key.
    When [last_accessed + ttl] of that item is representable in the 64-bit
    count of the clock: if [now > last_accessed + ttl] the item is
    unlinked - it is no longer in the recency list nor reachable through
    any index, [size()] is one less - and the result is [end()]; if not,
    its [last_accessed] is set to [now], its payload is kept, it is moved
    to the head of the recency list and the result points to it. *)
Theorem ttl_find
  (c : Ttl.ExpirableContainer Value) (ix : index_spec Value Key) (k : Key)
  (now : Z) :
  Ttl.wf c ->
  let r := Ttl.find key_eq_dec ix k now c in
  let found := index_find key_eq_dec (Ttl.through_wrapper ix) k
                 (Lru.container_ (Ttl.container_ c)) in
  ((forall n, In n (Ttl.items c) -> key_of ix (Ttl.value (element n)) <> k) ->
   r = (None, c)) /\
  ((exists n, In n (Ttl.items c) /\ key_of ix (Ttl.value (element n)) = k) ->
   exists n, found = Some n) /\
  (forall n, found = Some n ->
     In n (Ttl.items c) /\ key_of ix (Ttl.value (element n)) = k /\
     (Ttl.no_overflow (Ttl.ttl_ c) (Ttl.last_accessed (element n)) ->
      (now > Ttl.last_accessed (element n) + Ttl.ttl_ c * Ttl.ticks_per_ms)%Z ->
      fst r = None /\
      Ttl.items (snd r) = unlink (id n) (Ttl.items c) /\
      (forall n', In n' (Ttl.items (snd r)) <->
                  In n' (Ttl.items c) /\ id n' <> id n) /\
      (forall ix' k' n',
         In n' (index_equal_range key_eq_dec (Ttl.through_wrapper ix') k'
                  (Lru.container_ (Ttl.container_ (snd r)))) ->
         id n' <> id n) /\
      S (Ttl.size (snd r)) = Ttl.size c) /\
     (Ttl.no_overflow (Ttl.ttl_ c) (Ttl.last_accessed (element n)) ->
      (now <= Ttl.last_accessed (element n) + Ttl.ttl_ c * Ttl.ticks_per_ms)%Z ->
      fst r = Some (id n) /\
      Ttl.items (snd r)
        = {| id := id n;
             element := {| Ttl.value := Ttl.value (element n);
                           Ttl.last_accessed := now |} |}
          :: unlink (id n) (Ttl.items c) /\
      Ttl.size (snd r) = Ttl.size c)).
Proof.
  intros Hwf r found. subst r found. split; [|split].
  - intros Habs. apply TtlFacts.find_missing.
    now apply (index_find_None _ _ key_eq_dec).
  - intros [n [Hn Hk]].
    destruct (index_find key_eq_dec (Ttl.through_wrapper ix) k
                (Lru.container_ (Ttl.container_ c))) as [b|] eqn:F;
      [now exists b|].
    exfalso. exact (proj1 (index_find_None _ _ _ _ _ _) F n Hn Hk).
  - intros n F.
    destruct (index_find_Some _ _ _ _ _ _ _ F) as [Hn Hk].
    assert (deref (id n) (Ttl.items c) = Some n) as Hd
      by (now apply wf_deref).
    split; [exact Hn|]. split; [exact Hk|]. split.
    + intros Hrange Hexp.
      assert (Ttl.expired now (Ttl.ttl_ c) (element n) = true) as E
        by (now apply TtlFacts.expired_true_in_range).
      rewrite (TtlFacts.find_found_expired _ _ key_eq_dec _ _ _ _ _ F E).
      unfold Ttl.items, Ttl.size, Lru.size, MultiIndex.size in *.
      cbn [fst snd Ttl.with_container Lru.with_container Ttl.container_
             Lru.container_ index_erase nodes].
      assert (forall n', In n' (unlink (id n)
                                  (nodes (Lru.container_ (Ttl.container_ c))))
                <-> In n' (nodes (Lru.container_ (Ttl.container_ c)))
                    /\ id n' <> id n) as Hin
        by (intros n'; apply In_unlink; apply Hwf).
      repeat split; try (now apply Hin).
      * intros ix' k' n' H. apply In_equal_range in H. cbn [nodes] in H.
        now apply Hin.
      * now apply unlink_length with (n := n).
    + intros Hrange Hlive.
      assert (Ttl.expired now (Ttl.ttl_ c) (element n) = false) as E
        by (now apply TtlFacts.expired_false_in_range).
      rewrite (TtlFacts.find_found_live _ _ key_eq_dec _ _ _ _ _ F E).
      unfold Ttl.items, Ttl.size, Lru.size, MultiIndex.size in *. cbn [fst snd].
      unfold Ttl.with_container, Lru.with_container.
      cbn [Ttl.container_ Lru.container_].
      rewrite (relocate_assign_eq _ _ _ _ n Hd). cbn [nodes length].
      repeat split. now apply unlink_length with (n := n).
Qed.

(** X23.  [equal_range] of the TTL wrapper, where no deadline in the
    range overflows.  The loop visits every stored item with the key.
    When [last_accessed + ttl] of each of them is representable in the
    64-bit count of the clock, every one with [now > last_accessed + ttl]
    is erased, whatever came before it in the range; every other one has
    its [last_accessed] set to [now], keeps its payload and is moved to
    the head of the recency list in its turn, so the survivors end up at
    the head, the last one visited first; the other items keep their
    places.  The range returned is the range of the key in the container
    as the loop left it - the survivors, in the order of the index - which
    is what recomputing it after an erasure yields.  When every item of
    the range is expired the returned range is empty and all of them are
    removed. *)
Theorem ttl_equal_range
  (c : Ttl.ExpirableContainer Value) (ix : index_spec Value Key) (k : Key)
  (now : Z) :
  Ttl.wf c ->
  let range0 := index_equal_range key_eq_dec (Ttl.through_wrapper ix) k
                  (Lru.container_ (Ttl.container_ c)) in
  let r := Ttl.equal_range key_eq_dec ix k now c in
  let alive := fun n : node (Ttl.TimestampedValue Value) =>
    (now <=? Ttl.last_accessed (element n)
             + Ttl.ttl_ c * Ttl.ticks_per_ms)%Z in
  let stamped := fun n : node (Ttl.TimestampedValue Value) =>
    {| id := id n;
       element := {| Ttl.value := Ttl.value (element n);
                     Ttl.last_accessed := now |} |} in
  (forall n, In n range0 ->
             Ttl.no_overflow (Ttl.ttl_ c) (Ttl.last_accessed (element n))) ->
  (forall n, In n range0 <->
             In n (Ttl.items c) /\ key_of ix (Ttl.value (element n)) = k) /\
  (forall n, In n range0 ->
     (now > Ttl.last_accessed (element n) + Ttl.ttl_ c * Ttl.ticks_per_ms)%Z ->
     forall n', In n' (Ttl.items (snd r)) -> id n' <> id n) /\
  Ttl.items (snd r) =
    rev (map stamped (filter alive range0))
    ++ filter (fun n => negb (key_matches key_eq_dec
                                (Ttl.through_wrapper ix) k n))
         (Ttl.items c) /\
  fst r = map (@id _)
            (index_equal_range key_eq_dec (Ttl.through_wrapper ix) k
               (Lru.container_ (Ttl.container_ (snd r)))) /\
  fst r = map (@id _) (filter alive range0) /\
  ((forall n, In n range0 ->
      (now > Ttl.last_accessed (element n)
             + Ttl.ttl_ c * Ttl.ticks_per_ms)%Z) ->
   fst r = [] /\
   Ttl.size (snd r) + length range0 = Ttl.size c /\
   forall n', In n' (Ttl.items (snd r)) ->
              key_of ix (Ttl.value (element n')) <> k).
Proof.
  intros Hwf range0 r alive stamped Hno. subst r.
  assert (filter alive range0 = filter (Ttl.live now (Ttl.ttl_ c)) range0)
    as ->.
  { apply filter_ext_in. intros n Hn. unfold Ttl.live, alive.
    rewrite (TtlFacts.expired_in_range _ _ _ _ (Hno n Hn)).
    apply Z.leb_antisym. }
  change stamped with (Ttl.refreshed (Value := Value) now).
  clear alive stamped.
  rewrite (TtlFacts.equal_range_result _ _ key_eq_dec c ix k now Hwf).
  fold range0. cbn [fst snd].
  unfold Ttl.items at 2 4 5. cbn [Ttl.with_container Lru.with_container
    Ttl.container_ Lru.container_ nodes].
  assert (forall n, In n range0 <->
            In n (Ttl.items c) /\ key_of ix (Ttl.value (element n)) = k)
    as Hrange by (intros n; apply In_equal_range).
  assert (NoDup (map (@id _) range0)) as Hnd
    by (apply equal_range_NoDup, Hwf).
  split; [exact Hrange|]. split; [|split; [reflexivity|split; [|split]]].
  - intros n Hn Hexp n' Hn' Hid.
    apply in_app_or in Hn'. destruct Hn' as [Hn'|Hn'].
    + apply in_rev, in_map_iff in Hn'. destruct Hn' as [y [<- Hy]].
      apply filter_In in Hy. destruct Hy as [Hy Hl].
      assert (y = n) as -> by
        (apply (same_id_same_node _ range0); auto).
      apply negb_true_iff in Hl.
      apply (TtlFacts.expired_false_in_range _ _ _ _ (Hno n Hn)) in Hl. lia.
    + apply filter_In in Hn'. destruct Hn' as [Hn' Hk].
      apply Hrange in Hn. destruct Hn as [Hn Hkn].
      assert (n' = n) as -> by
        (apply (same_id_same_node _ (Ttl.items c)); auto; apply Hwf).
      apply negb_true_iff, (key_matches_false _ _ key_eq_dec) in Hk.
      now apply Hk.
  - rewrite TtlFacts.range_after_loop.
    + now rewrite TtlFacts.ids_refreshed.
    + exact Hnd.
    + apply equal_range_sorted.
    + intros n Hn. apply key_matches_true. now apply Hrange.
  - reflexivity.
  - intros Hall.
    assert (filter (Ttl.live now (Ttl.ttl_ c)) range0 = []) as ->.
    { apply filter_none. intros x Hx. unfold Ttl.live.
      apply negb_false_iff.
      apply (TtlFacts.expired_true_in_range _ _ _ _ (Hno x Hx)).
      exact (Hall x Hx). }
    cbn [map rev app]. split; [reflexivity|]. split.
    + unfold Ttl.size, Lru.size, MultiIndex.size.
      cbn [Ttl.with_container Lru.with_container Ttl.container_
             Lru.container_ nodes].
      unfold range0, index_equal_range.
      rewrite (Permutation_length (by_arrival_perm _ _)).
      unfold Ttl.items. rewrite Nat.add_comm. apply filter_length.
    + intros n' Hn'. apply filter_In in Hn'. destruct Hn' as [_ Hk].
      now apply negb_true_iff, (key_matches_false _ _ key_eq_dec) in Hk.
Qed.

(** C5, amended.  [cleanup_expired] removes a tail segment of the recency
    list.  Where [last_accessed + ttl] of the stored items is
    representable in the 64-bit count of the clock, every item it removes
    has [last_accessed + ttl < now], and it stops at the first tail that
    has not, so that nothing is removed when the tail is live, whatever
    lies ahead of it; what it removes when the sum overflows is not stated
    here.  It writes no [last_accessed].  Across any public call an item keeps its payload,
    and its [last_accessed] changes only in [find], [contains],
    [equal_range], or in [emplace] / [insert] - which stamps the item it
    inserts and also, when the insertion is banned, the existing item that
    banned it; the new value is the clock reading of the call, and no
    stored [last_accessed] is ahead of the last clock reading, so with a
    clock that does not run backwards [last_accessed] never decreases. *)
Theorem last_accessed_discipline (c : Ttl.ExpirableContainer Value) :
  Ttl.wf c ->
  (forall now, exists dropped,
     Ttl.items c = Ttl.items (Ttl.cleanup_expired now c) ++ dropped /\
     (forall n', In n' (Ttl.items (Ttl.cleanup_expired now c)) ->
                 In n' (Ttl.items c)) /\
     ((forall n, In n (Ttl.items c) ->
         Ttl.no_overflow (Ttl.ttl_ c) (Ttl.last_accessed (element n))) ->
      (forall n, In n dropped ->
         (Ttl.last_accessed (element n) + Ttl.ttl_ c * Ttl.ticks_per_ms
          < now)%Z) /\
     (forall n,
        rbegin (Lru.container_ (Ttl.container_ (Ttl.cleanup_expired now c)))
          = Some n ->
        (now <= Ttl.last_accessed (element n)
                + Ttl.ttl_ c * Ttl.ticks_per_ms)%Z))) /\
  (forall now n,
     rbegin (Lru.container_ (Ttl.container_ c)) = Some n ->
     Ttl.no_overflow (Ttl.ttl_ c) (Ttl.last_accessed (element n)) ->
     (now <= Ttl.last_accessed (element n)
             + Ttl.ttl_ c * Ttl.ticks_per_ms)%Z ->
     Ttl.items (Ttl.cleanup_expired now c) = Ttl.items c) /\
  (forall (o : Ttl.op Value Key) n n',
     In n (Ttl.items c) ->
     In n' (Ttl.items (Ttl.step key_eq_dec indices o c)) ->
     id n' = id n ->
     (forall now, Ttl.clock_of o = Some now ->
                  (Ttl.last_accessed (element n) <= now)%Z) ->
     Ttl.value (element n') = Ttl.value (element n) /\
     (Ttl.last_accessed (element n) <= Ttl.last_accessed (element n'))%Z /\
     (Ttl.last_accessed (element n') <> Ttl.last_accessed (element n) ->
      Ttl.is_access o || Ttl.is_insertion o = true /\
      Ttl.clock_of o = Some (Ttl.last_accessed (element n')))) /\
  (forall (o : Ttl.op Value Key) now,
     Ttl.clock_of o = Some now ->
     (forall n, In n (Ttl.items c) ->
                (Ttl.last_accessed (element n) <= now)%Z) ->
     forall n', In n' (Ttl.items (Ttl.step key_eq_dec indices o c)) ->
                (Ttl.last_accessed (element n') <= now)%Z).
Proof.
  intros Hwf. split; [|split; [|split]].
  - intros now.
    destruct (TtlFacts.cleanup_expired_items _ c now) as [d [H1 [H2 H3]]].
    assert (forall n', In n' (Ttl.items (Ttl.cleanup_expired now c)) ->
                       In n' (Ttl.items c)) as Hkept.
    { intros n' Hn'. rewrite H1. apply in_or_app. now left. }
    exists d. split; [exact H1|]. split; [exact Hkept|].
    intros Hno. split.
    + intros n Hn. rewrite forallb_forall in H2. specialize (H2 n Hn).
      assert (In n (Ttl.items c)) as Hin
        by (rewrite H1; apply in_or_app; now right).
      apply (TtlFacts.expired_true_in_range _ _ _ _ (Hno n Hin)) in H2. lia.
    + intros n Hn. rewrite Hn in H3.
      assert (In n (Ttl.items c)) as Hin
        by (apply Hkept; exact (rbegin_In _ _ _ Hn)).
      now apply (TtlFacts.expired_false_in_range _ _ _ _ (Hno n Hin)) in H3.
  - intros now n Hr Hno Hlive.
    apply TtlFacts.cleanup_live_tail with (n := n); [assumption|].
    now apply TtlFacts.expired_false_in_range.
  - intros o n n' Hn Hn' Hid Hclock.
    destruct (TtlFacts.step_items _ _ key_eq_dec indices o c n' Hwf Hn')
      as [H|[now [Hc [[Ha [y [Hy ->]]]|[Hi [Hfresh Hla]]]]]].
    + assert (n' = n) as ->
        by (apply (same_id_same_node _ (Ttl.items c)); auto; apply Hwf).
      split; [reflexivity|]. split; [lia|]. intros Hne. now destruct Hne.
    + assert (y = n) as ->
        by (apply (same_id_same_node _ (Ttl.items c)); auto; apply Hwf).
      cbn. repeat split; auto.
    + exfalso. destruct Hwf as [_ Hlt]. rewrite Forall_forall in Hlt.
      specialize (Hlt n Hn). lia.
  - intros o now Hc Hle n' Hn'.
    destruct (TtlFacts.step_items _ _ key_eq_dec indices o c n' Hwf Hn')
      as [H|[now' [Hc' [[Ha [y [Hy ->]]]|[Hi [Hfresh Hla]]]]]].
    + now apply Hle.
    + cbn. rewrite Hc in Hc'. injection Hc' as <-. lia.
    + rewrite Hc in Hc'. injection Hc' as <-. lia.
Qed.

(** C9, amended.  In a build with assertions enabled ([NDEBUG] not
    defined), the constructor of the TTL wrapper and [set_ttl] abort at
    once on a non-positive TTL, for every capacity and every non-positive
    duration: no cache is constructed and no TTL is stored. *)
Theorem non_positive_ttl_aborts_with_assertions
  (max_size : nat) (ttl : Z) (c : Ttl.ExpirableContainer Value) :
  (ttl <= 0)%Z ->
  Ttl.new Value false max_size ttl = Ttl.Aborted "TTL must be positive" /\
  Ttl.set_ttl false ttl c = Ttl.Aborted "TTL must be positive".
Proof.
  intros Hle. unfold Ttl.new, Ttl.set_ttl, Ttl.assert.
  destruct (Z.ltb_spec 0 ttl) as [L|L]; [lia|]. now split.
Qed.

End Core.

End Specification.

(** ** The scenarios of the test suites *)

Module Scenarios.
Import MultiIndex MultiIndexFacts Fixtures.

(** Distinct handles of a container given in full. *)
Ltac concrete_wf :=
  split; cbn;
  [ repeat (constructor; [cbn; intuition discriminate|]); constructor
  | repeat (constructor; [cbn; lia|]); constructor ].

(** A deadline that stays within the 64-bit range, at given numbers. *)
Ltac deadline_fits :=
  unfold Ttl.no_overflow, Ttl.representable; vm_compute;
  intuition discriminate.

(** C6.  At capacity 3, after [emplace] of a, b, c in that order, [find]
    of a and then of c, and [emplace] of a fresh d: b - and only b - has
    been evicted, and the recency list reads d, c, a from head to tail.
    In general [find] returns [end()] and changes nothing when no stored
    item has the key; otherwise it returns an iterator to an item with the
    key, which it has moved to the head of the recency list. *)
Theorem lru_order_after_accesses :
  (Lru.recency three_users = [charlie; bob; alice] /\
   Lru.recency after_accesses = [charlie; alice; bob] /\
   fst (Lru.emplace key_eq_dec UserCache david after_accesses) = true /\
   Lru.recency after_david = [david; charlie; alice] /\
   ~ In bob (Lru.recency after_david) /\
   Lru.size after_david = 3 /\
   fst (Lru.find key_eq_dec IdTag (KInt 2) after_david) = None) /\
  (forall (Value Key : Type)
          (key_eq_dec : forall a b : Key, {a = b} + {a <> b})
          (c : Lru.Container Value) (ix : index_spec Value Key) (k : Key),
     Lru.wf c ->
     match index_find key_eq_dec ix k (Lru.container_ c) with
     | Some n =>
         In n (Lru.items c) /\ key_of ix (element n) = k /\
         fst (Lru.find key_eq_dec ix k c) = Some (id n) /\
         Lru.items (snd (Lru.find key_eq_dec ix k c))
           = n :: unlink (id n) (Lru.items c) /\
         deref (id n) (Lru.items (snd (Lru.find key_eq_dec ix k c))) = Some n
     | None =>
         (forall n, In n (Lru.items c) -> key_of ix (element n) <> k) /\
         Lru.find key_eq_dec ix k c = (None, c)
     end).
Proof.
  split.
  - repeat split; try reflexivity.
    vm_compute. intuition discriminate.
  - intros Value Key key_eq_dec c ix k Hwf.
    pose proof (LruFacts.find_items _ _ key_eq_dec c ix k Hwf) as H.
    destruct (index_find key_eq_dec ix k (Lru.container_ c)) as [n|].
    + destruct H as [H1 [H2 [H3 H4]]]. repeat split; auto.
      rewrite H2. simpl. now rewrite Nat.eqb_refl.
    + destruct H as [H1 H2]. now split.
Qed.

(** C7.  After five insertions at capacity 5, [set_capacity(2)] leaves
    [capacity() == 2] and the two most recently used items, which are
    still found; the three least recently used ones are gone.  In general
    [set_capacity(n)] keeps the first [n] items of the recency list, head
    first, and drops the rest. *)
Theorem set_capacity_evicts_from_the_tail :
  (Lru.recency five_users = [eve; david; charlie; bob; alice] /\
   Lru.recency shrunk = [eve; david] /\
   Lru.recency five_users = Lru.recency shrunk ++ [charlie; bob; alice] /\
   Lru.capacity shrunk = 2 /\
   Lru.size five_users - Lru.size shrunk = 3 /\
   fst (Lru.find key_eq_dec IdTag (KInt 5) shrunk) = Some 4 /\
   fst (Lru.find key_eq_dec IdTag (KInt 4) shrunk) = Some 3 /\
   fst (Lru.find key_eq_dec IdTag (KInt 3) shrunk) = None /\
   fst (Lru.find key_eq_dec IdTag (KInt 2) shrunk) = None /\
   fst (Lru.find key_eq_dec IdTag (KInt 1) shrunk) = None) /\
  (forall (Value : Type) (c : Lru.Container Value) (new_capacity : nat),
     Lru.items (Lru.set_capacity new_capacity c)
       = firstn new_capacity (Lru.items c) /\
     Lru.items c
       = Lru.items (Lru.set_capacity new_capacity c)
         ++ skipn new_capacity (Lru.items c) /\
     Lru.capacity (Lru.set_capacity new_capacity c) = new_capacity).
Proof.
  split.
  - repeat split; reflexivity.
  - intros Value c new_capacity.
    destruct (LruFacts.set_capacity_spec _ c new_capacity) as [H1 [H2 _]].
    repeat split; auto. rewrite H1. symmetry. apply firstn_skipn.
Qed.

(** C8.  [find_no_update] of the TTL wrapper returns what the index
    lookup returns, whatever the clock and the TTL, and leaves the cache as
    it was: nothing is erased, no [last_accessed] and no position in the
    recency list changes, and a later [find] behaves as if the call had
    not been made.  It can return an item that is past its TTL.  With a
    TTL of 80 ms, an item inserted at 0 and looked up with
    [find_no_update] (at 50 ms) is reported absent by [find] at 100 ms. *)
Theorem find_no_update_is_read_only :
  (forall (Value Key : Type)
          (key_eq_dec : forall a b : Key, {a = b} + {a <> b})
          (c : Ttl.ExpirableContainer Value) (ix : index_spec Value Key)
          (k : Key),
     snd (Ttl.find_no_update key_eq_dec ix k c) = c /\
     fst (Ttl.find_no_update key_eq_dec ix k c)
       = option_map (@id _)
           (index_find key_eq_dec (Ttl.through_wrapper ix) k
              (Lru.container_ (Ttl.container_ c))) /\
     forall now,
       Ttl.find key_eq_dec ix k now
         (snd (Ttl.find_no_update key_eq_dec ix k c))
       = Ttl.find key_eq_dec ix k now c) /\
  (Ttl.new User false 100 80 = Ttl.Returned (fresh_cache 100 80) /\
   fst (Ttl.find_no_update key_eq_dec IdTag (KInt 1) alice_cached) = Some 0 /\
   fst (Ttl.find key_eq_dec IdTag (KInt 1) (ms 100)
          (snd (Ttl.find_no_update key_eq_dec IdTag (KInt 1) alice_cached)))
     = None /\
   Ttl.size (snd (Ttl.find key_eq_dec IdTag (KInt 1) (ms 100)
                    (snd (Ttl.find_no_update key_eq_dec IdTag (KInt 1)
                            alice_cached)))) = 0 /\
   fst (Ttl.find key_eq_dec IdTag (KInt 1) (ms 50) alice_cached) = Some 0 /\
   fst (Ttl.find key_eq_dec IdTag (KInt 1) (ms 100)
          (snd (Ttl.find key_eq_dec IdTag (KInt 1) (ms 50) alice_cached)))
     = Some 0).
Proof.
  split.
  - intros Value Key key_eq_dec c ix k.
    assert (snd (Ttl.find_no_update key_eq_dec ix k c) = c) as H
      by (now destruct c).
    split; [exact H|]. split; [reflexivity|].
    intros now. now rewrite H.
  - repeat split; reflexivity.
Qed.

(** *** The claims that fail as stated, at an input *)

(** C1, as stated, fails: after [emplace] of a payload with the id of the
    stored user, the stored user still has the fields it had, and the new
    payload is nowhere in the cache. *)
Lemma emplace_existing_item_payload_not_replaced :
  Lru.wf one_user /\ Lru.collides UserCache alicia one_user /\
  Lru.recency one_user = [alice] /\
  fst (Lru.emplace key_eq_dec UserCache alicia one_user) = false /\
  Lru.recency (snd (Lru.emplace key_eq_dec UserCache alicia one_user))
    = [alice] /\
  ~ In alicia
      (Lru.recency (snd (Lru.emplace key_eq_dec UserCache alicia one_user))).
Proof.
  split; [concrete_wf|]. split.
  - exists IdTag, {| id := 0; element := alice |}. cbn. tauto.
  - repeat split; try reflexivity. vm_compute. intuition discriminate.
Qed.

(** C5, as stated, fails: an [emplace] that is banned inserts nothing and
    is none of [find], [contains], [equal_range], yet it writes the
    [last_accessed] of the existing item. *)
Lemma banned_emplace_writes_last_accessed :
  Ttl.wf alice_cached /\
  fst (Ttl.emplace key_eq_dec EasierUserCache alicia (ms 10) alice_cached)
    = (0, false) /\
  Ttl.is_access (Ttl.Emplace (Key := key) alicia (ms 10)) = false /\
  map (fun n => (id n, Ttl.last_accessed (element n))) (Ttl.items alice_cached)
    = [(0, 0%Z)] /\
  map (fun n => (id n, Ttl.last_accessed (element n)))
    (Ttl.items (Ttl.step key_eq_dec EasierUserCache
                  (Ttl.Emplace alicia (ms 10)) alice_cached))
    = [(0, ms 10)].
Proof.
  split; [concrete_wf|]. repeat split; reflexivity.
Qed.

(** C2, at a failing input.  The constructor accepts a TTL of
    [milliseconds::max()], with assertions enabled.  An item inserted at 0
    is then within its TTL at every reading of the clock - at 0 and 1 ms
    after, [now > last_accessed + ttl] is false of the numbers - but the
    sum [it->last_accessed + ttl_] has wrapped around to 1 ms before the
    insertion, so that [find] takes the item for expired, erases it and
    returns [end()]. *)
Theorem find_erases_a_live_item_at_max_ttl :
  Ttl.new User false 100 milliseconds_max
    = Ttl.Returned (fresh_cache 100 milliseconds_max) /\
  Ttl.wf alice_forever /\
  map (fun n => (id n, Ttl.value (element n), Ttl.last_accessed (element n)))
    (Ttl.items alice_forever) = [(0, alice, 0%Z)] /\
  Ttl.ttl alice_forever = milliseconds_max /\
  (ms 0 <= 0 + milliseconds_max * Ttl.ticks_per_ms)%Z /\
  (ms 1 <= 0 + milliseconds_max * Ttl.ticks_per_ms)%Z /\
  ~ Ttl.no_overflow milliseconds_max 0 /\
  Ttl.deadline milliseconds_max
    {| Ttl.value := alice; Ttl.last_accessed := 0 |} = (- ms 1)%Z /\
  fst (Ttl.find key_eq_dec IdTag (KInt 1) (ms 0) alice_forever) = None /\
  Ttl.items (snd (Ttl.find key_eq_dec IdTag (KInt 1) (ms 0) alice_forever))
    = [] /\
  fst (Ttl.find key_eq_dec IdTag (KInt 1) (ms 1) alice_forever) = None /\
  Ttl.items (snd (Ttl.find key_eq_dec IdTag (KInt 1) (ms 1) alice_forever))
    = [].
Proof.
  split; [reflexivity|]. split; [concrete_wf|].
  split; [reflexivity|]. split; [reflexivity|].
  split; [vm_compute; discriminate|]. split; [vm_compute; discriminate|].
  split.
  - intros [H _]. vm_compute in H. destruct H as [_ H]. now apply H.
  - repeat split; reflexivity.
Qed.

(** C4, at a failing input.  With a TTL of [milliseconds::max()], two
    items of one name inserted at 0 are within their TTL 1 ms later, but
    the sum [it->last_accessed + ttl_] has wrapped around: [equal_range]
    erases both and returns the empty range.  This is the defect of the
    failing input of C2, in the loop of [equal_range]. *)
Theorem equal_range_erases_live_items_at_max_ttl :
  Ttl.wf two_johns_forever /\
  map (fun n => (id n, Ttl.value (element n), Ttl.last_accessed (element n)))
    (Ttl.items two_johns_forever) = [(1, john2, 0%Z); (0, john1, 0%Z)] /\
  Ttl.ttl two_johns_forever = milliseconds_max /\
  (forall n, In n (Ttl.items two_johns_forever) ->
     key_of NameTag (Ttl.value (element n)) = KStr "John" /\
     (ms 1 <= Ttl.last_accessed (element n)
              + milliseconds_max * Ttl.ticks_per_ms)%Z) /\
  fst (Ttl.equal_range key_eq_dec NameTag (KStr "John") (ms 1)
         two_johns_forever) = [] /\
  Ttl.items (snd (Ttl.equal_range key_eq_dec NameTag (KStr "John") (ms 1)
                    two_johns_forever)) = [].
Proof.
  split; [concrete_wf|]. split; [reflexivity|]. split; [reflexivity|].
  split; [|split; reflexivity].
  intros n Hn. vm_compute in Hn.
  destruct Hn as [<-|[<-|[]]]; (split; [reflexivity|vm_compute; discriminate]).
Qed.

(** C9, as stated, fails: compiled with [NDEBUG] the constructor and
    [set_ttl] return normally on a non-positive TTL and store it. *)
Lemma non_positive_ttl_accepted_under_NDEBUG :
  Ttl.new User true 3 0 = Ttl.Returned (fresh_cache 3 0) /\
  Ttl.set_ttl true (-5) (fresh_cache 3 80) = Ttl.Returned (fresh_cache 3 (-5)).
Proof. split; reflexivity. Qed.

(** *** The general statements, at an input *)

(** C1 at [two_users]: a payload with the id of the first user and the
    email of the second; the index on the id is declared first, and the
    first user is the one moved to the head. *)
Lemma emplace_existing_item_witness :
  Lru.wf two_users /\ Lru.collides UserCache alice_or_bob two_users /\
  fst (Lru.emplace key_eq_dec UserCache alice_or_bob two_users) = false /\
  Lru.size (snd (Lru.emplace key_eq_dec UserCache alice_or_bob two_users))
    = Lru.size two_users /\
  Lru.recency two_users = [bob; alice] /\
  Lru.recency (snd (Lru.emplace key_eq_dec UserCache alice_or_bob two_users))
    = [alice; bob].
Proof.
  assert (Lru.wf two_users) as Hwf by concrete_wf.
  assert (Lru.collides UserCache alice_or_bob two_users) as Hcol.
  { exists EmailTag, {| id := 1; element := bob |}. cbn. tauto. }
  destruct (Specification.emplace_existing_item _ _ key_eq_dec UserCache
              two_users alice_or_bob Hwf Hcol) as [H1 [H2 _]].
  exact (conj Hwf (conj Hcol (conj H1 (conj H2 (conj eq_refl eq_refl))))).
Defined.

(** X22 at [alice_cached]: a lookup 100 ms after the insertion, TTL
    80 ms. *)
Lemma ttl_find_witness :
  Ttl.wf alice_cached /\
  Ttl.no_overflow 80 0 /\
  fst (Ttl.find key_eq_dec IdTag (KInt 1) (ms 100) alice_cached) = None /\
  S (Ttl.size (snd (Ttl.find key_eq_dec IdTag (KInt 1) (ms 100) alice_cached)))
    = Ttl.size alice_cached.
Proof.
  assert (Ttl.wf alice_cached) as Hwf by concrete_wf.
  destruct (Specification.ttl_find _ _ key_eq_dec alice_cached IdTag (KInt 1)
              (ms 100) Hwf) as [_ [_ H]].
  destruct (H {| id := 0;
                 element := {| Ttl.value := alice; Ttl.last_accessed := 0 |} |}
              eq_refl) as [_ [_ [Hexp _]]].
  assert (Ttl.no_overflow 80 0) as Hfits by deadline_fits.
  destruct Hexp as [H1 [_ [_ [_ H2]]]]; [exact Hfits|reflexivity|].
  exact (conj Hwf (conj Hfits (conj H1 H2))).
Defined.

(** C3 at capacity 3: a fourth user after three insertions evicts the
    user at the tail. *)
Lemma capacity_is_never_exceeded_witness :
  1 <= 3 /\ Lru.size three_users <= Lru.capacity three_users /\
  ~ Lru.collides UserCache david three_users /\
  Lru.recency three_users = [charlie; bob; alice] /\
  fst (Lru.emplace key_eq_dec UserCache david three_users) = true /\
  (exists front tail,
     Lru.items three_users = front ++ [tail] /\
     rbegin (Lru.container_ three_users) = Some tail /\
     Lru.items (snd (Lru.emplace key_eq_dec UserCache david three_users))
       = {| id := 3; element := david |} :: front) /\
  Lru.recency (snd (Lru.emplace key_eq_dec UserCache david three_users))
    = [david; charlie; bob].
Proof.
  assert (1 <= 3) as Hcap by lia.
  assert (~ Lru.collides UserCache david three_users) as Hfresh.
  { intros [ix [n [Hix [Hu [Hn Hk]]]]].
    destruct Hix as [<-|[<-|[<-|[]]]];
      destruct Hn as [<-|[<-|[<-|[]]]]; discriminate. }
  destruct (Specification.capacity_is_never_exceeded _ _ key_eq_dec UserCache
              3 [Lru.Emplace alice; Lru.Emplace bob; Lru.Emplace charlie]
              Hcap) as [Hle [Hevict _]].
  destruct (Hevict three_users david Hfresh Hcap eq_refl)
    as [Htrue [_ [Htail _]]].
  exact (conj Hcap (conj Hle (conj Hfresh
           (conj eq_refl (conj Htrue (conj Htail eq_refl)))))).
Defined.

(** X23 at [two_johns]: both items of the range are 70 ms old, TTL
    50 ms. *)
Lemma ttl_equal_range_witness :
  Ttl.wf two_johns /\
  Ttl.no_overflow 50 0 /\
  fst (Ttl.equal_range key_eq_dec NameTag (KStr "John") (ms 70) two_johns)
    = [] /\
  Ttl.size (snd (Ttl.equal_range key_eq_dec NameTag (KStr "John") (ms 70)
                   two_johns)) + 2 = 2.
Proof.
  assert (Ttl.wf two_johns) as Hwf by concrete_wf.
  assert (Ttl.no_overflow 50 0) as Hfits by deadline_fits.
  destruct (Specification.ttl_equal_range _ _ key_eq_dec two_johns NameTag
              (KStr "John") (ms 70) Hwf) as [_ [_ [_ [_ [_ H]]]]].
  - intros n Hn. vm_compute in Hn.
    destruct Hn as [<-|[<-|[]]]; exact Hfits.
  - destruct H as [H1 [H2 _]].
    + intros n Hn. vm_compute in Hn.
      destruct Hn as [<-|[<-|[]]]; reflexivity.
    + exact (conj Hwf (conj Hfits (conj H1 H2))).
Defined.

(** C5 at [alice_cached]: a sweep 10 ms after the insertion, TTL 80 ms. *)
Lemma last_accessed_discipline_witness :
  Ttl.wf alice_cached /\
  Ttl.no_overflow 80 0 /\
  Ttl.items (Ttl.cleanup_expired (ms 10) alice_cached) = Ttl.items alice_cached.
Proof.
  assert (Ttl.wf alice_cached) as Hwf by concrete_wf.
  assert (Ttl.no_overflow 80 0) as Hfits by deadline_fits.
  destruct (Specification.last_accessed_discipline _ _ key_eq_dec
              EasierUserCache alice_cached Hwf) as [_ [H _]].
  refine (conj Hwf (conj Hfits (H (ms 10) _ eq_refl Hfits _))).
  vm_compute. discriminate.
Defined.

(** C9 at a TTL of zero. *)
Lemma non_positive_ttl_aborts_with_assertions_witness :
  (0 <= 0)%Z /\
  Ttl.new User false 3 0 = Ttl.Aborted "TTL must be positive" /\
  Ttl.set_ttl false 0 (fresh_cache 3 80) = Ttl.Aborted "TTL must be positive".
Proof.
  assert (0 <= 0)%Z as Hle by lia.
  exact (conj Hle
    (Specification.non_positive_ttl_aborts_with_assertions User 3 0
       (fresh_cache 3 80) Hle)).
Defined.

(** C6 at [three_users]: [find<IdTag>(1)]. *)
Lemma lru_order_after_accesses_witness :
  Lru.wf three_users /\
  fst (Lru.find key_eq_dec IdTag (KInt 1) three_users) = Some 0.
Proof.
  assert (Lru.wf three_users) as Hwf by concrete_wf.
  pose proof (proj2 lru_order_after_accesses User key key_eq_dec three_users
                IdTag (KInt 1) Hwf) as H.
  destruct H as [_ [_ [H _]]].
  exact (conj Hwf H).
Defined.

End Scenarios.

(* ================================================================== *)
(** * Part IV. Further behaviour of the two classes                     *)
(* ================================================================== *)

(** ** More on nodes and indices *)

Module IndexFacts.
Import MultiIndex MultiIndexFacts.

Section Facts.

Variables Value Key : Type.
Variable key_eq_dec : forall a b : Key, {a = b} + {a <> b}.

Abbreviation node := (node Value).
Abbreviation ids := (map (@id Value)).

Implicit Types (s l : list node) (n : node) (it : nat).
Implicit Types (m : multi_index_container Value).

Lemma In_unlink_sub it s x : In x (unlink it s) -> In x s.
Proof.
  induction s as [|a r IH]; simpl; [easy|].
  destruct (id a =? it); [now right|].
  intros [<-|H]; [now left|right; now apply IH].
Qed.

Lemma unlink_head n s : unlink (id n) (n :: s) = s.
Proof. simpl. now rewrite Nat.eqb_refl. Qed.

Lemma relocate_perm it s n :
  deref it s = Some n -> Permutation (n :: unlink it s) s.
Proof.
  induction s as [|a r IH]; simpl; [discriminate|].
  destruct (id a =? it).
  - now intros [= <-].
  - intros H. rewrite perm_swap. constructor. now apply IH.
Qed.

Lemma Permutation_filter (A : Type) (p : A -> bool) (xs ys : list A) :
  Permutation xs ys -> Permutation (filter p xs) (filter p ys).
Proof.
  induction 1 as [|x xs ys _ IH|x y xs|xs ys zs _ IH1 _ IH2]; simpl.
  - constructor.
  - destruct (p x); [now constructor|assumption].
  - destruct (p x), (p y); try reflexivity. apply perm_swap.
  - now rewrite IH1.
Qed.

Lemma filter_comm (A : Type) (p q : A -> bool) (xs : list A) :
  filter p (filter q xs) = filter q (filter p xs).
Proof.
  induction xs as [|x r IH]; simpl; [reflexivity|].
  destruct (p x) eqn:P, (q x) eqn:Q; simpl; rewrite ?P, ?Q, IH; reflexivity.
Qed.

(** The order of an index does not depend on the order of the recency
    list. *)
Lemma by_arrival_perm_eq l l' :
  NoDup (ids l) -> Permutation l l' -> by_arrival l' = by_arrival l.
Proof.
  intros Hnd Hp. apply by_arrival_of_perm.
  - eapply Permutation_NoDup; [|exact Hnd].
    apply Permutation_map. symmetry. apply by_arrival_perm.
  - rewrite by_arrival_perm. exact Hp.
  - apply by_arrival_sorted.
Qed.

Lemma equal_range_perm (ix : index_spec Value Key) k m m' :
  NoDup (ids (nodes m)) -> Permutation (nodes m) (nodes m') ->
  index_equal_range key_eq_dec ix k m' = index_equal_range key_eq_dec ix k m.
Proof.
  intros Hnd Hp. unfold index_equal_range. apply by_arrival_perm_eq.
  - now apply NoDup_ids_filter.
  - now apply Permutation_filter.
Qed.

(** *** Unique keys *)

Lemma keys_unique_sub (indices : list (index_spec Value Key)) s s' :
  (forall x, In x s' -> In x s) ->
  keys_unique indices s -> keys_unique indices s'.
Proof.
  intros Hsub Hu ix a b Hix Hun Ha Hb Hk.
  apply (Hu ix a b); auto.
Qed.

Lemma keys_unique_cons (indices : list (index_spec Value Key)) s n :
  first_ban key_eq_dec indices (element n) s = None ->
  keys_unique indices s -> keys_unique indices (n :: s).
Proof.
  intros Hban Hu ix a b Hix Hun [<-|Ha] [<-|Hb] Hk.
  - reflexivity.
  - exfalso.
    apply (first_ban_None _ _ key_eq_dec _ _ _ Hban ix b Hix Hun Hb).
    now symmetry.
  - exfalso.
    now apply (first_ban_None _ _ key_eq_dec _ _ _ Hban ix a Hix Hun Ha).
  - now apply (Hu ix).
Qed.

Lemma keys_unique_origin (indices : list (index_spec Value Key)) s s' :
  NoDup (ids s') ->
  (forall x', In x' s' ->
     exists x, In x s /\ id x = id x' /\
               forall ix, In ix indices ->
                          key_of ix (element x') = key_of ix (element x)) ->
  keys_unique indices s -> keys_unique indices s'.
Proof.
  intros Hnd Horig Hu ix a' b' Hix Hun Ha Hb Hk.
  destruct (Horig a' Ha) as [a [Hain [Haid Hak]]].
  destruct (Horig b' Hb) as [b [Hbin [Hbid Hbk]]].
  apply (same_id_same_node _ s'); auto.
  rewrite <- Haid, <- Hbid. f_equal.
  apply (Hu ix); auto.
  rewrite <- (Hak ix Hix), <- (Hbk ix Hix). exact Hk.
Qed.

(** Nothing bans an insertion into an empty container. *)
Lemma first_ban_nil (ixs : list (index_spec Value Key)) (v : Value) :
  first_ban key_eq_dec ixs v [] = None.
Proof.
  induction ixs as [|ix r IH]; [reflexivity|].
  cbn [first_ban]. unfold banned_by.
  destruct (unique ix); exact IH.
Qed.


End Facts.

End IndexFacts.

(** ** The LRU container: lookups, insertions and evictions together *)

Module LruBehaviour.
Import MultiIndex MultiIndexFacts IndexFacts Fixtures.

Section Core.

Variables Value Key : Type.
Variable key_eq_dec : forall a b : Key, {a = b} + {a <> b}.
Variable indices : list (index_spec Value Key).

Abbreviation Container := (Lru.Container Value).
Abbreviation emplace := (Lru.emplace key_eq_dec indices).
Abbreviation find := (Lru.find key_eq_dec).
Abbreviation contains := (Lru.contains key_eq_dec).
Abbreviation erase := (Lru.erase key_eq_dec).
Abbreviation step := (Lru.step key_eq_dec indices).
Abbreviation run := (Lru.run key_eq_dec indices).

Implicit Types (c : Container) (v : Value) (k : Key).
Implicit Types (ix : index_spec Value Key) (n : node Value).

Lemma relocate_sub it (m : multi_index_container Value) x :
  In x (nodes (relocate_front it m)) -> In x (nodes m).
Proof.
  unfold relocate_front.
  destruct (deref it (nodes m)) as [n|] eqn:E; [|easy].
  simpl. intros [<-|H].
  - now destruct (deref_Some _ _ _ _ E).
  - now apply In_unlink_sub in H.
Qed.

Lemma relocate_twice it (m : multi_index_container Value) n :
  deref it (nodes m) = Some n ->
  relocate_front it (relocate_front it m) = relocate_front it m.
Proof.
  intros H. destruct (deref_Some _ _ _ _ H) as [_ Hid].
  unfold relocate_front. rewrite H. cbn [nodes next_id deref unlink].
  apply Nat.eqb_eq in Hid. now rewrite Hid.
Qed.

Lemma removelast_cons (A : Type) (a : A) (xs : list A) :
  xs <> [] -> removelast (a :: xs) = a :: removelast xs.
Proof. intros H. simpl. now destruct xs. Qed.

Lemma emplace_sub c v x :
  In x (Lru.items (snd (emplace v c))) ->
  x = {| id := next_id (Lru.container_ c); element := v |} \/
  In x (Lru.items c).
Proof.
  destruct (first_ban key_eq_dec indices v (Lru.items c)) as [b|] eqn:E.
  - rewrite (LruFacts.emplace_banned _ _ _ _ _ _ _ E).
    unfold Lru.items. cbn. intros H. right. now apply relocate_sub in H.
  - destruct (LruFacts.emplace_fresh _ _ _ _ _ _ E) as [_ [H _]].
    rewrite H. intros Hx.
    assert (In x ({| id := next_id (Lru.container_ c); element := v |}
                    :: Lru.items c)) as Hx'.
    { destruct (Lru.max_size_ c <? S (Lru.size c));
        [now apply In_removelast|assumption]. }
    destruct Hx' as [<-|Hx']; auto.
Qed.

Lemma emplace_keys_unique c v :
  keys_unique indices (Lru.items c) ->
  keys_unique indices (Lru.items (snd (emplace v c))).
Proof.
  intros Hu.
  destruct (first_ban key_eq_dec indices v (Lru.items c)) as [b|] eqn:E.
  - apply keys_unique_sub with (s := Lru.items c); [|exact Hu].
    intros x Hx. destruct (emplace_sub _ _ _ Hx) as [->|H]; [|exact H].
    rewrite (LruFacts.emplace_banned _ _ _ _ _ _ _ E) in Hx.
    unfold Lru.items in Hx. cbn in Hx. now apply relocate_sub in Hx.
  - apply keys_unique_sub
      with (s := {| id := next_id (Lru.container_ c); element := v |}
                   :: Lru.items c).
    + intros x Hx. destruct (emplace_sub _ _ _ Hx) as [->|H];
        [now left|now right].
    + now apply (keys_unique_cons _ _ key_eq_dec).
Qed.

Lemma find_sub c ix k x :
  In x (Lru.items (snd (find ix k c))) -> In x (Lru.items c).
Proof.
  unfold Lru.find.
  destruct (index_find key_eq_dec ix k (Lru.container_ c)); [|easy].
  unfold Lru.items. cbn. apply relocate_sub.
Qed.

Lemma step_keys_unique (o : Lru.op Value Key) c :
  keys_unique indices (Lru.items c) ->
  keys_unique indices (Lru.items (step o c)).
Proof.
  intros Hu. destruct o as [v|v|ix k|ix k|ix k|cap|]; cbn [Lru.step].
  - now apply emplace_keys_unique.
  - now apply emplace_keys_unique.
  - apply keys_unique_sub with (s := Lru.items c); [|exact Hu].
    intros x. apply find_sub.
  - rewrite LruFacts.contains_snd.
    apply keys_unique_sub with (s := Lru.items c); [|exact Hu].
    intros x. apply find_sub.
  - apply keys_unique_sub with (s := Lru.items c); [|exact Hu].
    intros x Hx. unfold Lru.items, Lru.erase in *. cbn in Hx.
    apply filter_In in Hx. tauto.
  - apply keys_unique_sub with (s := Lru.items c); [|exact Hu].
    intros x Hx.
    destruct (LruFacts.set_capacity_spec _ c cap) as [H _].
    rewrite H in Hx. now apply In_firstn in Hx.
  - intros ix a b _ _ [].
Qed.

Lemma run_keys_unique (ops : list (Lru.op Value Key)) c :
  keys_unique indices (Lru.items c) ->
  keys_unique indices (Lru.items (run ops c)).
Proof.
  revert c. induction ops as [|o ops IH]; intros c Hu; simpl; [assumption|].
  apply IH. now apply step_keys_unique.
Qed.

(** What holds of every cache reached from the constructor. *)
Lemma reached (cap : nat) (ops : list (Lru.op Value Key)) :
  Lru.wf (run ops (Lru.new Value cap)) /\
  keys_unique indices (Lru.items (run ops (Lru.new Value cap))) /\
  Lru.size (run ops (Lru.new Value cap))
    <= Lru.capacity (run ops (Lru.new Value cap)).
Proof.
  split; [|split].
  - apply LruFacts.wf_run, LruFacts.wf_new.
  - apply run_keys_unique. intros ix a b _ _ [].
  - apply LruFacts.run_size_le. cbn. lia.
Qed.

(** X1.  Whatever the calls made on a cache since its construction, no
    two stored items have the same key under an index declared unique, and
    every stored item is held by one node of its own. *)
Theorem unique_keys_are_kept (cap : nat) (ops : list (Lru.op Value Key)) :
  keys_unique indices (Lru.items (run ops (Lru.new Value cap))) /\
  NoDup (map (@id Value) (Lru.items (run ops (Lru.new Value cap)))) /\
  (forall ix k,
     In ix indices -> unique ix = true ->
     length (index_equal_range key_eq_dec ix k
               (Lru.container_ (run ops (Lru.new Value cap)))) <= 1).
Proof.
  destruct (reached cap ops) as [Hwf [Hu _]].
  split; [exact Hu|]. split; [apply Hwf|].
  intros ix k Hix Hun.
  destruct (index_equal_range key_eq_dec ix k
              (Lru.container_ (run ops (Lru.new Value cap))))
    as [|a [|b r]] eqn:E; simpl; try lia.
  exfalso.
  assert (In a (a :: b :: r)) as Ha by now left.
  assert (In b (a :: b :: r)) as Hb by (right; now left).
  rewrite <- E in Ha, Hb.
  apply In_equal_range in Ha, Hb.
  assert (a = b) as Hab.
  { apply (Hu ix); try tauto. destruct Ha as [_ ->]. now destruct Hb. }
  pose proof (equal_range_NoDup _ _ key_eq_dec ix k _ (proj1 Hwf)) as Hnd.
  rewrite E, Hab in Hnd. simpl in Hnd.
  inversion Hnd as [|x xs Hnotin _]. apply Hnotin. now left.
Qed.

Lemma contains_true_iff c ix k :
  fst (contains ix k c) = true <->
  exists n, In n (Lru.items c) /\ key_of ix (element n) = k.
Proof.
  unfold Lru.contains, Lru.find.
  destruct (index_find key_eq_dec ix k (Lru.container_ c)) as [n|] eqn:E;
    cbn [fst].
  - split; [|reflexivity]. intros _. exists n.
    now apply index_find_Some in E.
  - split; [discriminate|]. intros [n [Hn Hk]].
    exfalso. exact (proj1 (index_find_None _ _ _ _ _ _) E n Hn Hk).
Qed.

(** The recency list after an insertion into a cache of capacity at
    least 1 that holds no more than its capacity. *)
Lemma emplace_fresh_head c v :
  1 <= Lru.capacity c -> Lru.size c <= Lru.capacity c ->
  fst (emplace v c) = true ->
  exists rest,
    Lru.items (snd (emplace v c))
      = {| id := next_id (Lru.container_ c); element := v |} :: rest /\
    (rest = Lru.items c \/
     (rest = removelast (Lru.items c) /\ Lru.size c = Lru.capacity c)) /\
    (forall x, In x rest -> In x (Lru.items c)).
Proof.
  unfold Lru.capacity. intros Hcap Hle Hfresh.
  apply LruFacts.emplace_fst in Hfresh.
  destruct (LruFacts.emplace_fresh _ _ _ _ _ _ Hfresh) as [_ [H _]].
  rewrite H.
  destruct (Nat.ltb_spec (Lru.max_size_ c) (S (Lru.size c))) as [L|L].
  - exists (removelast (Lru.items c)). split; [|split].
    + apply removelast_cons. unfold Lru.size, MultiIndex.size in *.
      fold (Lru.items c) in *. destruct (Lru.items c); [simpl in *; lia|easy].
    + right. split; [reflexivity|lia].
    + intros x. apply In_removelast.
  - exists (Lru.items c). auto.
Qed.

(** The item an [emplace] has inserted, looked up. *)
Lemma inserted_item_is_found
  (cap : nat) (ops : list (Lru.op Value Key)) (v : Value) :
  let c := run ops (Lru.new Value cap) in
  let c' := snd (emplace v c) in
  1 <= Lru.capacity c -> fst (emplace v c) = true ->
  hd_error (Lru.recency c') = Some v /\
  (forall ix, fst (contains ix (key_of ix v) c') = true) /\
  (forall ix, In ix indices -> unique ix = true ->
     fst (find ix (key_of ix v) c') = Some (next_id (Lru.container_ c)) /\
     deref (next_id (Lru.container_ c)) (Lru.items c')
       = Some {| id := next_id (Lru.container_ c); element := v |}).
Proof.
  intros c c' Hcap Hfresh. subst c'.
  destruct (reached cap ops) as [Hwf [Hu Hle]]. fold c in Hwf, Hu, Hle.
  destruct (emplace_fresh_head c v Hcap Hle Hfresh) as [rest [Hitems [_ Hsub]]].
  split; [|split].
  - unfold Lru.recency. unfold Lru.items in Hitems. now rewrite Hitems.
  - intros ix. apply contains_true_iff.
    exists {| id := next_id (Lru.container_ c); element := v |}.
    rewrite Hitems. split; [now left|reflexivity].
  - intros ix Hix Hun. split.
    + unfold Lru.find.
      destruct (index_find key_eq_dec ix (key_of ix v)
                  (Lru.container_ (snd (emplace v c)))) as [n|] eqn:F.
      * destruct (index_find_Some _ _ _ _ _ _ _ F) as [Hn Hk].
        fold (Lru.items (snd (emplace v c))) in Hn. rewrite Hitems in Hn.
        destruct Hn as [<-|Hn]; [reflexivity|].
        exfalso. apply LruFacts.emplace_fst in Hfresh.
        exact (first_ban_None _ _ key_eq_dec _ _ _ Hfresh ix n Hix Hun
                 (Hsub n Hn) Hk).
      * exfalso.
        apply (proj1 (index_find_None _ _ _ _ _ _) F
                 {| id := next_id (Lru.container_ c); element := v |}).
        -- fold (Lru.items (snd (emplace v c))). rewrite Hitems. now left.
        -- reflexivity.
    + rewrite Hitems. simpl. now rewrite Nat.eqb_refl.
Qed.

(** X2.  Insertion followed by lookup.  In a cache reached from the
    constructor whose capacity is at least 1, an [emplace] that inserts
    leaves the new item at the head of the recency list; [contains] then
    answers [true] for the key of the item under every index, and [find]
    under a declared unique index returns an iterator to the new item
    itself. *)
Theorem emplace_then_find
  (cap : nat) (ops : list (Lru.op Value Key)) (v : Value) :
  let c := run ops (Lru.new Value cap) in
  let c' := snd (emplace v c) in
  1 <= Lru.capacity c -> fst (emplace v c) = true ->
  hd_error (Lru.recency c') = Some v /\
  (forall ix, fst (contains ix (key_of ix v) c') = true) /\
  (forall ix, In ix indices -> unique ix = true ->
     fst (find ix (key_of ix v) c') = Some (next_id (Lru.container_ c)) /\
     deref (next_id (Lru.container_ c)) (Lru.items c')
       = Some {| id := next_id (Lru.container_ c); element := v |}).
Proof. exact (inserted_item_is_found cap ops v). Qed.

(** X3.  An [emplace] removes at most the item at the tail of the recency
    list: every other item of a cache reached from the constructor is
    still stored afterwards, and so is the tail itself when the insertion
    was banned or the cache was not full. *)
Theorem emplace_evicts_at_most_the_tail
  (cap : nat) (ops : list (Lru.op Value Key)) (v : Value) :
  let c := run ops (Lru.new Value cap) in
  (forall n, In n (removelast (Lru.items c)) ->
             In n (Lru.items (snd (emplace v c)))) /\
  (forall n, fst (emplace v c) = false \/ Lru.size c < Lru.capacity c ->
             In n (Lru.items c) -> In n (Lru.items (snd (emplace v c)))) /\
  length (Lru.items c) <= S (length (Lru.items (snd (emplace v c)))).
Proof.
  intros c. destruct (reached cap ops) as [Hwf [Hu Hle]].
  fold c in Hwf, Hu, Hle.
  destruct (first_ban key_eq_dec indices v (Lru.items c)) as [b|] eqn:E.
  - rewrite (LruFacts.emplace_banned _ _ _ _ _ _ _ E). cbn [fst snd].
    destruct (first_ban_Some _ _ _ _ _ _ _ E) as [ix [_ [_ [Hb _]]]].
    assert (Lru.items (Lru.with_container c
                         (relocate_front (id b) (Lru.container_ c)))
            = b :: unlink (id b) (Lru.items c)) as Hitems.
    { unfold Lru.items. cbn. apply relocate_nodes. now apply wf_deref. }
    rewrite Hitems.
    assert (forall n, In n (Lru.items c) ->
                      In n (b :: unlink (id b) (Lru.items c))) as Hkeep.
    { intros n Hn. destruct (Nat.eq_dec (id n) (id b)) as [Eid|Eid].
      - left. apply (same_id_same_node _ (Lru.items c)); auto. apply Hwf.
      - right. apply In_unlink; [apply Hwf|]. now split. }
    split; [|split].
    + intros n Hn. apply Hkeep. now apply In_removelast.
    + intros n _. apply Hkeep.
    + simpl. erewrite unlink_length; [lia|].
      apply wf_deref; [apply Hwf|exact Hb].
  - destruct (LruFacts.emplace_fresh _ _ _ _ _ _ E) as [Hfst [H _]].
    rewrite H, Hfst.
    destruct (Nat.ltb_spec (Lru.max_size_ c) (S (Lru.size c))) as [L|L].
    + split; [|split].
      * intros n Hn.
        destruct (Lru.items c) as [|a r] eqn:Ei; [destruct Hn|].
        rewrite removelast_cons by discriminate. now right.
      * unfold Lru.capacity. intros n [Hf|Hlt]; [discriminate|lia].
      * rewrite LruFacts.removelast_length. simpl. lia.
    + split; [|split].
      * intros n Hn. right. now apply In_removelast.
      * intros n _ Hn. now right.
      * simpl. lia.
Qed.

(** X4.  Erasing and looking up.  After [erase<Tag>(key)], a [find] or a
    [contains] of the key under that index finds nothing and changes
    nothing, and a second [erase] returns [false]; erasing a key that no
    stored item has returns [false] and leaves the cache as it was. *)
Theorem erase_then_find (c : Container) (ix : index_spec Value Key) (k : Key) :
  find ix k (snd (erase ix k c)) = (None, snd (erase ix k c)) /\
  contains ix k (snd (erase ix k c)) = (false, snd (erase ix k c)) /\
  fst (erase ix k (snd (erase ix k c))) = false /\
  ((forall n, In n (Lru.items c) -> key_of ix (element n) <> k) ->
   erase ix k c = (false, c)).
Proof.
  destruct (LruFacts.erase_spec _ _ key_eq_dec c ix k) as [Hin _].
  assert (index_find key_eq_dec ix k (Lru.container_ (snd (erase ix k c)))
          = None) as Hnone.
  { apply index_find_None. intros n Hn. now apply Hin in Hn. }
  assert (find ix k (snd (erase ix k c)) = (None, snd (erase ix k c))) as Hf
    by (unfold Lru.find; now rewrite Hnone).
  split; [exact Hf|]. split; [|split].
  - unfold Lru.contains. now rewrite Hf.
  - destruct (fst (erase ix k (snd (erase ix k c)))) eqn:E; [|reflexivity].
    apply (LruFacts.erase_spec _ _ key_eq_dec) in E.
    destruct E as [n [Hn Hk]]. apply Hin in Hn. tauto.
  - intros Habs. unfold Lru.erase, index_erase_key.
    rewrite (filter_none _ (key_matches key_eq_dec ix k))
      by (intros x Hx; apply key_matches_false; now apply Habs).
    rewrite (filter_all _ (fun n => negb (key_matches key_eq_dec ix k n)))
      by (intros x Hx; apply negb_true_iff, key_matches_false;
          now apply Habs).
    destruct c as [[s nx] cap]. reflexivity.
Qed.

(** X5.  A lookup only reorders.  On a cache reached from the
    constructor, [find] keeps the stored items and the capacity and
    changes nothing but the order of the recency list: every index holds
    the same range for every key afterwards.  Repeating the [find] returns
    the same iterator and changes nothing more. *)
Theorem find_only_reorders
  (cap : nat) (ops : list (Lru.op Value Key))
  (ix : index_spec Value Key) (k : Key) :
  let c := run ops (Lru.new Value cap) in
  let r := find ix k c in
  Permutation (Lru.items (snd r)) (Lru.items c) /\
  Lru.capacity (snd r) = Lru.capacity c /\
  (forall ix' k',
     index_equal_range key_eq_dec ix' k' (Lru.container_ (snd r))
     = index_equal_range key_eq_dec ix' k' (Lru.container_ c)) /\
  find ix k (snd r) = r.
Proof.
  intros c r. subst r.
  destruct (reached cap ops) as [Hwf _]. fold c in Hwf.
  assert (Permutation (Lru.items (snd (find ix k c))) (Lru.items c)) as Hp.
  { pose proof (LruFacts.find_items _ _ key_eq_dec c ix k Hwf) as H.
    destruct (index_find key_eq_dec ix k (Lru.container_ c)) as [n|].
    - destruct H as [_ [H [Hn _]]]. rewrite H. apply relocate_perm.
      now apply wf_deref.
    - destruct H as [H _]. now rewrite H. }
  assert (forall ix' k',
            index_equal_range key_eq_dec ix' k'
              (Lru.container_ (snd (find ix k c)))
            = index_equal_range key_eq_dec ix' k' (Lru.container_ c)) as Hr.
  { intros ix' k'. apply equal_range_perm; [apply Hwf|].
    symmetry. exact Hp. }
  split; [exact Hp|]. split; [apply LruFacts.find_capacity|].
  split; [exact Hr|].
  unfold Lru.find at 1. unfold index_find. rewrite Hr.
  fold (index_find key_eq_dec ix k (Lru.container_ c)).
  pose proof (LruFacts.find_items _ _ key_eq_dec c ix k Hwf) as H.
  unfold Lru.find in *.
  destruct (index_find key_eq_dec ix k (Lru.container_ c)) as [n|];
    [|reflexivity].
  destruct H as [_ [H [Hn _]]]. cbn [snd] in *. f_equal.
  cbn [Lru.with_container Lru.container_].
  rewrite (relocate_twice _ _ n) by (now apply wf_deref).
  reflexivity.
Qed.

(** X6.  [set_capacity] composes: two calls in a row keep the items that
    a single call with the smaller capacity keeps, and leave the capacity
    of the second call; a new capacity that is not below [size()] evicts
    nothing. *)
Theorem set_capacity_composes (c : Container) (n m d : nat) :
  Lru.items (Lru.set_capacity n (Lru.set_capacity m c))
    = Lru.items (Lru.set_capacity (Nat.min n m) c) /\
  Lru.capacity (Lru.set_capacity n (Lru.set_capacity m c)) = n /\
  Lru.items (Lru.set_capacity (Lru.size c + d) c) = Lru.items c.
Proof.
  destruct (LruFacts.set_capacity_spec _ (Lru.set_capacity m c) n)
    as [H1 [H2 _]].
  destruct (LruFacts.set_capacity_spec _ c m) as [H3 _].
  destruct (LruFacts.set_capacity_spec _ c (Nat.min n m)) as [H4 _].
  destruct (LruFacts.set_capacity_spec _ c (Lru.size c + d)) as [H5 _].
  split; [|split].
  - now rewrite H1, H3, H4, firstn_firstn.
  - exact H2.
  - rewrite H5. apply firstn_all2.
    unfold Lru.size, MultiIndex.size, Lru.items. lia.
Qed.

(** X7.  The item just looked up outlives the next insertion.  In a cache
    reached from the constructor whose capacity is at least 2, an item
    that [find] has returned is still stored after any following
    [emplace], with the fields it had, among the first two of the recency
    list. *)
Theorem found_item_survives_next_emplace
  (cap : nat) (ops : list (Lru.op Value Key))
  (ix : index_spec Value Key) (k : Key) (it : nat) (v : Value) :
  let c := run ops (Lru.new Value cap) in
  let c' := snd (emplace v (snd (find ix k c))) in
  2 <= Lru.capacity c -> fst (find ix k c) = Some it ->
  exists n,
    deref it (Lru.items c) = Some n /\
    key_of ix (element n) = k /\
    deref it (Lru.items c') = Some n /\
    In n (firstn 2 (Lru.items c')).
Proof.
  intros c c' Hcap Hfound. subst c'.
  pose proof (reached cap (ops ++ [Lru.Find ix k; Lru.Emplace v])) as Hr2.
  unfold Lru.run in Hr2. rewrite fold_left_app in Hr2.
  cbn [fold_left Lru.step] in Hr2. fold (run ops (Lru.new Value cap)) in Hr2.
  fold c in Hr2. destruct Hr2 as [Hwf2 _].
  pose proof (reached cap (ops ++ [Lru.Find ix k])) as Hr1.
  unfold Lru.run in Hr1. rewrite fold_left_app in Hr1.
  cbn [fold_left Lru.step] in Hr1. fold (run ops (Lru.new Value cap)) in Hr1.
  fold c in Hr1. destruct Hr1 as [Hwf1 [_ Hle1]].
  destruct (reached cap ops) as [Hwf _]. fold c in Hwf.
  pose proof (LruFacts.find_items _ _ key_eq_dec c ix k Hwf) as H.
  destruct (index_find key_eq_dec ix k (Lru.container_ c)) as [n|];
    [|destruct H as [H _]; rewrite H in Hfound; discriminate].
  destruct H as [Hfst [Hitems [Hn Hk]]].
  rewrite Hfst in Hfound. injection Hfound as <-.
  set (c1 := snd (find ix k c)) in *.
  assert (Lru.capacity c1 = Lru.capacity c) as Hcap1
    by apply LruFacts.find_capacity.
  exists n. split; [now apply wf_deref|]. split; [exact Hk|].
  assert (In n (firstn 2 (Lru.items (snd (emplace v c1))))) as Hin.
  { destruct (first_ban key_eq_dec indices v (Lru.items c1)) as [b|] eqn:E.
    - rewrite (LruFacts.emplace_banned _ _ _ _ _ _ _ E). cbn [snd].
      destruct (first_ban_Some _ _ _ _ _ _ _ E) as [ixb [_ [_ [Hb _]]]].
      unfold Lru.items at 1. cbn [Lru.with_container Lru.container_].
      rewrite (relocate_nodes _ _ _ b) by (now apply wf_deref).
      fold (Lru.items c1). rewrite Hitems.
      simpl unlink. destruct (Nat.eqb_spec (id n) (id b)) as [Eid|Eid].
      + left. symmetry. apply (same_id_same_node _ (Lru.items c1)); auto.
        * apply Hwf1.
        * rewrite Hitems. now left.
      + right. now left.
    - destruct (LruFacts.emplace_fresh _ _ _ _ _ _ E) as [_ [Hi _]].
      rewrite Hi, Hitems.
      destruct (Nat.ltb_spec (Lru.max_size_ c1) (S (Lru.size c1))) as [L|L].
      + assert (unlink (id n) (Lru.items c) <> []) as Hne.
        { unfold Lru.capacity, Lru.size, MultiIndex.size in *.
          fold (Lru.items c1) in *. rewrite Hitems in *.
          destruct (unlink (id n) (Lru.items c)); [simpl in *; lia|easy]. }
        rewrite removelast_cons by discriminate.
        rewrite removelast_cons by exact Hne.
        right. now left.
      + right. now left. }
  split; [|exact Hin].
  apply (wf_deref _ _ n Hwf2). now apply In_firstn in Hin.
Qed.

(** X20.  A cache of capacity zero stores nothing.  A cache reached from
    the constructor whose capacity is 0 is empty; [emplace] on it returns
    [true] and evicts the new item at once, so that the cache is still
    empty, its capacity is still 0, and [contains] answers [false] for the
    key of the item under every index. *)
Theorem zero_capacity_stores_nothing
  (cap : nat) (ops : list (Lru.op Value Key)) (v : Value) :
  let c := run ops (Lru.new Value cap) in
  Lru.capacity c = 0 ->
  Lru.items c = [] /\
  fst (emplace v c) = true /\
  Lru.items (snd (emplace v c)) = [] /\
  Lru.capacity (snd (emplace v c)) = 0 /\
  (forall ix, fst (contains ix (key_of ix v) (snd (emplace v c))) = false).
Proof.
  intros c Hcap.
  destruct (reached cap ops) as [_ [_ Hle]]. fold c in Hle.
  assert (Lru.items c = []) as Hnil.
  { unfold Lru.size, MultiIndex.size in Hle. fold (Lru.items c) in Hle.
    rewrite Hcap in Hle. destruct (Lru.items c); [reflexivity|].
    cbn [length] in Hle. lia. }
  assert (first_ban key_eq_dec indices v (Lru.items c) = None) as Hban.
  { rewrite Hnil. apply first_ban_nil. }
  destruct (LruFacts.emplace_fresh _ _ _ _ _ _ Hban) as [Hfst [Hitems Hmax]].
  unfold Lru.capacity in *. rewrite Hcap in Hitems.
  assert (Lru.items (snd (emplace v c)) = []) as Hnil'.
  { rewrite Hitems, Hnil. reflexivity. }
  split; [exact Hnil|]. split; [exact Hfst|]. split; [exact Hnil'|].
  split; [now rewrite Hmax|].
  intros ix.
  destruct (fst (contains ix (key_of ix v) (snd (emplace v c)))) eqn:E;
    [|reflexivity].
  apply contains_true_iff in E. destruct E as [n [Hin _]].
  rewrite Hnil' in Hin. destruct Hin.
Qed.

End Core.


(** X2 at capacity 3, a third user after two. *)
Lemma emplace_then_find_witness :
  1 <= 3 /\
  hd_error
    (Lru.recency
       (snd (Lru.emplace key_eq_dec UserCache charlie
               (Lru.run key_eq_dec UserCache
                  [Lru.Emplace alice; Lru.Emplace bob] (Lru.new User 3)))))
    = Some charlie.
Proof.
  assert (1 <= 3) as Hcap by lia.
  exact (conj Hcap
    (proj1 (emplace_then_find _ _ key_eq_dec UserCache 3
              [Lru.Emplace alice; Lru.Emplace bob] charlie Hcap eq_refl))).
Defined.

(** X7 at [three_users]: [find<IdTag>(1)], then a fourth user. *)
Lemma found_item_survives_next_emplace_witness :
  2 <= 3 /\
  exists n,
    deref 0 (Lru.items three_users) = Some n /\
    key_of IdTag (element n) = KInt 1 /\
    deref 0 (Lru.items
               (snd (Lru.emplace key_eq_dec UserCache david
                       (snd (Lru.find key_eq_dec IdTag (KInt 1)
                               three_users))))) = Some n /\
    In n (firstn 2
            (Lru.items
               (snd (Lru.emplace key_eq_dec UserCache david
                       (snd (Lru.find key_eq_dec IdTag (KInt 1)
                               three_users)))))).
Proof.
  assert (2 <= 3) as Hcap by lia.
  exact (conj Hcap
    (found_item_survives_next_emplace _ _ key_eq_dec UserCache 3
       [Lru.Emplace alice; Lru.Emplace bob; Lru.Emplace charlie]
       IdTag (KInt 1) 0 david Hcap eq_refl)).
Defined.


(** X20 at a cache of capacity 3 whose capacity was then set to 0. *)
Lemma zero_capacity_stores_nothing_witness :
  Lru.capacity
    (Lru.run key_eq_dec UserCache [Lru.Emplace alice; Lru.SetCapacity 0]
       (Lru.new User 3)) = 0 /\
  fst (Lru.emplace key_eq_dec UserCache bob
         (Lru.run key_eq_dec UserCache [Lru.Emplace alice; Lru.SetCapacity 0]
            (Lru.new User 3))) = true /\
  Lru.items
    (snd (Lru.emplace key_eq_dec UserCache bob
            (Lru.run key_eq_dec UserCache
               [Lru.Emplace alice; Lru.SetCapacity 0] (Lru.new User 3))))
    = [].
Proof.
  assert (Lru.capacity
            (Lru.run key_eq_dec UserCache
               [Lru.Emplace alice; Lru.SetCapacity 0] (Lru.new User 3)) = 0)
    as Hcap by reflexivity.
  destruct (zero_capacity_stores_nothing _ _ key_eq_dec UserCache 3
              [Lru.Emplace alice; Lru.SetCapacity 0] bob Hcap)
    as [_ [H1 [H2 _]]].
  exact (conj Hcap (conj H1 H2)).
Defined.

End LruBehaviour.

(** ** The TTL wrapper: timestamps, recency and expiry together *)

Module TtlBehaviour.
Import MultiIndex MultiIndexFacts IndexFacts Fixtures.

Section Wrapper.

Variables Value Key : Type.
Variable key_eq_dec : forall a b : Key, {a = b} + {a <> b}.
Variable indices : list (index_spec Value Key).

Abbreviation CacheItem := (Ttl.TimestampedValue Value).
Abbreviation ExpirableContainer := (Ttl.ExpirableContainer Value).
Abbreviation through := (Ttl.through_wrapper (Value := Value) (Key := Key)).
Abbreviation ids := (map (@id CacheItem)).
Abbreviation step := (Ttl.step key_eq_dec indices).
Abbreviation run := (Ttl.run key_eq_dec indices).
Abbreviation stamp := (fun n : node CacheItem => Ttl.last_accessed (element n)).

Implicit Types (e : ExpirableContainer) (v : Value) (k : Key) (now t : Z).
Implicit Types (ix : index_spec Value Key) (n : node CacheItem).
Implicit Types (s : list (node CacheItem)).

(** *** Sorted recency lists *)

Lemma sorted_prefix (A : Type) (R : A -> A -> Prop) (xs ys : list A) :
  StronglySorted R (xs ++ ys) -> StronglySorted R xs.
Proof.
  induction xs as [|a r IH]; simpl; intros H; [constructor|].
  inversion H as [|x zs Hs Hall]; subst. constructor; [now apply IH|].
  rewrite Forall_forall in *. intros x Hx. apply Hall.
  apply in_or_app. now left.
Qed.

Lemma sorted_filter (A : Type) (R : A -> A -> Prop) (p : A -> bool)
  (xs : list A) :
  StronglySorted R xs -> StronglySorted R (filter p xs).
Proof.
  induction 1 as [|a r Hs IH Ha]; simpl; [constructor|].
  destruct (p a); [|assumption].
  constructor; [assumption|].
  rewrite Forall_forall in *. intros x Hx. apply filter_In in Hx.
  apply Ha. tauto.
Qed.

Lemma sorted_removelast (A : Type) (R : A -> A -> Prop) (xs : list A) :
  StronglySorted R xs -> StronglySorted R (removelast xs).
Proof.
  intros H. destruct (snoc_cases _ xs) as [->|[ys [y ->]]]; [exact H|].
  rewrite removelast_last. now apply sorted_prefix in H.
Qed.

Lemma sorted_firstn (A : Type) (R : A -> A -> Prop) (i : nat) (xs : list A) :
  StronglySorted R xs -> StronglySorted R (firstn i xs).
Proof.
  intros H. rewrite <- (firstn_skipn i xs) in H.
  now apply sorted_prefix in H.
Qed.

Lemma sorted_app (A : Type) (R : A -> A -> Prop) (xs ys : list A) :
  StronglySorted R xs -> StronglySorted R ys ->
  (forall x y, In x xs -> In y ys -> R x y) ->
  StronglySorted R (xs ++ ys).
Proof.
  induction 1 as [|a r Hs IH Ha]; simpl; intros Hys Hxy; [assumption|].
  constructor.
  - apply IH; [assumption|]. intros x y Hx Hy. apply Hxy; auto.
  - rewrite Forall_forall in *. intros x Hx. apply in_app_or in Hx.
    destruct Hx as [Hx|Hx]; [now apply Ha|apply Hxy; auto].
Qed.

Lemma newest_first_cons t n s :
  Ttl.newest_first s -> Ttl.stamped_by t s -> (t <= stamp n)%Z ->
  Ttl.newest_first (n :: s).
Proof.
  intros Hs Ht Hn. constructor; [exact Hs|].
  rewrite Forall_forall. intros x Hx. specialize (Ht x Hx). simpl in *. lia.
Qed.

Lemma newest_first_unlink it s :
  NoDup (ids s) -> Ttl.newest_first s -> Ttl.newest_first (unlink it s).
Proof.
  intros Hnd Hs. rewrite unlink_filter by exact Hnd.
  now apply sorted_filter.
Qed.

Lemma newest_first_same_stamp now s :
  (forall n, In n s -> stamp n = now) -> Ttl.newest_first s.
Proof.
  induction s as [|a r IH]; intros H; [constructor|].
  constructor.
  - apply IH. intros n Hn. apply H. now right.
  - rewrite Forall_forall. intros x Hx.
    rewrite (H a) by now left. rewrite (H x) by now right. lia.
Qed.

(** *** What a call leaves of the order and of the timestamps *)

Lemma stamped_by_sub t t' s s' :
  (forall x, In x s' -> In x s) -> (t <= t')%Z ->
  Ttl.stamped_by t s -> Ttl.stamped_by t' s'.
Proof.
  intros Hsub Hle H x Hx. specialize (H x (Hsub x Hx)). lia.
Qed.

Lemma in_order_refresh_front t now e n :
  Ttl.wf e -> Ttl.in_order t e -> (t <= now)%Z -> In n (Ttl.items e) ->
  Ttl.newest_first (Ttl.refreshed now n :: unlink (id n) (Ttl.items e)) /\
  Ttl.stamped_by now (Ttl.refreshed now n :: unlink (id n) (Ttl.items e)).
Proof.
  intros Hwf [Hs Ht] Hle Hn. split.
  - apply newest_first_cons with (t := t).
    + apply newest_first_unlink; [apply Hwf|exact Hs].
    + apply stamped_by_sub with (t := t) (s := Ttl.items e);
        [intros x; apply In_unlink_sub|lia|exact Ht].
    + simpl. exact Hle.
  - intros x [<-|Hx]; [simpl; lia|].
    apply In_unlink_sub in Hx. specialize (Ht x Hx). lia.
Qed.

Lemma emplace_in_order t now e v :
  Ttl.wf e -> Ttl.in_order t e -> (t <= now)%Z ->
  Ttl.in_order now (snd (Ttl.emplace key_eq_dec indices v now e)).
Proof.
  intros Hwf Hord Hle. unfold Ttl.in_order.
  destruct (first_ban key_eq_dec (map through indices)
              {| Ttl.value := v; Ttl.last_accessed := now |} (Ttl.items e))
    as [b|] eqn:E.
  - rewrite (TtlFacts.ttl_emplace_banned _ _ key_eq_dec indices _ _ _ _ Hwf E).
    apply first_ban_Some in E. destruct E as [ix [_ [_ [Hb _]]]].
    unfold Ttl.items at 1 2. cbn.
    now apply in_order_refresh_front with (t := t).
  - destruct (TtlFacts.ttl_emplace_fresh _ _ key_eq_dec indices _ _ _ E)
      as [_ H].
    rewrite H. destruct Hord as [Hs Ht].
    set (new := {| id := next_id (Lru.container_ (Ttl.container_ e));
                   element := {| Ttl.value := v; Ttl.last_accessed := now |} |}).
    assert (Ttl.newest_first (new :: Ttl.items e)) as Hs'.
    { apply newest_first_cons with (t := t); [exact Hs|exact Ht|exact Hle]. }
    assert (Ttl.stamped_by now (new :: Ttl.items e)) as Ht'.
    { intros x [<-|Hx]; [simpl; lia|]. specialize (Ht x Hx). lia. }
    destruct (Ttl.capacity e <? S (Ttl.size e)).
    + split; [now apply sorted_removelast|].
      apply stamped_by_sub with (t := now) (s := new :: Ttl.items e);
        [intros x; apply In_removelast|lia|exact Ht'].
    + now split.
Qed.

Lemma find_in_order t now e ix k :
  Ttl.wf e -> Ttl.in_order t e -> (t <= now)%Z ->
  Ttl.in_order now (snd (Ttl.find key_eq_dec ix k now e)).
Proof.
  intros Hwf Hord Hle. unfold Ttl.in_order.
  destruct (index_find key_eq_dec (through ix) k
              (Lru.container_ (Ttl.container_ e))) as [n|] eqn:F.
  - destruct (index_find_Some _ _ _ _ _ _ _ F) as [Hn _].
    destruct (Ttl.expired now (Ttl.ttl_ e) (element n)) eqn:E.
    + rewrite (TtlFacts.find_found_expired _ _ key_eq_dec _ _ _ _ _ F E).
      unfold Ttl.items at 1 2. cbn. destruct Hord as [Hs Ht]. split.
      * apply newest_first_unlink; [apply Hwf|exact Hs].
      * apply stamped_by_sub with (t := t) (s := Ttl.items e);
          [intros x; apply In_unlink_sub|exact Hle|exact Ht].
    + rewrite (TtlFacts.find_found_live _ _ key_eq_dec _ _ _ _ _ F E).
      unfold Ttl.items at 1 2. cbn [snd].
      unfold Ttl.with_container, Lru.with_container.
      cbn [Ttl.container_ Lru.container_].
      rewrite (relocate_assign_eq _ _ _ _ n) by (now apply wf_deref).
      cbn [nodes]. now apply in_order_refresh_front with (t := t).
  - rewrite (TtlFacts.find_missing _ _ key_eq_dec _ _ _ now F). cbn [snd].
    destruct Hord as [Hs Ht]. split; [exact Hs|].
    apply stamped_by_sub with (t := t) (s := Ttl.items e);
      [now intros x|exact Hle|exact Ht].
Qed.

Lemma equal_range_in_order t now e ix k :
  Ttl.wf e -> Ttl.in_order t e -> (t <= now)%Z ->
  Ttl.in_order now (snd (Ttl.equal_range key_eq_dec ix k now e)).
Proof.
  intros Hwf [Hs Ht] Hle. unfold Ttl.in_order.
  rewrite (TtlFacts.equal_range_result _ _ key_eq_dec e ix k now Hwf).
  unfold Ttl.items at 1 3. cbn.
  set (front := rev (map (Ttl.refreshed now)
                       (filter (Ttl.live now (Ttl.ttl_ e))
                          (index_equal_range key_eq_dec (through ix) k
                             (Lru.container_ (Ttl.container_ e)))))).
  assert (forall x, In x front -> stamp x = now) as Hfront.
  { intros x Hx. unfold front in Hx. apply in_rev, in_map_iff in Hx.
    now destruct Hx as [y [<- _]]. }
  split.
  - apply sorted_app.
    + now apply newest_first_same_stamp with (now := now).
    + now apply sorted_filter.
    + intros x y Hx Hy. apply filter_In in Hy. destruct Hy as [Hy _].
      rewrite (Hfront x Hx). specialize (Ht y Hy). lia.
  - intros x Hx. apply in_app_or in Hx. destruct Hx as [Hx|Hx].
    + rewrite (Hfront x Hx). lia.
    + apply filter_In in Hx. destruct Hx as [Hx _]. specialize (Ht x Hx). lia.
Qed.

Lemma step_in_order (o : Ttl.op Value Key) t e :
  Ttl.wf e -> Ttl.in_order t e ->
  (forall now, Ttl.clock_of o = Some now -> (t <= now)%Z) ->
  Ttl.in_order (Ttl.last_reading t [o]) (step o e).
Proof.
  intros Hwf Hord Hclock.
  destruct o as [v now|v now|ix k now|ix k|ix k now|ix k now|ix k|cap| |now];
    cbn [Ttl.step Ttl.last_reading Ttl.clock_of];
    try (specialize (Hclock now eq_refl)).
  - now apply emplace_in_order with (t := t).
  - rewrite TtlFacts.insert_snd. now apply emplace_in_order with (t := t).
  - now apply find_in_order with (t := t).
  - exact Hord.
  - now apply equal_range_in_order with (t := t).
  - rewrite TtlFacts.ttl_contains_snd. now apply find_in_order with (t := t).
  - destruct Hord as [Hs Ht]. unfold Ttl.in_order, Ttl.items, Ttl.erase.
    cbn. split; [now apply sorted_filter|].
    intros x Hx. apply filter_In in Hx. now apply Ht.
  - destruct Hord as [Hs Ht]. unfold Ttl.in_order, Ttl.items, Ttl.set_capacity.
    cbn.
    destruct (LruFacts.set_capacity_spec _ (Ttl.container_ e) cap) as [H _].
    unfold Lru.items in H. rewrite H. split; [now apply sorted_firstn|].
    intros x Hx. apply In_firstn in Hx. now apply Ht.
  - split; [constructor|intros x []].
  - destruct Hord as [Hs Ht].
    destruct (TtlFacts.cleanup_expired_items _ e now) as [d [H _]].
    split.
    + unfold Ttl.newest_first in *. rewrite H in Hs.
      now apply sorted_prefix in Hs.
    + intros x Hx.
      assert (In x (Ttl.items e)) as Hx'
        by (rewrite H; apply in_or_app; now left).
      specialize (Ht x Hx'). lia.
Qed.

Lemma run_in_order (ops : list (Ttl.op Value Key)) :
  forall t e,
    Ttl.wf e -> Ttl.in_order t e -> Ttl.clock_monotone t ops ->
    Ttl.in_order (Ttl.last_reading t ops) (run ops e).
Proof.
  induction ops as [|o ops IH]; intros t e Hwf Hord Hmono; [exact Hord|].
  cbn [Ttl.run fold_left]. fold (run ops (step o e)).
  pose proof (TtlFacts.ttl_wf_step _ _ key_eq_dec indices o e Hwf) as Hwf'.
  cbn [Ttl.clock_monotone Ttl.last_reading] in *.
  destruct (Ttl.clock_of o) as [now|] eqn:C.
  - destruct Hmono as [Hle Hmono]. apply IH; auto.
    pose proof (step_in_order o t e Hwf Hord) as H.
    cbn [Ttl.last_reading] in H. rewrite C in H. apply H.
    intros now' [= <-]. exact Hle.
  - apply IH; auto.
    pose proof (step_in_order o t e Hwf Hord) as H.
    cbn [Ttl.last_reading] in H. rewrite C in H. apply H.
    intros now' Hc. discriminate.
Qed.

(** *** Every wrapper reached from the constructor *)

Lemma ttl_emplace_keys_unique e v now :
  Ttl.wf e ->
  keys_unique (map through indices) (Ttl.items e) ->
  keys_unique (map through indices)
    (Ttl.items (snd (Ttl.emplace key_eq_dec indices v now e))).
Proof.
  intros Hwf Hu.
  pose proof (TtlFacts.ttl_wf_step _ _ key_eq_dec indices
                (Ttl.Emplace v now) e Hwf) as Hwf'.
  cbn [Ttl.step] in Hwf'.
  destruct (first_ban key_eq_dec (map through indices)
              {| Ttl.value := v; Ttl.last_accessed := now |} (Ttl.items e))
    as [b|] eqn:E.
  - apply keys_unique_origin with (s := Ttl.items e); [apply Hwf'| |exact Hu].
    rewrite (TtlFacts.ttl_emplace_banned _ _ key_eq_dec indices _ _ _ _ Hwf E).
    apply first_ban_Some in E. destruct E as [ixb [_ [_ [Hb _]]]].
    unfold Ttl.items at 1. cbn. intros x' [<-|Hx].
    + exists b. repeat split; auto.
      intros ix Hix. apply in_map_iff in Hix.
      now destruct Hix as [ix0 [<- _]].
    + exists x'. apply In_unlink_sub in Hx. auto.
  - destruct (TtlFacts.ttl_emplace_fresh _ _ key_eq_dec indices _ _ _ E)
      as [_ H].
    rewrite H.
    apply keys_unique_sub
      with (s := {| id := next_id (Lru.container_ (Ttl.container_ e));
                    element := {| Ttl.value := v; Ttl.last_accessed := now |} |}
                   :: Ttl.items e).
    + intros x Hx. destruct (Ttl.capacity e <? S (Ttl.size e));
        [now apply In_removelast|assumption].
    + now apply (keys_unique_cons _ _ key_eq_dec).
Qed.

Lemma ttl_step_keys_unique (o : Ttl.op Value Key) e :
  Ttl.wf e ->
  keys_unique (map through indices) (Ttl.items e) ->
  keys_unique (map through indices) (Ttl.items (step o e)).
Proof.
  intros Hwf Hu.
  destruct (Ttl.is_insertion o) eqn:I.
  - destruct o; try discriminate; cbn [Ttl.step].
    + now apply ttl_emplace_keys_unique.
    + rewrite TtlFacts.insert_snd. now apply ttl_emplace_keys_unique.
  - apply keys_unique_origin with (s := Ttl.items e); [| |exact Hu].
    + apply (TtlFacts.ttl_wf_step _ _ key_eq_dec indices o e Hwf).
    + intros x' Hx'.
      destruct (TtlFacts.step_items _ _ key_eq_dec indices o e x' Hwf Hx')
        as [H|[now [_ [[_ [y [Hy ->]]]|[Hi _]]]]].
      * exists x'. auto.
      * exists y. repeat split; auto.
        intros ix Hix. apply in_map_iff in Hix.
        now destruct Hix as [ix0 [<- _]].
      * congruence.
Qed.

Lemma step_ttl (o : Ttl.op Value Key) e :
  Ttl.ttl_ (step o e) = Ttl.ttl_ e.
Proof.
  destruct o as [v now|v now|ix k now|ix k|ix k now|ix k now|ix k|cap| |now];
    cbn [Ttl.step].
  - unfold Ttl.emplace.
    destruct (emplace_front key_eq_dec (map through indices)
                {| Ttl.value := v; Ttl.last_accessed := now |}
                (Lru.get_sequenced (Ttl.container_ e))) as [[f sec] m].
    destruct (negb sec); [reflexivity|].
    now destruct (Lru.capacity (Ttl.container_ e) <? MultiIndex.size m).
  - rewrite TtlFacts.insert_snd. unfold Ttl.emplace.
    destruct (emplace_front key_eq_dec (map through indices)
                {| Ttl.value := v; Ttl.last_accessed := now |}
                (Lru.get_sequenced (Ttl.container_ e))) as [[f sec] m].
    destruct (negb sec); [reflexivity|].
    now destruct (Lru.capacity (Ttl.container_ e) <? MultiIndex.size m).
  - unfold Ttl.find.
    destruct (index_find key_eq_dec (through ix) k
                (Lru.get_index (Ttl.container_ e))) as [n|]; [|reflexivity].
    now destruct (Ttl.expired now (Ttl.ttl_ e) (element n)).
  - unfold Ttl.find_no_update. reflexivity.
  - unfold Ttl.equal_range.
    now destruct (Ttl.equal_range_loop now (Ttl.ttl_ e)
      (ids (index_equal_range key_eq_dec (through ix) k
              (Lru.get_index (Ttl.container_ e))))
      (Lru.get_index (Ttl.container_ e)) false).
  - rewrite TtlFacts.ttl_contains_snd. unfold Ttl.find.
    destruct (index_find key_eq_dec (through ix) k
                (Lru.get_index (Ttl.container_ e))) as [n|]; [|reflexivity].
    now destruct (Ttl.expired now (Ttl.ttl_ e) (element n)).
  - unfold Ttl.erase.
    now destruct (Lru.erase key_eq_dec (through ix) k (Ttl.container_ e)).
  - reflexivity.
  - reflexivity.
  - reflexivity.
Qed.

Lemma run_ttl (ops : list (Ttl.op Value Key)) e :
  Ttl.ttl_ (run ops e) = Ttl.ttl_ e.
Proof.
  revert e. induction ops as [|o ops IH]; intros e; [reflexivity|].
  cbn [Ttl.run fold_left]. fold (run ops (step o e)).
  now rewrite IH, step_ttl.
Qed.

Lemma ttl_run_keys_unique (ops : list (Ttl.op Value Key)) e :
  Ttl.wf e ->
  keys_unique (map through indices) (Ttl.items e) ->
  keys_unique (map through indices) (Ttl.items (run ops e)).
Proof.
  revert e. induction ops as [|o ops IH]; intros e Hwf Hu; [assumption|].
  cbn [Ttl.run fold_left]. fold (run ops (step o e)).
  apply IH.
  - now apply TtlFacts.ttl_wf_step.
  - now apply ttl_step_keys_unique.
Qed.

Lemma wf_constructed (cap : nat) (ttl : Z) :
  Ttl.wf (Ttl.constructed Value cap ttl).
Proof. apply wf_empty. Qed.

(** What holds of every wrapper reached from the constructor. *)
Lemma ttl_reached (cap : nat) (ttl : Z) (ops : list (Ttl.op Value Key)) :
  Ttl.wf (run ops (Ttl.constructed Value cap ttl)) /\
  keys_unique (map through indices)
    (Ttl.items (run ops (Ttl.constructed Value cap ttl))) /\
  Ttl.size (run ops (Ttl.constructed Value cap ttl))
    <= Ttl.capacity (run ops (Ttl.constructed Value cap ttl)) /\
  Ttl.ttl_ (run ops (Ttl.constructed Value cap ttl)) = ttl.
Proof.
  split; [|split; [|split]].
  - apply TtlFacts.ttl_wf_run, wf_constructed.
  - apply ttl_run_keys_unique; [apply wf_constructed|].
    intros ix a b _ _ [].
  - apply TtlFacts.ttl_run_size_le. cbn. lia.
  - apply run_ttl.
Qed.

(** *** The index after a refresh *)

Lemma equal_range_after_refresh ix k now n rest
  (m : multi_index_container CacheItem) :
  wf m ->
  index_equal_range key_eq_dec (through ix) k m = n :: rest ->
  index_equal_range key_eq_dec (through ix) k
    {| nodes := Ttl.refreshed now n :: unlink (id n) (nodes m);
       next_id := next_id m |}
  = Ttl.refreshed now n :: rest.
Proof.
  intros Hwf HR.
  pose proof (equal_range_NoDup _ _ key_eq_dec (through ix) k m (proj1 Hwf))
    as Hnd.
  pose proof (equal_range_sorted _ _ key_eq_dec (through ix) k m) as Hs.
  assert (Permutation (n :: rest)
            (filter (key_matches key_eq_dec (through ix) k) (nodes m))) as Hp.
  { rewrite <- HR. apply by_arrival_perm. }
  assert (key_matches key_eq_dec (through ix) k n = true) as Hk.
  { apply key_matches_true.
    apply (In_equal_range _ _ key_eq_dec (through ix) k m n).
    rewrite HR. now left. }
  rewrite HR in Hnd, Hs. simpl in Hnd.
  inversion Hnd as [|x xs Hnotin Hnd']; subst.
  unfold index_equal_range. cbn [nodes filter].
  rewrite TtlFacts.refreshed_key, Hk.
  apply by_arrival_of_perm.
  - simpl. exact Hnd.
  - constructor. rewrite unlink_filter by apply Hwf. rewrite filter_comm.
    apply (Permutation_filter _ (fun x => negb (id x =? id n))) in Hp.
    simpl in Hp. rewrite Nat.eqb_refl in Hp. simpl in Hp.
    rewrite filter_all in Hp; [exact Hp|].
    intros x Hx. apply negb_true_iff, Nat.eqb_neq. intros E.
    apply Hnotin. rewrite <- E. now apply in_map.
  - unfold arrival_order in *. inversion Hs as [|x xs Hs' Hall]; subst.
    constructor; assumption.
Qed.

Lemma sorted_snoc (A : Type) (R : A -> A -> Prop) (xs : list A) (y : A) :
  StronglySorted R (xs ++ [y]) -> forall x, In x xs -> R x y.
Proof.
  induction xs as [|a r IH]; simpl; intros H x Hx; [easy|].
  inversion H as [|z zs Hs Hall]; subst. destruct Hx as [<-|Hx].
  - rewrite Forall_forall in Hall. apply Hall. apply in_or_app.
    right. now left.
  - now apply IH.
Qed.

(** On a recency list in the order of the timestamps, and with deadlines
    that do not overflow, the sweep removes the expired items and nothing
    else. *)
Lemma cleanup_sorted e now :
  Ttl.newest_first (Ttl.items e) ->
  (forall n, In n (Ttl.items e) ->
             Ttl.no_overflow (Ttl.ttl_ e) (Ttl.last_accessed (element n))) ->
  Ttl.items (Ttl.cleanup_expired now e)
    = filter (Ttl.live now (Ttl.ttl_ e)) (Ttl.items e).
Proof.
  intros Hs Hno.
  destruct (TtlFacts.cleanup_expired_items _ e now) as [d [H1 [H2 H3]]].
  rewrite H1 at 1. rewrite filter_app.
  rewrite (filter_none _ _ d), app_nil_r.
  - symmetry. apply filter_all. intros x Hx.
    assert (forall z, In z (Ttl.items (Ttl.cleanup_expired now e)) ->
                      Ttl.no_overflow (Ttl.ttl_ e)
                        (Ttl.last_accessed (element z))) as Hsub.
    { intros z Hz. apply Hno. rewrite H1. apply in_or_app. now left. }
    unfold Ttl.newest_first in Hs. rewrite H1 in Hs.
    apply sorted_prefix in Hs.
    unfold Ttl.items in Hx, Hs, Hsub.
    destruct (Lru.container_ (Ttl.container_ (Ttl.cleanup_expired now e)))
      as [s' nx].
    cbn [nodes] in Hx, Hs, Hsub.
    destruct (snoc_cases _ s') as [->|[ys [y ->]]]; [destruct Hx|].
    rewrite rbegin_snoc in H3.
    assert (In y (ys ++ [y])) as Hy by (apply in_or_app; right; now left).
    apply (TtlFacts.expired_false_in_range _ _ _ _ (Hsub y Hy)) in H3.
    unfold Ttl.live. apply negb_true_iff.
    apply (TtlFacts.expired_false_in_range _ _ _ _ (Hsub x Hx)).
    apply in_app_or in Hx. destruct Hx as [Hx|[<-|[]]]; [|exact H3].
    pose proof (sorted_snoc _ _ _ _ Hs x Hx) as Hxy. simpl in Hxy. lia.
  - intros x Hx. rewrite forallb_forall in H2. unfold Ttl.live.
    now rewrite (H2 x Hx).
Qed.

Lemma ttl_emplace_fresh_head e v now :
  1 <= Ttl.capacity e -> Ttl.size e <= Ttl.capacity e ->
  first_ban key_eq_dec (map through indices)
    {| Ttl.value := v; Ttl.last_accessed := now |} (Ttl.items e) = None ->
  fst (Ttl.emplace key_eq_dec indices v now e)
    = (next_id (Lru.container_ (Ttl.container_ e)), true) /\
  exists rest,
    Ttl.items (snd (Ttl.emplace key_eq_dec indices v now e))
      = {| id := next_id (Lru.container_ (Ttl.container_ e));
           element := {| Ttl.value := v; Ttl.last_accessed := now |} |}
        :: rest /\
    (forall x, In x rest -> In x (Ttl.items e)).
Proof.
  intros Hcap Hle E.
  destruct (TtlFacts.ttl_emplace_fresh _ _ key_eq_dec indices _ _ _ E)
    as [Hfst H].
  split; [exact Hfst|]. rewrite H.
  destruct (Nat.ltb_spec (Ttl.capacity e) (S (Ttl.size e))) as [L|L].
  - exists (removelast (Ttl.items e)). split.
    + apply LruBehaviour.removelast_cons.
      unfold Ttl.size, Lru.size, MultiIndex.size in *.
      fold (Ttl.items e) in *. destruct (Ttl.items e); [simpl in *; lia|easy].
    + intros x. apply In_removelast.
  - exists (Ttl.items e). auto.
Qed.

(** *** Properties *)

(** X8.  Whatever the calls made on a TTL wrapper since its
    construction, no two stored items have the same key under an index
    declared unique, every stored item is held by one node of its own,
    [size() <= capacity()], and [ttl()] is the TTL it was constructed
    with. *)
Theorem ttl_unique_keys_are_kept
  (cap : nat) (ttl : Z) (ops : list (Ttl.op Value Key)) :
  let e := run ops (Ttl.constructed Value cap ttl) in
  (forall ix a b,
     In ix indices -> unique ix = true ->
     In a (Ttl.items e) -> In b (Ttl.items e) ->
     key_of ix (Ttl.value (element a)) = key_of ix (Ttl.value (element b)) ->
     a = b) /\
  NoDup (ids (Ttl.items e)) /\
  Ttl.size e <= Ttl.capacity e /\
  Ttl.ttl e = ttl.
Proof.
  intros e. destruct (ttl_reached cap ttl ops) as [Hwf [Hu [Hle Httl]]].
  fold e in Hwf, Hu, Hle, Httl.
  split; [|split; [apply Hwf|split; [exact Hle|exact Httl]]].
  intros ix a b Hix Hun Ha Hb Hk.
  apply (Hu (through ix)); auto. now apply in_map.
Qed.

(** X9.  [emplace] of the TTL wrapper on an item whose key under a unique
    index is that of a stored item inserts nothing: it returns an iterator
    to the stored item that banned the insertion and [false], leaves
    [size()] as it was, stamps that item with [now] and moves it to the
    head of the recency list; the item keeps its payload. *)
Theorem ttl_emplace_existing_item (e : ExpirableContainer) (v : Value) (now : Z) :
  Ttl.wf e ->
  (exists ix n,
     In ix indices /\ unique ix = true /\ In n (Ttl.items e) /\
     key_of ix (Ttl.value (element n)) = key_of ix v) ->
  exists ix n,
    In ix indices /\ unique ix = true /\ In n (Ttl.items e) /\
    key_of ix (Ttl.value (element n)) = key_of ix v /\
    fst (Ttl.emplace key_eq_dec indices v now e) = (id n, false) /\
    Ttl.items (snd (Ttl.emplace key_eq_dec indices v now e))
      = {| id := id n;
           element := {| Ttl.value := Ttl.value (element n);
                         Ttl.last_accessed := now |} |}
        :: unlink (id n) (Ttl.items e) /\
    Ttl.size (snd (Ttl.emplace key_eq_dec indices v now e)) = Ttl.size e.
Proof.
  intros Hwf [ix0 [n0 [Hix0 [Hun0 [Hn0 Hk0]]]]].
  destruct (first_ban key_eq_dec (map through indices)
              {| Ttl.value := v; Ttl.last_accessed := now |} (Ttl.items e))
    as [b|] eqn:E.
  - rewrite (TtlFacts.ttl_emplace_banned _ _ key_eq_dec indices _ _ _ _ Hwf E).
    destruct (first_ban_Some _ _ _ _ _ _ _ E) as [ixb [Hixb [Hunb [Hb Hkb]]]].
    apply in_map_iff in Hixb. destruct Hixb as [ix [<- Hix]].
    exists ix, b. repeat split; auto.
    unfold Ttl.size, Lru.size, MultiIndex.size. cbn.
    apply unlink_length with (n := b). now apply wf_deref.
  - exfalso.
    apply (first_ban_None _ _ key_eq_dec _ _ _ E (through ix0) n0); auto.
    now apply in_map.
Qed.

(** X10.  Insertion followed by lookup.  In a wrapper reached from the
    constructor whose capacity is at least 1, and with a TTL for which
    [now + ttl] is representable in the 64-bit count of the clock, an item
    that [emplace] has inserted at [now] is returned by [find] under every
    declared unique index up to [now + ttl], with its payload and stamped
    with the time of the lookup; a first lookup after [now + ttl] returns
    [end()] and removes it. *)
Theorem ttl_insert_then_find
  (cap : nat) (ttl : Z) (ops : list (Ttl.op Value Key))
  (v : Value) (now : Z) (ix : index_spec Value Key) :
  let e := run ops (Ttl.constructed Value cap ttl) in
  let e' := snd (Ttl.emplace key_eq_dec indices v now e) in
  let it := next_id (Lru.container_ (Ttl.container_ e)) in
  1 <= Ttl.capacity e ->
  snd (fst (Ttl.emplace key_eq_dec indices v now e)) = true ->
  In ix indices -> unique ix = true ->
  Ttl.no_overflow ttl now ->
  fst (Ttl.emplace key_eq_dec indices v now e) = (it, true) /\
  forall now',
    ((now' <= now + ttl * Ttl.ticks_per_ms)%Z ->
     fst (Ttl.find key_eq_dec ix (key_of ix v) now' e') = Some it /\
     hd_error (Ttl.items (snd (Ttl.find key_eq_dec ix (key_of ix v) now' e')))
       = Some {| id := it;
                 element := {| Ttl.value := v;
                               Ttl.last_accessed := now' |} |}) /\
    ((now' > now + ttl * Ttl.ticks_per_ms)%Z ->
     fst (Ttl.find key_eq_dec ix (key_of ix v) now' e') = None /\
     forall n, In n (Ttl.items (snd (Ttl.find key_eq_dec ix (key_of ix v)
                                       now' e'))) ->
               id n <> it).
Proof.
  intros e e' it Hcap Hfresh Hix Hun Hno. subst e' it.
  destruct (ttl_reached cap ttl ops) as [Hwf [Hu [Hle Httl]]].
  fold e in Hwf, Hu, Hle, Httl.
  assert (first_ban key_eq_dec (map through indices)
            {| Ttl.value := v; Ttl.last_accessed := now |} (Ttl.items e)
          = None) as E.
  { destruct (first_ban key_eq_dec (map through indices)
                {| Ttl.value := v; Ttl.last_accessed := now |} (Ttl.items e))
      as [b|] eqn:E; [|reflexivity].
    rewrite (TtlFacts.ttl_emplace_banned _ _ key_eq_dec indices _ _ _ _ Hwf E)
      in Hfresh. discriminate. }
  destruct (ttl_emplace_fresh_head e v now Hcap Hle E)
    as [Hfst [rest [Hitems Hsub]]].
  split; [exact Hfst|].
  set (e' := snd (Ttl.emplace key_eq_dec indices v now e)) in *.
  set (new := {| id := next_id (Lru.container_ (Ttl.container_ e));
                 element := {| Ttl.value := v; Ttl.last_accessed := now |} |})
    in *.
  assert (Ttl.wf e') as Hwf'
    by (apply (TtlFacts.ttl_wf_step _ _ key_eq_dec indices
                 (Ttl.Emplace v now) e Hwf)).
  assert (Ttl.ttl_ e' = ttl) as Httl'
    by (rewrite <- Httl; apply (step_ttl (Ttl.Emplace v now) e)).
  assert (index_find key_eq_dec (through ix) (key_of ix v)
            (Lru.container_ (Ttl.container_ e')) = Some new) as F.
  { destruct (index_find key_eq_dec (through ix) (key_of ix v)
                (Lru.container_ (Ttl.container_ e'))) as [n|] eqn:F.
    - destruct (index_find_Some _ _ _ _ _ _ _ F) as [Hn Hk].
      fold (Ttl.items e') in Hn. rewrite Hitems in Hn.
      destruct Hn as [<-|Hn]; [reflexivity|].
      exfalso.
      apply (first_ban_None _ _ key_eq_dec _ _ _ E (through ix) n); auto.
      now apply in_map.
    - exfalso.
      apply (proj1 (index_find_None _ _ _ _ _ _) F new); [|reflexivity].
      fold (Ttl.items e'). rewrite Hitems. now left. }
  intros now'. split.
  - intros Hlive.
    assert (Ttl.expired now' (Ttl.ttl_ e') (element new) = false) as Ex
      by (rewrite Httl';
          apply (proj2 (TtlFacts.expired_false_in_range _ now' ttl
                          (element new) Hno));
          exact Hlive).
    rewrite (TtlFacts.find_found_live _ _ key_eq_dec _ _ _ _ _ F Ex).
    split; [reflexivity|].
    unfold Ttl.items. cbn [snd].
    unfold Ttl.with_container, Lru.with_container.
    cbn [Ttl.container_ Lru.container_].
    rewrite (relocate_assign_eq _ _ _ _ new); [reflexivity|].
    fold (Ttl.items e'). rewrite Hitems. simpl. now rewrite Nat.eqb_refl.
  - intros Hexp.
    assert (Ttl.expired now' (Ttl.ttl_ e') (element new) = true) as Ex
      by (rewrite Httl';
          apply (proj2 (TtlFacts.expired_true_in_range _ now' ttl
                          (element new) Hno));
          exact Hexp).
    rewrite (TtlFacts.find_found_expired _ _ key_eq_dec _ _ _ _ _ F Ex).
    split; [reflexivity|].
    unfold Ttl.items. cbn. intros n Hn.
    apply In_unlink in Hn; [tauto|apply Hwf'].
Qed.

(** X11.  A successful lookup keeps the item for a further TTL.  When
    [find] at [now] has returned an item, and [now + ttl] is representable
    in the 64-bit count of the clock, a next [find] of the key up to
    [now + ttl] returns the same item, however long before [now] it had
    been stored; a next [find] after [now + ttl] returns [end()]. *)
Theorem ttl_find_refreshes
  (e : ExpirableContainer) (ix : index_spec Value Key) (k : Key)
  (now : Z) (it : nat) :
  Ttl.wf e ->
  fst (Ttl.find key_eq_dec ix k now e) = Some it ->
  Ttl.no_overflow (Ttl.ttl_ e) now ->
  forall now',
    ((now' <= now + Ttl.ttl_ e * Ttl.ticks_per_ms)%Z ->
     fst (Ttl.find key_eq_dec ix k now'
            (snd (Ttl.find key_eq_dec ix k now e))) = Some it) /\
    ((now' > now + Ttl.ttl_ e * Ttl.ticks_per_ms)%Z ->
     fst (Ttl.find key_eq_dec ix k now'
            (snd (Ttl.find key_eq_dec ix k now e))) = None).
Proof.
  intros Hwf Hfound Hno now'.
  destruct (index_find key_eq_dec (through ix) k
              (Lru.container_ (Ttl.container_ e))) as [n|] eqn:F.
  2:{ rewrite (TtlFacts.find_missing _ _ key_eq_dec _ _ _ now F) in Hfound.
      discriminate. }
  destruct (Ttl.expired now (Ttl.ttl_ e) (element n)) eqn:E.
  { rewrite (TtlFacts.find_found_expired _ _ key_eq_dec _ _ _ _ _ F E)
      in Hfound. discriminate. }
  rewrite (TtlFacts.find_found_live _ _ key_eq_dec _ _ _ _ _ F E) in *.
  cbn [fst snd] in *. injection Hfound as <-.
  destruct (index_find_Some _ _ _ _ _ _ _ F) as [Hn _].
  set (e1 := Ttl.with_container e
               (relocate_front (id n)
                  (assign (id n) (Ttl.set_last_accessed now)
                     (Lru.container_ (Ttl.container_ e))))).
  assert (index_find key_eq_dec (through ix) k
            (Lru.container_ (Ttl.container_ e1))
          = Some (Ttl.refreshed now n)) as F1.
  { unfold e1. cbn [Ttl.with_container Lru.with_container Ttl.container_
                      Lru.container_].
    rewrite (relocate_assign_eq _ _ _ _ n) by (now apply wf_deref).
    unfold index_find in *.
    destruct (index_equal_range key_eq_dec (through ix) k
                (Lru.container_ (Ttl.container_ e))) as [|a rest] eqn:R;
      [discriminate|].
    injection F as ->.
    fold (Ttl.refreshed now n).
    now rewrite (equal_range_after_refresh ix k now n rest _ Hwf R). }
  assert (Ttl.ttl_ e1 = Ttl.ttl_ e) as Httl by reflexivity.
  split.
  - intros Hlive.
    assert (Ttl.expired now' (Ttl.ttl_ e1) (element (Ttl.refreshed now n))
            = false) as Ex
      by (rewrite Httl;
          apply (proj2 (TtlFacts.expired_false_in_range _ now' (Ttl.ttl_ e)
                          (element (Ttl.refreshed now n)) Hno));
          exact Hlive).
    now rewrite (TtlFacts.find_found_live _ _ key_eq_dec _ _ _ _ _ F1 Ex).
  - intros Hexp.
    assert (Ttl.expired now' (Ttl.ttl_ e1) (element (Ttl.refreshed now n))
            = true) as Ex
      by (rewrite Httl;
          apply (proj2 (TtlFacts.expired_true_in_range _ now' (Ttl.ttl_ e)
                          (element (Ttl.refreshed now n)) Hno));
          exact Hexp).
    now rewrite (TtlFacts.find_found_expired _ _ key_eq_dec _ _ _ _ _ F1 Ex).
Qed.

(** X12.  Recency follows the clock.  After any sequence of calls whose
    clock readings never decrease, on a wrapper reached from the
    constructor, the recency list is in the order of the timestamps - the
    latest [last_accessed] at the head, the earliest at the tail - and no
    [last_accessed] is after the last reading. *)
Theorem recency_follows_the_clock
  (cap : nat) (ttl t0 : Z) (ops : list (Ttl.op Value Key)) :
  Ttl.clock_monotone t0 ops ->
  let e := run ops (Ttl.constructed Value cap ttl) in
  Ttl.newest_first (Ttl.items e) /\
  (forall n, In n (Ttl.items e) ->
             (Ttl.last_accessed (element n) <= Ttl.last_reading t0 ops)%Z) /\
  (forall n, rbegin (Lru.container_ (Ttl.container_ e)) = Some n ->
             forall x, In x (Ttl.items e) ->
                       (Ttl.last_accessed (element n)
                        <= Ttl.last_accessed (element x))%Z).
Proof.
  intros Hmono e.
  destruct (run_in_order ops t0 (Ttl.constructed Value cap ttl))
    as [Hs Ht]; auto.
  - apply wf_constructed.
  - split; [constructor|intros x []].
  - fold e in Hs, Ht. split; [exact Hs|]. split; [exact Ht|].
    intros n Hr x Hx. unfold Ttl.items, Ttl.newest_first in *.
    destruct (Lru.container_ (Ttl.container_ e)) as [s nx].
    cbn [nodes] in *.
    destruct (snoc_cases _ s) as [->|[ys [y ->]]]; [destruct Hx|].
    rewrite rbegin_snoc in Hr. injection Hr as <-.
    apply in_app_or in Hx. destruct Hx as [Hx|[<-|[]]]; [|lia].
    apply (sorted_snoc _ _ _ _ Hs x Hx).
Qed.

(** X13.  The sweep is complete on a clock that does not run backwards.
    After any sequence of calls whose clock readings never decrease, on a
    wrapper reached from the constructor, and where [last_accessed + ttl]
    of every stored item is representable in the 64-bit count of the
    clock, [cleanup_expired] removes every item with
    [last_accessed + ttl < now] and no other, keeping the order of the
    rest: no expired item is left behind a live tail. *)
Theorem cleanup_expired_is_complete
  (cap : nat) (ttl t0 : Z) (ops : list (Ttl.op Value Key)) (now : Z) :
  Ttl.clock_monotone t0 ops ->
  let e := run ops (Ttl.constructed Value cap ttl) in
  (forall n, In n (Ttl.items e) ->
             Ttl.no_overflow ttl (Ttl.last_accessed (element n))) ->
  Ttl.items (Ttl.cleanup_expired now e)
    = filter (fun n => (now <=? Ttl.last_accessed (element n)
                                + ttl * Ttl.ticks_per_ms)%Z)
        (Ttl.items e) /\
  (forall n, In n (Ttl.items (Ttl.cleanup_expired now e)) <->
             In n (Ttl.items e) /\
             (now <= Ttl.last_accessed (element n)
                     + ttl * Ttl.ticks_per_ms)%Z).
Proof.
  intros Hmono e Hno.
  destruct (run_in_order ops t0 (Ttl.constructed Value cap ttl))
    as [Hs _]; auto.
  - apply wf_constructed.
  - split; [constructor|intros x []].
  - fold e in Hs.
    assert (Ttl.ttl_ e = ttl) as Httl by apply run_ttl.
    assert (Ttl.items (Ttl.cleanup_expired now e)
            = filter (fun n => (now <=? Ttl.last_accessed (element n)
                                        + ttl * Ttl.ticks_per_ms)%Z)
                (Ttl.items e)) as H.
    { rewrite (cleanup_sorted e now Hs) by (now rewrite Httl).
      rewrite Httl. apply filter_ext_in. intros n Hn. unfold Ttl.live.
      rewrite (TtlFacts.expired_in_range _ _ _ _ (Hno n Hn)).
      symmetry. apply Z.leb_antisym. }
    split; [exact H|]. intros n. rewrite H, filter_In, Z.leb_le. tauto.
Qed.

(** X14.  A second sweep at the same instant finds nothing to do:
    [cleanup_expired] twice with one clock reading leaves what the first
    call left, in any state of the wrapper; and the sweep changes neither
    the capacity nor the TTL. *)
Theorem cleanup_expired_twice (e : ExpirableContainer) (now : Z) :
  Ttl.items (Ttl.cleanup_expired now (Ttl.cleanup_expired now e))
    = Ttl.items (Ttl.cleanup_expired now e) /\
  Ttl.capacity (Ttl.cleanup_expired now e) = Ttl.capacity e /\
  Ttl.ttl (Ttl.cleanup_expired now e) = Ttl.ttl e /\
  Ttl.size (Ttl.cleanup_expired now e) <= Ttl.size e.
Proof.
  destruct (TtlFacts.cleanup_expired_items _ e now) as [d [H1 [_ H3]]].
  split; [|split; [reflexivity|split; [reflexivity|]]].
  - destruct (rbegin (Lru.container_
                        (Ttl.container_ (Ttl.cleanup_expired now e))))
      as [n|] eqn:R.
    + now apply TtlFacts.cleanup_live_tail with (n := n).
    + destruct (TtlFacts.cleanup_expired_items _
                  (Ttl.cleanup_expired now e) now) as [d' [H1' _]].
      unfold rbegin in R. fold (Ttl.items (Ttl.cleanup_expired now e)) in R.
      destruct (Ttl.items (Ttl.cleanup_expired now e)); [|discriminate].
      symmetry in H1'. now apply app_eq_nil in H1'.
  - unfold Ttl.size, Lru.size, MultiIndex.size.
    fold (Ttl.items e). fold (Ttl.items (Ttl.cleanup_expired now e)).
    rewrite H1 at 1. rewrite length_app. lia.
Qed.

(** X15.  [equal_range] at its edges.  For a key that no stored item has
    it returns the empty range and leaves the wrapper as it was.  When
    every item of the range has a [last_accessed + ttl] that is
    representable in the 64-bit count of the clock and not before [now],
    it erases nothing: the result is the whole range, [size()] is
    unchanged, and every stored item is still stored with its payload. *)
Theorem ttl_equal_range_edges
  (e : ExpirableContainer) (ix : index_spec Value Key) (k : Key) (now : Z) :
  Ttl.wf e ->
  ((forall n, In n (Ttl.items e) -> key_of ix (Ttl.value (element n)) <> k) ->
   Ttl.equal_range key_eq_dec ix k now e = ([], e)) /\
  ((forall n, In n (Ttl.items e) ->
      key_of ix (Ttl.value (element n)) = k ->
      Ttl.no_overflow (Ttl.ttl_ e) (Ttl.last_accessed (element n)) /\
      (now <= Ttl.last_accessed (element n)
              + Ttl.ttl_ e * Ttl.ticks_per_ms)%Z) ->
   fst (Ttl.equal_range key_eq_dec ix k now e)
     = ids (index_equal_range key_eq_dec (through ix) k
              (Lru.container_ (Ttl.container_ e))) /\
   Ttl.size (snd (Ttl.equal_range key_eq_dec ix k now e)) = Ttl.size e /\
   (forall n, In n (Ttl.items e) ->
      exists n', In n' (Ttl.items (snd (Ttl.equal_range key_eq_dec ix k now e)))
                 /\ id n' = id n
                 /\ Ttl.value (element n') = Ttl.value (element n))).
Proof.
  intros Hwf.
  rewrite (TtlFacts.equal_range_result _ _ key_eq_dec e ix k now Hwf).
  cbn [fst snd].
  set (range0 := index_equal_range key_eq_dec (through ix) k
                   (Lru.container_ (Ttl.container_ e))).
  split.
  - intros Habs.
    assert (range0 = []) as ->.
    { destruct range0 as [|a r] eqn:R; [reflexivity|].
      assert (In a range0) as Ha by (rewrite R; now left).
      apply In_equal_range in Ha. destruct Ha as [Ha Hk].
      now destruct (Habs a Ha). }
    cbn [filter map rev app]. f_equal.
    rewrite filter_all.
    + destruct e as [[[s nx] cap] ttl]. reflexivity.
    + intros x Hx. apply negb_true_iff, key_matches_false.
      now apply Habs.
  - intros Hlive.
    assert (filter (Ttl.live now (Ttl.ttl_ e)) range0 = range0) as ->.
    { apply filter_all. intros x Hx. apply In_equal_range in Hx.
      destruct Hx as [Hx Hk]. unfold Ttl.live.
      destruct (Hlive x Hx Hk) as [Hno Hle].
      apply negb_true_iff.
      now apply TtlFacts.expired_false_in_range. }
    split; [reflexivity|]. split.
    + unfold Ttl.size, Lru.size, MultiIndex.size. cbn.
      rewrite length_app, length_rev, length_map.
      unfold range0, index_equal_range.
      rewrite (Permutation_length (by_arrival_perm _ _)).
      fold (Ttl.items e). apply filter_length.
    + intros n Hn. unfold Ttl.items at 1. cbn.
      destruct (key_matches key_eq_dec (through ix) k n) eqn:M.
      * exists (Ttl.refreshed now n). split; [|now split].
        apply in_or_app. left. apply in_rev. rewrite rev_involutive.
        apply in_map. apply In_equal_range. split; [exact Hn|].
        now apply key_matches_true in M.
      * exists n. split; [|now split].
        apply in_or_app. right. apply filter_In. split; [exact Hn|].
        now rewrite M.
Qed.

(** X16.  With assertions enabled the TTL in force is always positive: a
    wrapper that the constructor returned has [ttl() > 0], no call other
    than [set_ttl] changes [ttl()], and a [set_ttl] that returns has
    stored a positive TTL without touching the stored items, their
    timestamps or the capacity. *)
Theorem ttl_is_positive_with_assertions
  (cap : nat) (t t' : Z) (e : ExpirableContainer)
  (ops : list (Ttl.op Value Key)) :
  Ttl.new Value false cap t = Ttl.Returned e ->
  (0 < Ttl.ttl (run ops e))%Z /\
  Ttl.ttl (run ops e) = t /\
  (forall e', Ttl.set_ttl false t' (run ops e) = Ttl.Returned e' ->
     (0 < Ttl.ttl e')%Z /\ Ttl.ttl e' = t' /\
     Ttl.items e' = Ttl.items (run ops e) /\
     Ttl.capacity e' = Ttl.capacity (run ops e)).
Proof.
  unfold Ttl.new, Ttl.set_ttl, Ttl.assert, Ttl.ttl. intros Hnew.
  destruct (Z.ltb_spec 0 t) as [L|L]; [|discriminate].
  injection Hnew as <-. rewrite run_ttl. cbn [Ttl.ttl_].
  split; [exact L|]. split; [reflexivity|].
  intros e' Hset.
  destruct (Z.ltb_spec 0 t') as [L'|L']; [|discriminate].
  injection Hset as <-. now repeat split.
Qed.

(** X21.  The TTL wrapper at capacity zero.  A wrapper reached from the
    constructor whose capacity is 0 is empty; [emplace] on it returns
    [true] with an iterator, but the new item has been evicted before the
    call returns: the wrapper is still empty, and the iterator it returned
    designates no stored item. *)
Theorem ttl_zero_capacity_stores_nothing
  (cap : nat) (ttl : Z) (ops : list (Ttl.op Value Key)) (v : Value)
  (now : Z) :
  let e := run ops (Ttl.constructed Value cap ttl) in
  let r := Ttl.emplace key_eq_dec indices v now e in
  Ttl.capacity e = 0 ->
  Ttl.items e = [] /\
  fst r = (next_id (Lru.container_ (Ttl.container_ e)), true) /\
  Ttl.items (snd r) = [] /\
  deref (fst (fst r)) (Ttl.items (snd r)) = None /\
  (forall ix now',
     fst (Ttl.find key_eq_dec ix (key_of ix v) now' (snd r)) = None).
Proof.
  intros e r Hcap.
  destruct (ttl_reached cap ttl ops) as [_ [_ [Hle _]]]. fold e in Hle.
  assert (Ttl.items e = []) as Hnil.
  { unfold Ttl.size, Lru.size, MultiIndex.size in Hle.
    fold (Ttl.items e) in Hle.
    rewrite Hcap in Hle. destruct (Ttl.items e); [reflexivity|].
    cbn [length] in Hle. lia. }
  assert (first_ban key_eq_dec (map through indices)
            {| Ttl.value := v; Ttl.last_accessed := now |} (Ttl.items e)
          = None) as Hban.
  { rewrite Hnil. apply first_ban_nil. }
  destruct (TtlFacts.ttl_emplace_fresh _ _ key_eq_dec indices _ _ _ Hban)
    as [Hfst Hitems].
  fold r in Hfst, Hitems. rewrite Hcap in Hitems.
  assert (Ttl.items (snd r) = []) as Hnil'.
  { rewrite Hitems, Hnil. reflexivity. }
  split; [exact Hnil|]. split; [exact Hfst|]. split; [exact Hnil'|].
  split; [rewrite Hnil'; reflexivity|].
  intros ix now'.
  unfold Ttl.find, Lru.get_index, index_find, index_equal_range.
  unfold Ttl.items in Hnil'. rewrite Hnil'. reflexivity.
Qed.

End Wrapper.


(** A deadline within the 64-bit range, at given numbers. *)
Ltac fits_int64 :=
  unfold Ttl.no_overflow, Ttl.representable; vm_compute;
  intuition discriminate.

(** Distinct handles of a wrapper given in full. *)
Ltac handles_distinct :=
  split; cbn;
  [ repeat (constructor; [cbn; intuition discriminate|]); constructor
  | repeat (constructor; [cbn; lia|]); constructor ].

(** X9 at [alice_cached]: a second payload with the stored id, 10 ms
    after the insertion. *)
Lemma ttl_emplace_existing_item_witness :
  Ttl.wf alice_cached /\
  (exists ix n,
     In ix EasierUserCache /\ unique ix = true /\
     In n (Ttl.items alice_cached) /\
     key_of ix (Ttl.value (element n)) = key_of ix alicia) /\
  exists ix n,
    In ix EasierUserCache /\ unique ix = true /\
    In n (Ttl.items alice_cached) /\
    key_of ix (Ttl.value (element n)) = key_of ix alicia /\
    fst (Ttl.emplace key_eq_dec EasierUserCache alicia (ms 10) alice_cached)
      = (id n, false) /\
    Ttl.items
      (snd (Ttl.emplace key_eq_dec EasierUserCache alicia (ms 10)
              alice_cached))
      = {| id := id n;
           element := {| Ttl.value := Ttl.value (element n);
                         Ttl.last_accessed := ms 10 |} |}
        :: unlink (id n) (Ttl.items alice_cached) /\
    Ttl.size
      (snd (Ttl.emplace key_eq_dec EasierUserCache alicia (ms 10)
              alice_cached))
      = Ttl.size alice_cached.
Proof.
  assert (Ttl.wf alice_cached) as Hwf by handles_distinct.
  assert (exists ix n,
            In ix EasierUserCache /\ unique ix = true /\
            In n (Ttl.items alice_cached) /\
            key_of ix (Ttl.value (element n)) = key_of ix alicia) as Hcol.
  { exists IdTag,
      {| id := 0;
         element := {| Ttl.value := alice; Ttl.last_accessed := 0 |} |}.
    cbn. tauto. }
  exact (conj Hwf (conj Hcol
    (ttl_emplace_existing_item _ _ key_eq_dec EasierUserCache alice_cached
       alicia (ms 10) Hwf Hcol))).
Defined.

(** X10 at a new wrapper of capacity 100 and TTL 80 ms: a user inserted
    at 0 and looked up at 50 ms. *)
Lemma ttl_insert_then_find_witness :
  1 <= 100 /\ Ttl.no_overflow 80 0 /\
  fst (Ttl.find key_eq_dec IdTag (KInt 1) (ms 50)
         (snd (Ttl.emplace key_eq_dec EasierUserCache alice 0
                 (Ttl.constructed User 100 80)))) = Some 0.
Proof.
  assert (1 <= 100) as Hcap by lia.
  assert (Ttl.no_overflow 80 0) as Hfits by fits_int64.
  destruct (ttl_insert_then_find _ _ key_eq_dec EasierUserCache 100 80 []
              alice 0 IdTag Hcap eq_refl (or_introl eq_refl) eq_refl Hfits)
    as [_ H].
  destruct (H (ms 50)) as [[H1 _] _].
  - unfold ms, Ttl.ticks_per_ms. lia.
  - exact (conj Hcap (conj Hfits H1)).
Defined.

(** X11 at [alice_cached]: a lookup at 50 ms, then one at 100 ms. *)
Lemma ttl_find_refreshes_witness :
  Ttl.wf alice_cached /\
  fst (Ttl.find key_eq_dec IdTag (KInt 1) (ms 50) alice_cached) = Some 0 /\
  Ttl.no_overflow 80 (ms 50) /\
  fst (Ttl.find key_eq_dec IdTag (KInt 1) (ms 100)
         (snd (Ttl.find key_eq_dec IdTag (KInt 1) (ms 50) alice_cached)))
    = Some 0.
Proof.
  assert (Ttl.wf alice_cached) as Hwf by handles_distinct.
  assert (fst (Ttl.find key_eq_dec IdTag (KInt 1) (ms 50) alice_cached)
          = Some 0) as Hfound by reflexivity.
  assert (Ttl.no_overflow 80 (ms 50)) as Hfits by fits_int64.
  destruct (ttl_find_refreshes _ _ key_eq_dec alice_cached IdTag (KInt 1)
              (ms 50) 0 Hwf Hfound Hfits (ms 100)) as [H _].
  refine (conj Hwf (conj Hfound (conj Hfits (H _)))).
  unfold ms, Ttl.ticks_per_ms. cbn. lia.
Defined.

(** X12 for two insertions and a lookup at 0, 10 and 20 ms. *)
Lemma recency_follows_the_clock_witness :
  Ttl.clock_monotone 0
    [Ttl.Insert alice (ms 0); Ttl.Insert bob (ms 10);
     Ttl.Find IdTag (KInt 1) (ms 20)] /\
  Ttl.newest_first
    (Ttl.items
       (Ttl.run key_eq_dec EasierUserCache
          [Ttl.Insert alice (ms 0); Ttl.Insert bob (ms 10);
           Ttl.Find IdTag (KInt 1) (ms 20)]
          (Ttl.constructed User 10 50))).
Proof.
  assert (Ttl.clock_monotone 0
            [Ttl.Insert (Key := key) alice (ms 0); Ttl.Insert bob (ms 10);
             Ttl.Find IdTag (KInt 1) (ms 20)]) as Hmono.
  { cbn. unfold ms, Ttl.ticks_per_ms. lia. }
  exact (conj Hmono
    (proj1 (recency_follows_the_clock _ _ key_eq_dec EasierUserCache
              10 50 0 _ Hmono))).
Defined.

(** X13 for the same calls, swept at 65 ms with a TTL of 50 ms. *)
Lemma cleanup_expired_is_complete_witness :
  Ttl.clock_monotone 0
    [Ttl.Insert alice (ms 0); Ttl.Insert bob (ms 10);
     Ttl.Find IdTag (KInt 1) (ms 20)] /\
  Ttl.no_overflow 50 (ms 20) /\ Ttl.no_overflow 50 (ms 10) /\
  Ttl.items
    (Ttl.cleanup_expired (ms 65)
       (Ttl.run key_eq_dec EasierUserCache
          [Ttl.Insert alice (ms 0); Ttl.Insert bob (ms 10);
           Ttl.Find IdTag (KInt 1) (ms 20)]
          (Ttl.constructed User 10 50)))
  = filter (fun n => (ms 65 <=? Ttl.last_accessed (element n)
                                + 50 * Ttl.ticks_per_ms)%Z)
      (Ttl.items
         (Ttl.run key_eq_dec EasierUserCache
            [Ttl.Insert alice (ms 0); Ttl.Insert bob (ms 10);
             Ttl.Find IdTag (KInt 1) (ms 20)]
            (Ttl.constructed User 10 50))).
Proof.
  assert (Ttl.clock_monotone 0
            [Ttl.Insert (Key := key) alice (ms 0); Ttl.Insert bob (ms 10);
             Ttl.Find IdTag (KInt 1) (ms 20)]) as Hmono.
  { cbn. unfold ms, Ttl.ticks_per_ms. lia. }
  assert (Ttl.no_overflow 50 (ms 20)) as Hfits20 by fits_int64.
  assert (Ttl.no_overflow 50 (ms 10)) as Hfits10 by fits_int64.
  refine (conj Hmono (conj Hfits20 (conj Hfits10
    (proj1 (cleanup_expired_is_complete _ _ key_eq_dec EasierUserCache
              10 50 0 _ (ms 65) Hmono _))))).
  intros n Hn. vm_compute in Hn.
  destruct Hn as [<-|[<-|[]]]; [exact Hfits20|exact Hfits10].
Defined.

(** X15 at [two_johns]: the range of the name at 30 ms, TTL 50 ms. *)
Lemma ttl_equal_range_edges_witness :
  Ttl.wf two_johns /\ Ttl.no_overflow 50 0 /\
  Ttl.size (snd (Ttl.equal_range key_eq_dec NameTag (KStr "John") (ms 30)
                   two_johns)) = Ttl.size two_johns.
Proof.
  assert (Ttl.wf two_johns) as Hwf by handles_distinct.
  assert (Ttl.no_overflow 50 0) as Hfits by fits_int64.
  destruct (ttl_equal_range_edges _ _ key_eq_dec two_johns NameTag
              (KStr "John") (ms 30) Hwf) as [_ H].
  destruct H as [_ [H _]].
  - intros n Hn _. vm_compute in Hn.
    destruct Hn as [<-|[<-|[]]];
      (split; [exact Hfits|vm_compute; discriminate]).
  - exact (conj Hwf (conj Hfits H)).
Defined.

(** X16 at a wrapper of capacity 100 and TTL 80 ms. *)
Lemma ttl_is_positive_with_assertions_witness :
  Ttl.new User false 100 80 = Ttl.Returned (fresh_cache 100 80) /\
  (0 < Ttl.ttl (fresh_cache 100 80))%Z.
Proof.
  assert (Ttl.new User false 100 80 = Ttl.Returned (fresh_cache 100 80))
    as Hnew by reflexivity.
  exact (conj Hnew
    (proj1 (ttl_is_positive_with_assertions _ _ key_eq_dec EasierUserCache
              100 80 30 (fresh_cache 100 80) [] Hnew))).
Defined.


(** X21 at a wrapper constructed with capacity 0 and TTL 80 ms. *)
Lemma ttl_zero_capacity_stores_nothing_witness :
  Ttl.capacity (Ttl.constructed User 0 80) = 0 /\
  fst (Ttl.emplace key_eq_dec EasierUserCache alice (ms 10)
         (Ttl.constructed User 0 80)) = (0, true) /\
  Ttl.items
    (snd (Ttl.emplace key_eq_dec EasierUserCache alice (ms 10)
            (Ttl.constructed User 0 80))) = [].
Proof.
  assert (Ttl.capacity (Ttl.constructed User 0 80) = 0) as Hcap
    by reflexivity.
  destruct (ttl_zero_capacity_stores_nothing _ _ key_eq_dec EasierUserCache
              0 80 [] alice (ms 10) Hcap) as [_ [H1 [H2 _]]].
  exact (conj Hcap (conj H1 H2)).
Defined.

End TtlBehaviour.

(** ** Entries built from serialized data *)

Module ZerializeBehaviour.
Import MultiIndex MultiIndexFacts Fixtures.

Section Entries.

Variables Double D : Type.
Context {reader_api : Zerialize.Deserializer Double D}.

(** X17.  The keys of a built entry agree with its bytes.  [build(data)]
    stores the bytes unchanged, has one key for each extractor, and its
    N-th key is the N-th extractor applied to the deserializer that
    [deserialize()] makes from the stored bytes.  [build(reader, data)]
    stores the bytes too, but takes the keys from the reader it is given. *)
Theorem built_entry_agrees_with_its_data
  (b : Zerialize.EntryBuilder Double D) (bytes : list Init.Byte.byte)
  (reader : D) (N : nat) :
  Zerialize.raw_data (Zerialize.build b bytes) = bytes /\
  Zerialize.deserialize (Zerialize.build b bytes) = Zerialize.parse bytes /\
  Zerialize.key_count (Zerialize.build b bytes)
    = length (Zerialize.extractors_ b) /\
  Zerialize.key N (Zerialize.build b bytes)
    = option_map
        (fun extractor =>
           extractor (Zerialize.deserialize (Zerialize.build b bytes)))
        (nth_error (Zerialize.extractors_ b) N) /\
  Zerialize.raw_data (Zerialize.build_from b reader bytes) = bytes /\
  Zerialize.key N (Zerialize.build_from b reader bytes)
    = option_map (fun extractor => extractor reader)
        (nth_error (Zerialize.extractors_ b) N).
Proof.
  unfold Zerialize.build, Zerialize.build_from, Zerialize.build_impl,
    Zerialize.raw_data, Zerialize.deserialize, Zerialize.key_count,
    Zerialize.key.
  cbn [Zerialize.keys Zerialize.data].
  repeat split; try apply length_map; apply nth_error_map.
Qed.

(** X18.  [nested_field] walks its path from left to right: on a path of
    one name it is [field] of that name and type, and on a longer path it
    is [field] of the last name applied to the reader reached through the
    names before it. *)
Theorem nested_field_walks_the_path
  (t : Zerialize.nested_type) (p q : list string) (field_name : string)
  (reader : D) :
  Zerialize.extract_nested
    {| Zerialize.nested_type_of := t; Zerialize.path := [field_name] |} reader
    = Zerialize.extract (Zerialize.field_of t field_name) reader /\
  Zerialize.extract_nested
    {| Zerialize.nested_type_of := t; Zerialize.path := p ++ q |} reader
    = Zerialize.extract_nested
        {| Zerialize.nested_type_of := t; Zerialize.path := q |}
        (fold_left Zerialize.at_key p reader) /\
  Zerialize.extract_nested
    {| Zerialize.nested_type_of := t; Zerialize.path := p ++ [field_name] |}
    reader
    = Zerialize.extract (Zerialize.field_of t field_name)
        (fold_left Zerialize.at_key p reader).
Proof.
  unfold Zerialize.extract_nested, Zerialize.extract, Zerialize.field_of.
  cbn [Zerialize.path Zerialize.nested_type_of Zerialize.type_of
         Zerialize.name].
  rewrite !fold_left_app. cbn [fold_left].
  destruct t; repeat split; reflexivity.
Qed.

Section Cache.

Variable key_eq_dec :
  forall a b : option (Zerialize.key_value Double), {a = b} + {a <> b}.
Variable indices :
  list (index_spec (Zerialize.ZerializeEntry Double)
          (option (Zerialize.key_value Double))).

(** X19.  A built entry is found by its key.  In a cache of entries
    reached from the constructor, of capacity at least 1 and with a unique
    index on [key<N, Entry>], an entry built from bytes and inserted is
    returned by [find] under that index for its N-th key, and the bytes it
    holds are the bytes it was built from. *)
Theorem built_entry_is_found_by_its_key
  (cap : nat)
  (ops : list (Lru.op (Zerialize.ZerializeEntry Double)
                 (option (Zerialize.key_value Double))))
  (b : Zerialize.EntryBuilder Double D) (bytes : list Init.Byte.byte)
  (N : nat) :
  let c := Lru.run key_eq_dec indices ops (Lru.new _ cap) in
  let entry := Zerialize.build b bytes in
  let c' := snd (Lru.emplace key_eq_dec indices entry c) in
  1 <= Lru.capacity c ->
  In (Zerialize.key_index true N) indices ->
  fst (Lru.emplace key_eq_dec indices entry c) = true ->
  exists it n,
    fst (Lru.find key_eq_dec (Zerialize.key_index true N)
           (Zerialize.key N entry) c') = Some it /\
    deref it (Lru.items c') = Some n /\
    Zerialize.raw_data (element n) = bytes /\
    Zerialize.deserialize (element n) = Zerialize.parse bytes.
Proof.
  intros c entry c' Hcap Hix Hfresh. subst c'.
  destruct (LruBehaviour.inserted_item_is_found _ _ key_eq_dec indices
              cap ops entry Hcap Hfresh) as [_ [_ H]].
  destruct (H (Zerialize.key_index true N) Hix eq_refl) as [Hfind Hderef].
  exists (next_id (Lru.container_ c)),
    {| id := next_id (Lru.container_ c); element := entry |}.
  repeat split; assumption.
Qed.

End Cache.

End Entries.

(** X19 at a cache of capacity 2 with the index on [key<0, Entry>]. *)
Lemma built_entry_is_found_by_its_key_witness :
  1 <= 2 /\
  fst (Lru.find entry_key_eq_dec (Zerialize.key_index true 0)
         (Some (Zerialize.Int64 3))
         (snd (Lru.emplace entry_key_eq_dec EntryCache
                 (Zerialize.build id_name_builder three_bytes)
                 (Lru.new _ 2)))) = Some 0.
Proof.
  assert (1 <= 2) as Hcap by lia.
  destruct (@built_entry_is_found_by_its_key Z mock_reader MockDeserializer
              entry_key_eq_dec EntryCache
              2 [] id_name_builder three_bytes 0 Hcap
              (or_introl eq_refl) eq_refl) as [it [n [H1 _]]].
  split; [exact Hcap|].
  pose proof H1 as H1'. vm_compute in H1'. injection H1' as <-.
  exact H1.
Defined.

End ZerializeBehaviour.
